(** * fml: a MARC 21 reader (github.com/MITLibraries/fml)

    A shallow embedding of [marc.go] (package [fml]) and of the parts of
    Go's [bufio], [bytes], [strings] and [strconv] packages it calls,
    followed by the properties of the decoder, the accessors, the filter
    evaluator and the record framer, and of the command [pick] of
    [cmd/fml/main.go], which reads a file with them.

    Conventions.
    - A Go [[]byte] is a [list ascii]; a Go [string] is a [string].  The
      conversion [string(b)] of a byte slice keeps the bytes; the
      conversion [string(c)] of a single byte [c] yields the UTF-8
      encoding of the code point [c] (two bytes from 0x80 on).
    - A Go [int] is a [Z].  All integers of this program are lengths of
      in-memory buffers or values of at most five decimal digits, far
      from the 64-bit bounds, so no wrap-around is written out.
    - A run-time panic (index or slice bounds out of range) is the
      [Panics] outcome; a Go result [(v, err)] is a pair whose second
      component is [None] for [nil]. *)

From Stdlib Require Import ZArith List String Ascii Bool Lia Arith.
Import ListNotations.

Local Open Scope string_scope.
Local Open Scope list_scope.
Local Open Scope Z_scope.

(** ** Outcomes of Go code *)

Inductive panic : Type :=
| IndexOutOfRange
| SliceBoundsOutOfRange.

Inductive outcome (A : Type) : Type :=
| Returns (a : A)
| Panics (p : panic).

Arguments Returns {A} a.
Arguments Panics {A} p.

Definition bind {A B : Type} (m : outcome A) (k : A -> outcome B) : outcome B :=
  match m with
  | Returns a => k a
  | Panics p => Panics p
  end.

Notation "x <- m ;; k" := (bind m (fun x => k))
  (at level 61, m at next level, right associativity).

(** [error] values are built by [errors.New] from a fixed message. *)
Definition error : Type := string.

(** ** Byte slices and strings *)

Definition bytes : Type := list ascii.

Definition len (b : bytes) : Z := Z.of_nat (List.length b).
Definition slen (s : string) : Z := Z.of_nat (String.length s).

(** [b[i]]: panics unless [0 <= i < len(b)]. *)
Definition index_at (b : bytes) (i : Z) : outcome ascii :=
  if (0 <=? i) && (i <? len b)
  then match nth_error b (Z.to_nat i) with
       | Some c => Returns c
       | None => Panics IndexOutOfRange
       end
  else Panics IndexOutOfRange.

(** [b[lo:hi]]: panics unless [0 <= lo <= hi <= len(b)].  Go checks [hi]
    against the capacity of a slice; in this program every slice
    expression is evaluated where [hi <= len(b)] has been established or
    where [hi] defaults to [len(b)], so the visible bytes decide. *)
Definition slice (b : bytes) (lo hi : Z) : outcome bytes :=
  if (0 <=? lo) && (lo <=? hi) && (hi <=? len b)
  then Returns (firstn (Z.to_nat (hi - lo)) (skipn (Z.to_nat lo) b))
  else Panics SliceBoundsOutOfRange.

(** [b[lo:]] *)
Definition slice_from (b : bytes) (lo : Z) : outcome bytes :=
  slice b lo (len b).

(** [b[:hi]] *)
Definition slice_to (b : bytes) (hi : Z) : outcome bytes :=
  slice b 0 hi.

(** [string(b)] for a byte slice [b]. *)
Definition string_of_bytes (b : bytes) : string := string_of_list_ascii b.

(** [[]byte(s)] *)
Definition bytes_of_string (s : string) : bytes := list_ascii_of_string s.

(** [string(c)] for a single byte [c]: the UTF-8 encoding of the code
    point whose number is [c]. *)
Definition string_of_byte (c : ascii) : string :=
  let n := N_of_ascii c in
  if (n <? 128)%N
  then String c EmptyString
  else String (ascii_of_N (192 + n / 64))
              (String (ascii_of_N (128 + n mod 64)) EmptyString).

(** [s[i]], [s[lo:hi]] and [s[lo:]] on strings index bytes as well. *)
Definition str_index_at (s : string) (i : Z) : outcome ascii :=
  index_at (bytes_of_string s) i.

Definition str_slice (s : string) (lo hi : Z) : outcome string :=
  r <- slice (bytes_of_string s) lo hi ;; Returns (string_of_bytes r).

Definition str_slice_from (s : string) (lo : Z) : outcome string :=
  str_slice s lo (slen s).

(** ** Constants *)

Definition rt : ascii := "029"%char. (* 0x1d, end of record *)
Definition st : ascii := "031"%char. (* 0x1f, end of subfield *)

(** ** Library functions *)

(** [strconv.Atoi] on inputs shorter than 19 bytes (its fast path): an
    optional sign followed by at least one byte, all of them decimal
    digits.  [None] stands for the syntax error.  The decoder only passes
    strings of four or five bytes. *)
Fixpoint atoi_digits (s : string) (n : Z) : option Z :=
  match s with
  | EmptyString => Some n
  | String ch s' =>
      let d := (Z.of_N (N_of_ascii ch) - 48) mod 256 in
      if 9 <? d then None else atoi_digits s' (n * 10 + d)
  end.

Definition Atoi (s : string) : option Z :=
  match s with
  | EmptyString => None
  | String c0 s' =>
      if (Ascii.eqb c0 "-" || Ascii.eqb c0 "+")%bool
      then match s' with
           | EmptyString => None
           | _ => match atoi_digits s' 0 with
                  | Some n => Some (if Ascii.eqb c0 "-" then - n else n)
                  | None => None
                  end
           end
      else atoi_digits s 0
  end.

(** [strings.HasPrefix(s, prefix)] *)
Definition HasPrefix (s prefix : string) : bool := String.prefix prefix s.

(** [bytes.Split(s, []byte{sep})] for a one-byte separator: the slices
    between the separators, one more than there are separators. *)
Fixpoint bytes_Split (s : bytes) (sep : ascii) : list bytes :=
  match s with
  | [] => [[]]
  | c :: s' =>
      if Ascii.eqb c sep
      then [] :: bytes_Split s' sep
      else match bytes_Split s' sep with
           | x :: xs => (c :: x) :: xs
           | [] => [[c]]
           end
  end.

(** [bytes.IndexByte(b, c)]: the first index of [c], or -1. *)
Fixpoint IndexByte (b : bytes) (c : ascii) : Z :=
  match b with
  | [] => -1
  | x :: b' =>
      if Ascii.eqb x c then 0
      else let i := IndexByte b' c in if i <? 0 then -1 else i + 1
  end.

(** [strings.Index(s, sep)] for a one-byte [sep]. *)
Definition strings_Index (s : string) (sep : ascii) : Z :=
  IndexByte (bytes_of_string s) sep.

(** ** Data model *)

Record Leader : Type := mkLeader {
  Status : ascii;        (* 05 byte position *)
  Type_ : ascii;         (* 06 *)
  BibLevel : ascii;      (* 07 *)
  Control : ascii;       (* 08 *)
  EncodingLevel : ascii; (* 17 *)
  Form : ascii;          (* 18 *)
  Multipart : ascii      (* 19 *)
}.

Record ControlField : Type := mkControlField {
  cf_Tag : string;
  cf_Value : string
}.

Record SubField : Type := mkSubField {
  sf_Code : string;
  sf_Value : string
}.

Record DataField : Type := mkDataField {
  Indicator1 : string;
  Indicator2 : string;
  df_Tag : string;
  SubFields : list SubField
}.

(** An element of [Fields []interface{}]: the decoder stores control
    fields and data fields; [FOther] is a value of any other dynamic
    type, which every type assertion and type switch of the package
    skips. *)
Inductive Field : Type :=
| FControl (f : ControlField)
| FData (f : DataField)
| FOther.

(** The struct [Record]. *)
Record MarcRecord : Type := mkRecord {
  Data : bytes;
  Fields : list Field;
  RLeader : Leader
}.

Definition zeroLeader : Leader :=
  mkLeader zero zero zero zero zero zero zero.

Definition set_Fields (r : MarcRecord) (fs : list Field) : MarcRecord :=
  mkRecord (Data r) fs (RLeader r).

Definition set_SubFields (d : DataField) (sfs : list SubField) : DataField :=
  mkDataField (Indicator1 d) (Indicator2 d) (df_Tag d) sfs.

(** ** The decoder *)

(** The loop of [makeDataField] over the chunks of [bytes.Split]. *)
Fixpoint makeDataField_loop (d : DataField) (chunks : list bytes)
  : DataField * option error :=
  match chunks with
  | [] => (d, None)
  | sf :: rest =>
      match sf with
      | c :: v =>
          makeDataField_loop
            (set_SubFields d
               (SubFields d ++ [mkSubField (string_of_byte c) (string_of_bytes v)]))
            rest
      | [] => (d, Some "Extraneous field terminator")
      end
  end.

Definition makeDataField (tag : string) (data : bytes)
  : DataField * option error :=
  let d := mkDataField "" "" tag [] in
  match data with
  | i1 :: i2 :: _ :: rest =>
      (* len(data) > 2; rest is data[3:] *)
      let d := mkDataField (string_of_byte i1) (string_of_byte i2) tag [] in
      makeDataField_loop d (bytes_Split rest st)
  | _ => (d, Some "Invalid Indicators detected")
  end.

(** What one pass of the loop [for len(dirs) >= 12] of [scanIntoRecord]
    does: it goes on with the record extended by a field, or it returns
    the record with an error. *)
Inductive entry_step : Type :=
| Continue (rec : MarcRecord)
| Stop (rec : MarcRecord) (err : error).

(** The body of the loop, up to and excluding [dirs = dirs[12:]]. *)
Definition scanEntry (rec : MarcRecord) (data dirs : bytes)
  : outcome entry_step :=
  t <- slice_to dirs 3 ;;
  let tag := string_of_bytes t in
  l <- slice dirs 3 7 ;;
  match Atoi (string_of_bytes l) with
  | None => Returns (Stop rec "Could not determine length of field")
  | Some length =>
      b <- slice dirs 7 12 ;;
      match Atoi (string_of_bytes b) with
      | None => Returns (Stop rec "Could not determine field start")
      | Some begin =>
          if len data <=? begin + length - 1
          then Returns (Stop rec "Reported field length incorrect")
          else
            (* length includes field terminator *)
            fdata <- slice data begin (begin + length - 1) ;;
            if HasPrefix tag "00"
            then
              Returns
                (Continue
                   (set_Fields rec
                      (Fields rec ++
                         [FControl (mkControlField tag (string_of_bytes fdata))])))
            else
              match makeDataField tag fdata with
              | (_, Some err) => Returns (Stop rec err)
              | (df, None) =>
                  Returns (Continue (set_Fields rec (Fields rec ++ [FData df])))
              end
      end
  end.

(** The loop [for len(dirs) >= 12 { ...; dirs = dirs[12:] }].  The counter
    bounds the number of passes; [scanDirs] starts it at [length dirs],
    which the loop cannot use up since each pass drops twelve bytes. *)
Fixpoint scanDirs_loop (n : nat) (rec : MarcRecord) (data dirs : bytes)
  : outcome (MarcRecord * option error) :=
  match n with
  | O => Returns (rec, None)
  | S n' =>
      if 12 <=? len dirs then
        s <- scanEntry rec data dirs ;;
        match s with
        | Stop rec err => Returns (rec, Some err)
        | Continue rec =>
            rest <- slice_from dirs 12 ;;
            scanDirs_loop n' rec data rest
        end
      else Returns (rec, None)
  end.

Definition scanDirs (rec : MarcRecord) (data dirs : bytes)
  : outcome (MarcRecord * option error) :=
  scanDirs_loop (List.length dirs) rec data dirs.

(** [func (m *MarcIterator) scanIntoRecord(bytes []byte) (Record, error)] *)
Definition scanIntoRecord (b : bytes) : outcome (MarcRecord * option error) :=
  let rec := mkRecord b [] zeroLeader in (* rec.Data = append([]byte(nil), bytes...) *)
  b5 <- index_at b 5 ;;
  b6 <- index_at b 6 ;;
  b7 <- index_at b 7 ;;
  b8 <- index_at b 8 ;;
  b17 <- index_at b 17 ;;
  b18 <- index_at b 18 ;;
  b19 <- index_at b 19 ;;
  let rec := mkRecord (Data rec) (Fields rec) (mkLeader b5 b6 b7 b8 b17 b18 b19) in
  s <- slice b 12 17 ;;
  match Atoi (string_of_bytes s) with
  | None => Returns (rec, Some "Could not determine record start")
  | Some start =>
      data <- slice_from b start ;;
      dirs <- slice b 24 (start - 1) ;;
      scanDirs rec data dirs
  end.

(** ** Accessors *)

(** [for _, x := range l { acc = body(acc, x) }] for a body that may panic. *)
Fixpoint for_range {A S : Type} (l : list A) (acc : S)
    (body : S -> A -> outcome S) : outcome S :=
  match l with
  | [] => Returns acc
  | x :: l' => acc' <- body acc x ;; for_range l' acc' body
  end.

(** [func (r Record) DataField(tag ...string) []DataField] *)
Definition Record_DataField (r : MarcRecord) (tag : list string)
  : list DataField :=
  fold_left
    (fun fields t =>
       fold_left
         (fun fields f =>
            match f with
            | FData field =>
                if String.eqb (df_Tag field) t then fields ++ [field] else fields
            | _ => fields
            end)
         (Fields r) fields)
    tag [].

(** [func (r Record) ControlField(tag ...string) []ControlField] *)
Definition Record_ControlField (r : MarcRecord) (tag : list string)
  : list ControlField :=
  fold_left
    (fun fields t =>
       fold_left
         (fun fields f =>
            match f with
            | FControl field =>
                if String.eqb (cf_Tag field) t then fields ++ [field] else fields
            | _ => fields
            end)
         (Fields r) fields)
    tag [].

(** [func (d DataField) SubField(subfield ...string) []SubField] *)
Definition DataField_SubField (d : DataField) (subfield : list string)
  : list SubField :=
  fold_left
    (fun fields s =>
       fold_left
         (fun fields f =>
            if String.eqb (sf_Code f) s then fields ++ [f] else fields)
         (SubFields d) fields)
    subfield [].

(** [func (d DataField) matches(tag string, ind1 string, ind2 string) bool] *)
Definition DataField_matches (d : DataField) (tag ind1 ind2 : string) : bool :=
  let t := String.eqb (df_Tag d) tag in
  let i1 := String.eqb ind1 "*" || String.eqb (Indicator1 d) ind1 in
  let i2 := String.eqb ind2 "*" || String.eqb (Indicator2 d) ind2 in
  t && i1 && i2.

Section ControlNumber.

(** [strings.TrimSpace] of Go's standard library: it removes the leading
    and trailing Unicode white space of a UTF-8 string. *)
Variable TrimSpace : string -> string.

(** [func (r Record) ControlNum() string] *)
Definition Record_ControlNum (r : MarcRecord) : outcome string :=
  match Record_ControlField r ["001"] with
  | cf :: _ => Returns (TrimSpace (cf_Value cf))
  | [] => Panics IndexOutOfRange
  end.

End ControlNumber.

(** [strings.TrimSpace] on strings of ASCII bytes: the white space is
    tab, line feed, vertical tab, form feed, carriage return and space. *)
Definition asciiSpace (c : ascii) : bool :=
  let n := nat_of_ascii c in
  ((9 <=? n)%nat && (n <=? 13)%nat) || (n =? 32)%nat.

Fixpoint trimLeft (s : bytes) : bytes :=
  match s with
  | c :: s' => if asciiSpace c then trimLeft s' else s
  | [] => []
  end.

Definition asciiTrimSpace (s : string) : string :=
  string_of_bytes (rev (trimLeft (rev (trimLeft (bytes_of_string s))))).

(** ** The filter evaluator *)

Local Open Scope nat_scope.

(** The width of the first UTF-8 sequence of [s], as
    [utf8.DecodeRuneInString] reports it: an invalid or truncated
    sequence has width 1. *)
Definition utf8_width (s : bytes) : nat :=
  let inr (c : ascii) (lo hi : nat) : bool :=
    ((lo <=? nat_of_ascii c) && (nat_of_ascii c <=? hi)) in
  match s with
  | [] => 0
  | s0 :: t =>
      let c0 := nat_of_ascii s0 in
      if (c0 <? 128) then 1
      else if ((c0 <? 194) || (244 <? c0)) then 1
      else
        let sz := if (c0 <? 224) then 2
                  else if (c0 <? 240) then 3 else 4 in
        let lo := if (c0 =? 224) then 160
                  else if (c0 =? 240) then 144 else 128 in
        let hi := if (c0 =? 237) then 159
                  else if (c0 =? 244) then 143 else 191 in
        if (List.length s <? sz) then 1
        else match t with
             | s1 :: t1 =>
                 if negb (inr s1 lo hi) then 1
                 else if (sz <=? 2) then 2
                 else match t1 with
                      | s2 :: t2 =>
                          if negb (inr s2 128 191) then 1
                          else if (sz <=? 3) then 3
                          else match t2 with
                               | s3 :: _ =>
                                   if negb (inr s3 128 191) then 1 else 4
                               | [] => 1
                               end
                      | [] => 1
                      end
             | [] => 1
             end
  end.

Local Close Scope nat_scope.

(** [strings.Split(s, "")]: [s] cut after each UTF-8 sequence, invalid
    bytes one by one.  The counter bounds the number of pieces by the
    number of bytes. *)
Fixpoint explode_loop (n : nat) (s : bytes) : list string :=
  match n with
  | O => []
  | S n' =>
      match s with
      | [] => []
      | _ =>
          let w := utf8_width s in
          string_of_bytes (firstn w s) :: explode_loop n' (skipn w s)
      end
  end.

Definition explode (s : string) : list string :=
  explode_loop (String.length s) (bytes_of_string s).

(** The body of [for _, sf := range l { values = append(values, sf.Value) }]. *)
Definition append_values (values : list string) (l : list SubField)
  : list string :=
  fold_left (fun values sf => values ++ [sf_Value sf]) l values.

(** The indicators and subfield codes of the query [q], as the loop of
    [Filter] reads them for a data field:
    [ind := strings.Index(q, "|")] and the [if ind > -1] that follows. *)
Definition Filter_parts (q : string) : outcome (string * string * string) :=
  let ind := strings_Index q "|" in
  if -1 <? ind
  then
    c1 <- str_index_at q (ind + 1) ;;
    c2 <- str_index_at q (ind + 2) ;;
    subs <- str_slice_from q (ind + 4) ;;
    Returns (string_of_byte c1, string_of_byte c2, subs)
  else
    subs <- str_slice_from q 3 ;;
    Returns ("*", "*", subs).

(** The body of the loop of [Filter] over [r.Fields], for the query [q]
    with [tag = q[:3]]. *)
Definition Filter_field (q tag : string) (res : list (list string))
    (field : Field) : outcome (list (list string)) :=
  let values : list string := [] in
  match field with
  | FControl f =>
      if String.eqb (cf_Tag f) tag
      then let values := values ++ [cf_Value f] in Returns (res ++ [values])
      else Returns res
  | FData f =>
      parts <- Filter_parts q ;;
      let '(ind1, ind2, subs) := parts in
      if DataField_matches f tag ind1 ind2
      then
        let values :=
          if negb (slen subs =? 0)
          then append_values values (DataField_SubField f (explode subs))
          else append_values values (SubFields f) in
        if 0 <? Z.of_nat (List.length values)
        then Returns (res ++ [values])
        else Returns res
      else Returns res
  | FOther => Returns res
  end.

(** [func (r Record) Filter(query ...string) [][]string] *)
Definition Record_Filter (r : MarcRecord) (query : list string)
  : outcome (list (list string)) :=
  for_range query []
    (fun res q =>
       tag <- str_slice q 0 3 ;;
       for_range (Fields r) res (Filter_field q tag)).

(** ** An earlier revision of the filter evaluator

    [splitQuery] belongs to the revision of [marc.go] that keeps the
    fields of a record in a map; there [Filter] calls it once for each
    query. *)

(** [func splitQuery(query string) (string, byte, byte, string)] *)
Definition splitQuery (query : string)
  : outcome (string * ascii * ascii * string) :=
  let star : ascii := "*"%char in
  tag <- str_slice query 0 3 ;;
  let ind := strings_Index query "|" in
  if -1 <? ind
  then
    ind1 <- str_index_at query (ind + 1) ;;
    ind2 <- str_index_at query (ind + 2) ;;
    subs <- str_slice_from query (ind + 4) ;;
    Returns (tag, ind1, ind2, subs)
  else
    subs <- str_slice_from query 3 ;;
    Returns (tag, star, star, subs).

(** [func subfields(data []byte, codes ...string) []SubField], of the
    same revision: the subfields of the chunks of [data] whose code is
    among [codes], or all of them when no code is given; an empty chunk
    is skipped. *)
Fixpoint subfields_codes (sf0 : ascii) (sf1 : bytes) (codes : list string)
    (res : list SubField) : list SubField :=
  match codes with
  | [] => res
  | code :: codes' =>
      if String.eqb (string_of_byte sf0) code
      then res ++ [mkSubField (string_of_byte sf0) (string_of_bytes sf1)] (* break *)
      else subfields_codes sf0 sf1 codes' res
  end.

Definition subfields_chunk (codes : list string) (res : list SubField)
    (sf : bytes) : list SubField :=
  match sf with
  | [] => res (* continue *)
  | sf0 :: sf1 =>
      if 0 <? Z.of_nat (List.length codes)
      then subfields_codes sf0 sf1 codes res
      else res ++ [mkSubField (string_of_byte sf0) (string_of_bytes sf1)]
  end.

Definition subfields (data : bytes) (codes : list string) : list SubField :=
  fold_left (subfields_chunk codes) (bytes_Split data st) [].

(** [func matches(data []byte, ind1 byte, ind2 byte) bool] of the same
    revision: each [||] reads its byte of [data] only for an indicator
    that is not [*]. *)
Definition matches (data : bytes) (ind1 ind2 : ascii) : outcome bool :=
  i1 <- (if Ascii.eqb ind1 "*" then Returns true
         else d0 <- index_at data 0 ;; Returns (Ascii.eqb d0 ind1)) ;;
  i2 <- (if Ascii.eqb ind2 "*" then Returns true
         else d1 <- index_at data 1 ;; Returns (Ascii.eqb d1 ind2)) ;;
  Returns (i1 && i2).

(** The struct [Record] of that revision.  Its map [fields] is read by
    key only, [r.fields[tag]], which is nil for a key that the map does
    not hold: it is a function from tags to the fields stored under
    them, each a copy of the bytes of the field. *)
Record MapRecord : Type := mkMapRecord {
  MLeader : Leader;
  fields : string -> list bytes
}.

(** The body of the loop of [Filter] over [r.fields[tag]] in that
    revision. *)
Definition MapFilter_field (tag : string) (ind1 ind2 : ascii) (subs : string)
    (res : list (list string)) (field : bytes)
  : outcome (list (list string)) :=
  let values : list string := [] in
  values <-
    (if HasPrefix tag "00"
     then Returns (values ++ [string_of_bytes field])
     else
       m <- matches field ind1 ind2 ;;
       if (m : bool)
       then
         f3 <- slice_from field 3 ;;
         Returns (append_values values (subfields f3 (explode subs)))
       else Returns values) ;;
  if 0 <? Z.of_nat (List.length values)
  then Returns (res ++ [values])
  else Returns res.

(** [func (r Record) Filter(query ...string) [][]string] of that
    revision. *)
Definition MapRecord_Filter (r : MapRecord) (query : list string)
  : outcome (list (list string)) :=
  for_range query []
    (fun res q =>
       parts <- splitQuery q ;;
       let '(tag, ind1, ind2, subs) := parts in
       for_range (fields r tag) res (MapFilter_field tag ind1 ind2 subs)).

(** * The framer: [bufio.Scanner] driven by [splitFunc]

    The token that [Scanner.Bytes] returns is a slice of the buffer of the
    scanner, which the next call of [Scan] may overwrite, and
    [scanIntoRecord] copies it into [Record.Data].  This part therefore
    models byte arrays in a store and slices as views of them. *)

(** ** The store *)

Definition loc : Type := nat.

(** The arrays allocated so far; the array at [l] is the [l]-th. *)
Definition store : Type := list bytes.

(** A slice value: its array ([None] for the nil slice), the offset of its
    first byte in the array, and its length. *)
Record slice_t : Type := mkSlice {
  s_arr : option loc;
  s_off : Z;
  s_len : Z
}.

Definition nil_slice : slice_t := mkSlice None 0 0.

Definition is_nil (sl : slice_t) : bool :=
  match s_arr sl with
  | None => true
  | Some _ => false
  end.

Definition array_at (h : store) (l : loc) : bytes := nth l h [].

(** The bytes that a slice shows in the store [h]. *)
Definition load (h : store) (sl : slice_t) : bytes :=
  match s_arr sl with
  | None => []
  | Some l =>
      firstn (Z.to_nat (s_len sl)) (skipn (Z.to_nat (s_off sl)) (array_at h l))
  end.

(** [sl[lo:hi]] for [0 <= lo <= hi <= len(sl)]. *)
Definition subslice (sl : slice_t) (lo hi : Z) : slice_t :=
  mkSlice (s_arr sl) (s_off sl + lo) (hi - lo).

(** A new array. *)
Definition alloc (h : store) (arr : bytes) : store * loc :=
  (h ++ [arr], List.length h).

Fixpoint set_nth {A : Type} (l : list A) (i : nat) (x : A) : list A :=
  match l, i with
  | [], _ => []
  | _ :: l', O => x :: l'
  | y :: l', S i' => y :: set_nth l' i' x
  end.

(** [arr] with [data] written from the offset [off] on, as far as it fits. *)
Definition overwrite (arr : bytes) (off : nat) (data : bytes) : bytes :=
  firstn off arr ++ firstn (List.length arr - off) data ++
  skipn (off + List.length data) arr.

Definition store_write (h : store) (l : loc) (off : Z) (data : bytes) : store :=
  set_nth h l (overwrite (array_at h l) (Z.to_nat off) data).

(** ** [io.Reader] *)

Definition EOF : error := "EOF".
Definition ErrTooLong : error := "bufio.Scanner: token too long".
Definition ErrNegativeAdvance : error :=
  "bufio.Scanner: SplitFunc returns negative advance count".
Definition ErrAdvanceTooFar : error :=
  "bufio.Scanner: SplitFunc returns advance count beyond input".
Definition ErrBadReadCount : error :=
  "bufio.Scanner: Read returned impossible count".
Definition ErrNoProgress : error :=
  "multiple Read calls return no data or error".

(** [Read(p []byte) (n int, err error)]: given the length of [p], a
    reader yields the bytes it puts at the start of [p], whose number is
    [n], and an error or nil; it may yield bytes and [io.EOF] at once. *)
Class Reader (R : Type) : Type :=
  Read : R -> Z -> bytes * option error * R.

(** A reader over a byte string that reports [io.EOF] by a read of its
    own, without bytes, as [os.File] and [strings.Reader] do. *)
Record plainReader : Type := mkPlainReader { plain_rest : bytes }.

#[export] Instance plainReader_Reader : Reader plainReader :=
  fun r n =>
    match plain_rest r with
    | [] => ([], Some EOF, r)
    | rest =>
        (firstn (Z.to_nat n) rest, None,
         mkPlainReader (skipn (Z.to_nat n) rest))
    end.

(** A reader over a byte string that reports [io.EOF] together with its
    last bytes, as [iotest.DataErrReader] does. *)
Record dataErrReader : Type := mkDataErrReader { dataErr_rest : bytes }.

#[export] Instance dataErrReader_Reader : Reader dataErrReader :=
  fun r n =>
    let rest := skipn (Z.to_nat n) (dataErr_rest r) in
    (firstn (Z.to_nat n) (dataErr_rest r),
     match rest with [] => Some EOF | _ => None end,
     mkDataErrReader rest).

(** ** [splitFunc] *)

(** [func splitFunc(data []byte, atEOF bool) (advance int, token []byte, err error)] *)
Definition splitFunc (h : store) (data : slice_t) (atEOF : bool)
  : Z * slice_t * option error :=
  if atEOF && (s_len data =? 0) then (0, nil_slice, None)
  else if atEOF then (s_len data, data, None)
  else
    let i := IndexByte (load h data) rt in
    if 0 <=? i then (i + 1, subslice data 0 i, None)
    else (0, nil_slice, None).

(** ** [bufio.Scanner] *)

Definition MaxScanTokenSize : Z := 64 * 1024.
Definition startBufSize : Z := 4096.
Definition maxConsecutiveEmptyReads : nat := 100.
Definition maxInt : Z := 2 ^ 63 - 1.

(** The fields of the struct [Scanner], but for the reader, whose state
    is passed along, and the split function, which is [splitFunc]. *)
Record Scanner : Type := mkScanner {
  sc_maxTokenSize : Z;
  sc_token : slice_t;
  sc_buf : option loc;
  sc_start : Z;
  sc_end : Z;
  sc_err : option error;
  sc_empties : Z;
  sc_scanCalled : bool;
  sc_done : bool
}.

(** [bufio.NewScanner(r)] followed by [scanner.Split(splitFunc)] *)
Definition NewScanner : Scanner :=
  mkScanner MaxScanTokenSize nil_slice None 0 0 None 0 false false.

Definition with_token (s : Scanner) (t : slice_t) : Scanner :=
  mkScanner (sc_maxTokenSize s) t (sc_buf s) (sc_start s) (sc_end s)
            (sc_err s) (sc_empties s) (sc_scanCalled s) (sc_done s).

Definition with_buf (s : Scanner) (b : option loc) (st en : Z) : Scanner :=
  mkScanner (sc_maxTokenSize s) (sc_token s) b st en
            (sc_err s) (sc_empties s) (sc_scanCalled s) (sc_done s).

Definition with_err (s : Scanner) (e : option error) : Scanner :=
  mkScanner (sc_maxTokenSize s) (sc_token s) (sc_buf s) (sc_start s) (sc_end s)
            e (sc_empties s) (sc_scanCalled s) (sc_done s).

Definition with_empties (s : Scanner) (n : Z) : Scanner :=
  mkScanner (sc_maxTokenSize s) (sc_token s) (sc_buf s) (sc_start s) (sc_end s)
            (sc_err s) n (sc_scanCalled s) (sc_done s).

Definition with_scanCalled (s : Scanner) : Scanner :=
  mkScanner (sc_maxTokenSize s) (sc_token s) (sc_buf s) (sc_start s) (sc_end s)
            (sc_err s) (sc_empties s) true (sc_done s).

(** [func (s *Scanner) setErr(err error)] *)
Definition setErr (s : Scanner) (err : error) : Scanner :=
  match sc_err s with
  | None => with_err s (Some err)
  | Some e => if String.eqb e EOF then with_err s (Some err) else s
  end.

(** [len(s.buf)] *)
Definition buf_len (h : store) (s : Scanner) : Z :=
  match sc_buf s with
  | None => 0
  | Some l => len (array_at h l)
  end.

(** [s.buf[lo:hi]] *)
Definition buf_slice (s : Scanner) (lo hi : Z) : slice_t :=
  match sc_buf s with
  | None => nil_slice
  | Some l => mkSlice (Some l) lo (hi - lo)
  end.

(** [func (s *Scanner) Bytes() []byte] *)
Definition Scanner_Bytes (s : Scanner) : slice_t := sc_token s.

(** [func (s *Scanner) Err() error] *)
Definition Scanner_Err (s : Scanner) : option error :=
  match sc_err s with
  | Some e => if String.eqb e EOF then None else Some e
  | None => None
  end.

Definition ErrFinalToken : error := "final token".

Definition is_some {A : Type} (o : option A) : bool :=
  match o with
  | Some _ => true
  | None => false
  end.

(** The result of a call of [Scan]: it returns a boolean, with a new
    store and state; or it panics for too many empty tokens; or the
    model runs out of passes of its loop. *)
Inductive scan_result (R : Type) : Type :=
| Scanned (ok : bool) (h : store) (s : Scanner) (r : R)
| ScanPanics
| ScanOutOfFuel.

Arguments Scanned {R} ok h s r.
Arguments ScanPanics {R}.
Arguments ScanOutOfFuel {R}.

Section Scan.

Context {R : Type} {reader : Reader R}.

(** The loop [for loop := 0; ; { n, err := s.r.Read(s.buf[s.end:len(s.buf)]) ... }];
    [k] empty reads are left before [io.ErrNoProgress]. *)
Fixpoint read_loop (k : nat) (h : store) (s : Scanner) (r : R)
  : store * Scanner * R :=
  let room := buf_len h s - sc_end s in
  let '(data, err, r') := Read r room in
  let n := len data in
  if room <? n then (h, setErr s ErrBadReadCount, r')
  else
    let h' :=
      match sc_buf s with
      | Some l => store_write h l (sc_end s) data
      | None => h
      end in
    let s' := with_buf s (sc_buf s) (sc_start s) (sc_end s + n) in
    match err with
    | Some e => (h', setErr s' e, r')
    | None =>
        if 0 <? n then (h', with_empties s' 0, r')
        else
          match k with
          | O => (h', setErr s' ErrNoProgress, r')
          | S k' => read_loop k' h' s' r'
          end
    end.

(** "See if we can get a token with what we already have": the result
    of [Scan] if it returns here, or the state to go on with. *)
Definition Scan_split (h : store) (s : Scanner) (r : R)
  : scan_result R + Scanner :=
  if (sc_start s <? sc_end s) || is_some (sc_err s) then
    let '(advance, token, err) :=
      splitFunc h (buf_slice s (sc_start s) (sc_end s)) (is_some (sc_err s)) in
    match err with
    | Some e =>
        if String.eqb e ErrFinalToken
        then
          let s := with_token s token in
          inl (Scanned true h
                 (mkScanner (sc_maxTokenSize s) (sc_token s) (sc_buf s)
                    (sc_start s) (sc_end s) (sc_err s) (sc_empties s)
                    (sc_scanCalled s) true)
                 r)
        else inl (Scanned false h (setErr s e) r)
    | None =>
        (* s.advance(advance) *)
        if advance <? 0
        then inl (Scanned false h (setErr s ErrNegativeAdvance) r)
        else if sc_end s - sc_start s <? advance
        then inl (Scanned false h (setErr s ErrAdvanceTooFar) r)
        else
          let s := with_buf s (sc_buf s) (sc_start s + advance) (sc_end s) in
          let s := with_token s token in
          if negb (is_nil token) then
            if negb (is_some (sc_err s)) || (0 <? advance)
            then inl (Scanned true h (with_empties s 0) r)
            else
              let s := with_empties s (sc_empties s + 1) in
              if Z.of_nat maxConsecutiveEmptyReads <? sc_empties s
              then inl ScanPanics
              else inl (Scanned true h s r)
          else inr s
    end
  else inr s.

(** "First, shift data to beginning of buffer if there's lots of empty
    space or space is needed." *)
Definition Scan_shift (h : store) (s : Scanner) : store * Scanner :=
  if (0 <? sc_start s) &&
     ((sc_end s =? buf_len h s) || (buf_len h s / 2 <? sc_start s))
  then
    let h' :=
      match sc_buf s with
      | Some l =>
          store_write h l 0 (load h (buf_slice s (sc_start s) (sc_end s)))
      | None => h
      end in
    (h', with_buf s (sc_buf s) 0 (sc_end s - sc_start s))
  else (h, s).

(** "Is the buffer full? If so, resize.": [None] when the token is too
    long. *)
Definition Scan_grow (h : store) (s : Scanner) : option (store * Scanner) :=
  if sc_end s =? buf_len h s then
    if (sc_maxTokenSize s <=? buf_len h s) || (maxInt / 2 <? buf_len h s)
    then None
    else
      let newSize := buf_len h s * 2 in
      let newSize := if newSize =? 0 then startBufSize else newSize in
      let newSize :=
        if sc_maxTokenSize s <? newSize then sc_maxTokenSize s else newSize in
      let newBuf :=
        overwrite (repeat zero (Z.to_nat newSize)) 0
          (load h (buf_slice s (sc_start s) (sc_end s))) in
      let '(h', l) := alloc h newBuf in
      Some (h', with_buf s (Some l) 0 (sc_end s - sc_start s))
  else Some (h, s).

(** The loop [for { ... }] of [Scan]; [fuel] bounds its passes. *)
Fixpoint Scan_loop (fuel : nat) (h : store) (s : Scanner) (r : R)
  : scan_result R :=
  match fuel with
  | O => ScanOutOfFuel
  | S fuel' =>
      match Scan_split h s r with
      | inl res => res
      | inr s =>
          match sc_err s with
          | Some _ => Scanned false h (with_buf s (sc_buf s) 0 0) r
          | None =>
              let '(h, s) := Scan_shift h s in
              match Scan_grow h s with
              | None => Scanned false h (setErr s ErrTooLong) r
              | Some (h, s) =>
                  let '(h, s, r) :=
                    read_loop maxConsecutiveEmptyReads h s r in
                  Scan_loop fuel' h s r
              end
          end
      end
  end.

(** [func (s *Scanner) Scan() bool].  Each pass of the loop that does
    not return reads at least one byte into the buffer or records an
    error, and the buffer holds at most [maxTokenSize] bytes. *)
Definition Scan (h : store) (s : Scanner) (r : R) : scan_result R :=
  if sc_done s then Scanned false h s r
  else Scan_loop (Z.to_nat (sc_maxTokenSize s) + 2) h (with_scanCalled s) r.

(** [func (m *MarcIterator) Next() bool] *)
Definition MarcIterator_Next (h : store) (m : Scanner) (r : R)
  : scan_result R :=
  Scan h m r.

(** The contents of the buffers of the first [k] calls of [Next] that
    return true: [for m.Next() { ... m.scanner.Bytes() ... }]. *)
Fixpoint frames (k : nat) (h : store) (m : Scanner) (r : R) : list bytes :=
  match k with
  | O => []
  | S k' =>
      match MarcIterator_Next h m r with
      | Scanned true h' m' r' =>
          load h' (Scanner_Bytes m') :: frames k' h' m' r'
      | _ => []
      end
  end.

End Scan.

(** [func (m *MarcIterator) Value() (Record, error)]:
    [m.scanIntoRecord(m.scanner.Bytes())] in the store [h].  The result
    is the store after [rec.Data = append([]byte(nil), bytes...)], the
    slice [rec.Data], which views a new array, and the record with the
    error; the field [Data] of the record holds the bytes of that slice
    at this moment. *)
Definition MarcIterator_Value (h : store) (m : Scanner)
  : outcome (store * slice_t * (MarcRecord * option error)) :=
  let b := load h (Scanner_Bytes m) in
  let '(h', l) := alloc h b in
  let data := mkSlice (Some l) 0 (len b) in
  res <- scanIntoRecord b ;;
  Returns (h', data, res).

(** [func (m *MarcIterator) Err() error] *)
Definition MarcIterator_Err (m : Scanner) : option error := Scanner_Err m.

(** [func NewMarcIterator(r io.Reader) *MarcIterator] *)
Definition NewMarcIterator : Scanner := NewScanner.

(** [ok := m.Next(); err := m.Err()]: what a call of [Next] returns and
    the error of the iterator after it; [None] if [Next] does not
    return. *)
Definition Next_then_Err {R : Type} {reader : Reader R}
    (h : store) (m : Scanner) (r : R) : option (bool * option error) :=
  match MarcIterator_Next h m r with
  | Scanned ok _ m' _ => Some (ok, MarcIterator_Err m')
  | _ => None
  end.

(** What a program does with an iterator, step by step: it calls [Next],
    or it calls [Value]. *)
Inductive iterator_step {R : Type} {reader : Reader R}
  : store * Scanner * R -> store * Scanner * R -> Prop :=
| step_Next (h : store) (m : Scanner) (r : R) (ok : bool)
    (h' : store) (m' : Scanner) (r' : R) :
    MarcIterator_Next h m r = Scanned ok h' m' r' ->
    iterator_step (h, m, r) (h', m', r')
| step_Value (h : store) (m : Scanner) (r : R)
    (h' : store) (d : slice_t) (res : MarcRecord * option error) :
    MarcIterator_Value h m = Returns (h', d, res) ->
    iterator_step (h, m, r) (h', m, r).

Inductive iterator_steps {R : Type} {reader : Reader R}
  : store * Scanner * R -> store * Scanner * R -> Prop :=
| steps_refl (c : store * Scanner * R) : iterator_steps c c
| steps_cons (c1 c2 c3 : store * Scanner * R) :
    iterator_step c1 c2 -> iterator_steps c2 c3 -> iterator_steps c1 c3.

(** * The command [fml pick] of [cmd/fml/main.go] *)

(** What the action of the command does: it returns an error or nil,
    after it has written bytes to the standard output; or it panics, in
    the decoder or an accessor, or in the scanner; or the model runs out
    of passes of the loop. *)
Inductive action_result : Type :=
| ActionReturns (stdout : bytes) (err : option error)
| ActionPanics (p : panic)
| ActionScanPanics
| ActionOutOfFuel.

Section Pick.

Context {R : Type} {reader : Reader R}.

Variable TrimSpace : string -> string.

(** [for m.Next() { record, _ := m.Value();
      if record.ControlNum() == id { os.Stdout.Write(record.Data); break } }]
    followed by [return nil]. *)
Fixpoint pick_loop (fuel : nat) (id : string) (h : store) (m : Scanner)
    (r : R) : action_result :=
  match fuel with
  | O => ActionOutOfFuel
  | S fuel' =>
      match MarcIterator_Next h m r with
      | Scanned true h1 m1 r1 =>
          match MarcIterator_Value h1 m1 with
          | Panics p => ActionPanics p
          | Returns (h2, data, (record, _)) =>
              match Record_ControlNum TrimSpace record with
              | Panics p => ActionPanics p
              | Returns cn =>
                  if String.eqb cn id
                  then ActionReturns (load h2 data) None
                  else pick_loop fuel' id h2 m1 r1
              end
          end
      | Scanned false _ _ _ => ActionReturns [] None
      | ScanPanics => ActionScanPanics
      | ScanOutOfFuel => ActionOutOfFuel
      end
  end.

(** The action of [pick] with the control number [id]; [opened] is what
    [os.Open] returns for the file, a reader or an error. *)
Definition pick_Action (fuel : nat) (id : string) (opened : R + error)
  : action_result :=
  match opened with
  | inr err => ActionReturns [] (Some err)
  | inl file => pick_loop fuel id [] NewMarcIterator file
  end.

End Pick.

(** The search of [pick] in a list of record buffers: the first buffer
    whose record has the control number [id], if the decoder and
    [ControlNum] return for it and for the buffers before it. *)
Fixpoint pick_in (TrimSpace : string -> string) (id : string)
    (bufs : list bytes) : action_result :=
  match bufs with
  | [] => ActionReturns [] None
  | b :: bufs' =>
      match scanIntoRecord b with
      | Panics p => ActionPanics p
      | Returns (record, _) =>
          match Record_ControlNum TrimSpace record with
          | Panics p => ActionPanics p
          | Returns cn =>
              if String.eqb cn id then ActionReturns b None
              else pick_in TrimSpace id bufs'
          end
      end
  end.

(** * Vocabulary of the statements *)

(** [strings.Contains(s, substr)]: used to say that a message names a tag. *)
Fixpoint Contains (s substr : string) : bool :=
  String.prefix substr s ||
  match s with
  | EmptyString => false
  | String _ s' => Contains s' substr
  end.

(** The leader attributes of a buffer, by byte position. *)
Definition leaderOf (b : bytes) : Leader :=
  mkLeader (nth 5 b zero) (nth 6 b zero) (nth 7 b zero) (nth 8 b zero)
           (nth 17 b zero) (nth 18 b zero) (nth 19 b zero).

(** The control fields of [fields] with tag [t], in record order. *)
Definition control_fields_with (t : string) (fields : list Field)
  : list ControlField :=
  flat_map
    (fun f =>
       match f with
       | FControl cf => if String.eqb (cf_Tag cf) t then [cf] else []
       | _ => []
       end)
    fields.

(** The subfields of [d] with code [c], in field order. *)
Definition subfields_with (c : string) (d : DataField) : list SubField :=
  filter (fun f => String.eqb (sf_Code f) c) (SubFields d).

(** The subfield made from a chunk [c :: v]. *)
Definition subfield_of_chunk (chunk : bytes) : SubField :=
  match chunk with
  | c :: v => mkSubField (string_of_byte c) (string_of_bytes v)
  | [] => mkSubField "" ""
  end.

(** Every subfield of every data field of [rec] has a code. *)
Definition coded (rec : MarcRecord) : Prop :=
  forall d sf,
    In (FData d) (Fields rec) -> In sf (SubFields d) ->
    (1 <= String.length (sf_Code sf))%nat.

(** What [Filter] and [splitQuery] take for granted of a query: at least
    three bytes, and four more positions from the first [|] on. *)
Definition query_ok (q : string) : Prop :=
  3 <= slen q /\
  (0 <= strings_Index q "|" -> strings_Index q "|" + 4 <= slen q).

(** [has_tag t f]: the field [f] is a control or data field with tag [t]. *)
Definition has_tag (t : string) (f : Field) : bool :=
  match f with
  | FControl cf => String.eqb (cf_Tag cf) t
  | FData df => String.eqb (df_Tag df) t
  | FOther => false
  end.

(** The group of values of one field instance, if it has any value. *)
Definition group (values : list string) : list (list string) :=
  match values with
  | [] => []
  | _ => [values]
  end.

(** The values that a data field contributes to a query with the
    subfield codes [subs] and no indicator filter. *)
Definition selected_values (subs : string) (d : DataField) : list string :=
  if negb (slen subs =? 0)
  then map sf_Value (flat_map (fun c => subfields_with c d) (explode subs))
  else map sf_Value (SubFields d).

(** The groups that a field contributes to such a query on [tag]. *)
Definition groups_of (tag subs : string) (f : Field) : list (list string) :=
  match f with
  | FControl cf => if String.eqb (cf_Tag cf) tag then [[cf_Value cf]] else []
  | FData d => if String.eqb (df_Tag d) tag then group (selected_values subs d) else []
  | FOther => []
  end.

(** The buffer of the scanner is an array of the store. *)
Definition buf_allocated (h : store) (m : Scanner) : Prop :=
  forall l, sc_buf m = Some l -> (l < List.length h)%nat.

(** From [(h, m)] to [(h', m')] the store only grows, the buffer of the
    scanner stays an array of the store, and every array that is not the
    buffer of the scanner keeps its bytes and does not become the
    buffer. *)
Definition frame (h : store) (m : Scanner) (h' : store) (m' : Scanner) : Prop :=
  (List.length h <= List.length h')%nat /\
  buf_allocated h' m' /\
  forall p, (p < List.length h)%nat -> sc_buf m <> Some p ->
            array_at h' p = array_at h p /\ sc_buf m' <> Some p.

(** The indices of the scanner lie in its buffer, which is an array of
    the store of at most [maxTokenSize] bytes. *)
Definition scanner_inv (h : store) (s : Scanner) : Prop :=
  buf_allocated h s /\
  0 <= sc_start s /\ sc_start s <= sc_end s /\ sc_end s <= buf_len h s /\
  buf_len h s <= sc_maxTokenSize s.

(** The buffers that the framer is to yield for the stream [input]: the
    chunks between the record terminators, without a last chunk that is
    empty. *)
Definition records (input : bytes) : list bytes :=
  let chunks := bytes_Split input rt in
  match last chunks [] with
  | [] => removelast chunks
  | _ => chunks
  end.

(** A reader of the stream [rest r] that reports the end of the input by
    a read of its own: asked for [n > 0] bytes, it hands out the next
    bytes of the stream, at least one and at most [n], and no error; at
    the end of the stream it hands out no byte and [io.EOF]. *)
Definition eof_apart {R : Type} {reader : Reader R} (rest : R -> bytes) : Prop :=
  forall r n, 0 < n ->
    match rest r with
    | [] => exists r', Read r n = ([], Some EOF, r') /\ rest r' = []
    | _ :: _ =>
        exists data r',
          Read r n = (data, None, r') /\ 0 < len data <= n /\
          rest r = data ++ rest r'
    end.

(** The bytes of the buffer of the scanner that no token has taken yet:
    [s.buf[s.start:s.end]]. *)
Definition pending (h : store) (s : Scanner) : bytes :=
  load h (buf_slice s (sc_start s) (sc_end s)).

(** A scanner that has not seen the end of its input. *)
Definition live (h : store) (s : Scanner) : Prop :=
  scanner_inv h s /\ sc_done s = false /\ sc_err s = None.

(** A scanner at the end of its input, with no bytes left. *)
Definition ended {R : Type} (rest : R -> bytes) (h : store) (s : Scanner)
    (r : R) : Prop :=
  scanner_inv h s /\ sc_done s = false /\ sc_err s = Some EOF /\
  sc_start s = sc_end s /\ rest r = [].

(** The data fields of [fields] with tag [t], in record order. *)
Definition data_fields_with (t : string) (fields : list Field)
  : list DataField :=
  flat_map
    (fun f =>
       match f with
       | FData df => if String.eqb (df_Tag df) t then [df] else []
       | _ => []
       end)
    fields.

(** The bytes [data[begin : begin+length-1]] of a field that lies in the
    data region: the field without its terminator. *)
Definition field_bytes (data : bytes) (length begin : Z) : bytes :=
  firstn (Z.to_nat (length - 1)) (skipn (Z.to_nat begin) data).

(** A directory entry of twelve bytes, the tag [t], the length [l] and
    the start [s], whose numbers parse and whose field lies in the data
    region, and the field it stands for: a control field for a tag that
    begins with [00], a data field that [makeDataField] accepts
    otherwise. *)
Inductive entry_field (data : bytes) : bytes -> Field -> Prop :=
| entry_control (t l s : bytes) (length begin : Z) :
    List.length t = 3%nat -> List.length l = 4%nat ->
    List.length s = 5%nat ->
    Atoi (string_of_bytes l) = Some length ->
    Atoi (string_of_bytes s) = Some begin ->
    0 <= begin -> 1 <= length -> begin + length - 1 < len data ->
    HasPrefix (string_of_bytes t) "00" = true ->
    entry_field data (t ++ l ++ s)
      (FControl
         (mkControlField (string_of_bytes t)
            (string_of_bytes (field_bytes data length begin))))
| entry_data (t l s : bytes) (length begin : Z) (df : DataField) :
    List.length t = 3%nat -> List.length l = 4%nat ->
    List.length s = 5%nat ->
    Atoi (string_of_bytes l) = Some length ->
    Atoi (string_of_bytes s) = Some begin ->
    0 <= begin -> 1 <= length -> begin + length - 1 < len data ->
    HasPrefix (string_of_bytes t) "00" = false ->
    makeDataField (string_of_bytes t) (field_bytes data length begin) =
    (df, None) ->
    entry_field data (t ++ l ++ s) (FData df).

(** A directory entry of twelve bytes at which the decoder stops, and
    the error it stops with. *)
Inductive entry_error (data : bytes) : bytes -> error -> Prop :=
| error_length (t l s : bytes) :
    List.length t = 3%nat -> List.length l = 4%nat ->
    List.length s = 5%nat ->
    Atoi (string_of_bytes l) = None ->
    entry_error data (t ++ l ++ s) "Could not determine length of field"
| error_start (t l s : bytes) (length : Z) :
    List.length t = 3%nat -> List.length l = 4%nat ->
    List.length s = 5%nat ->
    Atoi (string_of_bytes l) = Some length ->
    Atoi (string_of_bytes s) = None ->
    entry_error data (t ++ l ++ s) "Could not determine field start"
| error_bounds (t l s : bytes) (length begin : Z) :
    List.length t = 3%nat -> List.length l = 4%nat ->
    List.length s = 5%nat ->
    Atoi (string_of_bytes l) = Some length ->
    Atoi (string_of_bytes s) = Some begin ->
    len data <= begin + length - 1 ->
    entry_error data (t ++ l ++ s) "Reported field length incorrect"
| error_field (t l s : bytes) (length begin : Z) (df : DataField)
    (err : error) :
    List.length t = 3%nat -> List.length l = 4%nat ->
    List.length s = 5%nat ->
    Atoi (string_of_bytes l) = Some length ->
    Atoi (string_of_bytes s) = Some begin ->
    0 <= begin -> 1 <= length -> begin + length - 1 < len data ->
    HasPrefix (string_of_bytes t) "00" = false ->
    makeDataField (string_of_bytes t) (field_bytes data length begin) =
    (df, Some err) ->
    entry_error data (t ++ l ++ s) err.

(** What holds of a field that the decoder has made: it is a control
    field or a data field; its tag has three bytes, which begin with
    [00] for a control field and for no data field; a data field has
    at least one subfield, and indicators of one or two bytes. *)
Definition decoded_field (f : Field) : Prop :=
  match f with
  | FControl cf =>
      String.length (cf_Tag cf) = 3%nat /\ HasPrefix (cf_Tag cf) "00" = true
  | FData d =>
      String.length (df_Tag d) = 3%nat /\ HasPrefix (df_Tag d) "00" = false /\
      SubFields d <> [] /\
      (1 <= String.length (Indicator1 d) <= 2)%nat /\
      (1 <= String.length (Indicator2 d) <= 2)%nat
  | FOther => False
  end.

(** The messages of the errors of the decoder. *)
Definition decoder_errors : list error :=
  ["Could not determine record start";
   "Could not determine length of field";
   "Could not determine field start";
   "Reported field length incorrect";
   "Invalid Indicators detected";
   "Extraneous field terminator"].

(** The groups that a field contributes to a query with the tag [tag],
    the indicators [ind1] and [ind2], where [*] stands for any
    indicator, and the subfield codes [subs]. *)
Definition groups_sel (tag ind1 ind2 subs : string) (f : Field)
  : list (list string) :=
  match f with
  | FControl cf => if String.eqb (cf_Tag cf) tag then [[cf_Value cf]] else []
  | FData d =>
      if String.eqb (df_Tag d) tag &&
         (String.eqb ind1 "*" || String.eqb (Indicator1 d) ind1) &&
         (String.eqb ind2 "*" || String.eqb (Indicator2 d) ind2)
      then group (selected_values subs d)
      else []
  | FOther => []
  end.

(** A record without data fields. *)
Definition no_data_field (r : MarcRecord) : Prop :=
  forall d, ~ In (FData d) (Fields r).

(** The scanner has not seen the end of its input, and the bytes that it
    has not yet made tokens of, those left in its buffer followed by the
    rest of the stream, are the records [bufs], each shorter than
    [bufio.MaxScanTokenSize] and followed by its terminator, and then
    the bytes [tail]. *)
Definition yields {R : Type} {reader : Reader R} (rest : R -> bytes)
    (h : store) (s : Scanner) (r : R) (bufs : list bytes) (tail : bytes)
  : Prop :=
  live h s /\ sc_maxTokenSize s = MaxScanTokenSize /\
  (forall b, In b bufs -> ~ In rt b /\ len b < MaxScanTokenSize) /\
  pending h s ++ rest r = flat_map (fun b => b ++ [rt]) bufs ++ tail.

(** [k] calls of [Next] in a row: the booleans that they return and
    [m.Err()] after the last of them; [None] if one of the calls does
    not return. *)
Fixpoint Next_calls {R : Type} {reader : Reader R} (k : nat) (h : store)
    (m : Scanner) (r : R) : option (list bool * option error) :=
  match k with
  | O => Some ([], MarcIterator_Err m)
  | S k' =>
      match MarcIterator_Next h m r with
      | Scanned ok h' m' r' =>
          match Next_calls k' h' m' r' with
          | Some (oks, e) => Some (ok :: oks, e)
          | None => None
          end
      | _ => None
      end
  end.

(** * Sample data *)

(** A record buffer with a control field [001], a data field [245] and
    two data fields [650], and the record it decodes to. *)
Definition ft : ascii := "030"%char. (* 0x1e, end of field *)

Definition sample_buffer : bytes :=
  bytes_of_string "00156cam  2200073 a 4500" ++
  bytes_of_string "001001100000" ++
  bytes_of_string "245002100011" ++
  bytes_of_string "650002900032" ++
  bytes_of_string "650002200061" ++ [ft] ++
  bytes_of_string "  92005291" ++ [ft] ++
  bytes_of_string "10" ++ [st] ++ bytes_of_string "aTitle /" ++ [st] ++
  bytes_of_string "cAuthor." ++ [ft] ++
  bytes_of_string " 0" ++ [st] ++ bytes_of_string "aPoetry" ++ [st] ++
  bytes_of_string "xJuvenile poetry." ++ [ft] ++
  bytes_of_string " 1" ++ [st] ++ bytes_of_string "aChildren" ++ [st] ++
  bytes_of_string "xPoetry." ++ [ft].

Definition sample_001 : ControlField := mkControlField "001" "  92005291".

Definition sample_245 : DataField :=
  mkDataField "1" "0" "245"
    [mkSubField "a" "Title /"; mkSubField "c" "Author."].

Definition sample_650_0 : DataField :=
  mkDataField " " "0" "650"
    [mkSubField "a" "Poetry"; mkSubField "x" "Juvenile poetry."].

Definition sample_650_1 : DataField :=
  mkDataField " " "1" "650"
    [mkSubField "a" "Children"; mkSubField "x" "Poetry."].

Definition sample_record : MarcRecord :=
  mkRecord sample_buffer
    [FControl sample_001; FData sample_245;
     FData sample_650_0; FData sample_650_1]
    (mkLeader "c" "a" "m" " " " " "a" " ").

(** The sample record, followed by the record terminator, as a stream. *)
Definition sample_stream : plainReader :=
  mkPlainReader (sample_buffer ++ [rt]).

(** A record without fields. *)
Definition empty_record : MarcRecord := mkRecord [] [] zeroLeader.

(** The entry [650 0099 00000] over a data region of three bytes. *)
Definition oob_entry : bytes := bytes_of_string "650009900000".

Definition oob_data : bytes := bytes_of_string "abc".

(** A buffer of one byte, such as a line feed left after the last record
    terminator of a file. *)
Definition one_byte_buffer : bytes := ["010"%char].

(** A leader alone, with the base address 24 of a record without
    directory. *)
Definition leader_only_buffer : bytes := bytes_of_string "00024cam  2200024 a 4500".

(** A record of 26 bytes: a leader with base address 26, a directory span
    of the single byte [x], a field terminator, and no data. *)
Definition dangling_buffer : bytes :=
  bytes_of_string "00026cam  2200026 a 4500" ++ bytes_of_string "x" ++ ["030"%char].

(** A data field with the subfields [b] and [a], in this order. *)
Definition field_b_a : DataField :=
  mkDataField " " " " "260" [mkSubField "b" "1"; mkSubField "a" "2"].

(** The content of a data field with an empty chunk between two
    delimiters, and the content of the field [650] of the sample. *)
Definition content_empty_chunk : bytes :=
  bytes_of_string " 0" ++ [st] ++ bytes_of_string "aPoetry" ++ [st; st] ++
  bytes_of_string "xPoetry.".

Definition content_650 : bytes :=
  bytes_of_string " 0" ++ [st] ++ bytes_of_string "aPoetry" ++ [st] ++
  bytes_of_string "xJuvenile poetry.".

(** The streams of two records [A] and [B], each with its terminator. *)
Definition two_records : bytes :=
  bytes_of_string "A" ++ [rt] ++ bytes_of_string "B" ++ [rt].

(** A record of [bufio.MaxScanTokenSize] bytes, 64 KiB. *)
Definition long_record : bytes :=
  repeat "a"%char (Z.to_nat MaxScanTokenSize).


(** A record whose second entry, [650 0099 00000], reaches beyond its
    data region, and whose third entry has no numbers. *)
Definition faulty_entry_buffer : bytes :=
  bytes_of_string "00000cam  2200061 a 4500" ++
  bytes_of_string "001001100000" ++
  bytes_of_string "650009900000" ++
  bytes_of_string "245abcdefghi" ++ [ft] ++
  bytes_of_string "  92005291" ++ [ft].

(** A record whose second entry, [650 0000 00003], has the length 0. *)
Definition empty_field_buffer : bytes :=
  bytes_of_string "00000cam  2200049 a 4500" ++
  bytes_of_string "001001100000" ++
  bytes_of_string "650000000003" ++ [ft] ++
  bytes_of_string "  92005291" ++ [ft].

(** A leader whose base address is not a number. *)
Definition no_base_address_buffer : bytes :=
  bytes_of_string "00024cam  22000xx a 4500".

(** The content of a data field whose second indicator and whose
    subfield code are the byte 0xE9. *)
Definition content_high_bytes : bytes :=
  [" "%char; "233"%char; st; "233"%char; "t"%char].

(** A record with the control field of the sample and no other field. *)
Definition control_only_record : MarcRecord :=
  mkRecord [] [FControl sample_001] zeroLeader.

(** A record with the control field [001] of value [ocm12345] alone, and
    a file of this record and the sample record, each followed by the
    record terminator, and of a line feed after the last terminator. *)
Definition small_buffer : bytes :=
  bytes_of_string "00046nam  2200037 a 4500" ++
  bytes_of_string "001000900000" ++ [ft] ++
  bytes_of_string "ocm12345" ++ [ft].

Definition sample_file : plainReader :=
  mkPlainReader (small_buffer ++ [rt] ++ sample_buffer ++ [rt] ++ ["010"%char]).


Definition sample_map_record : MapRecord :=
  mkMapRecord zeroLeader
    (fun tag =>
       if String.eqb tag "650"
       then [content_650;
             bytes_of_string " 1" ++ [st] ++ bytes_of_string "aChildren" ++
             [st] ++ bytes_of_string "xPoetry."]
       else []).

(** A record of that revision whose field [650] has two bytes only. *)
Definition short_map_record : MapRecord :=
  mkMapRecord zeroLeader
    (fun tag => if String.eqb tag "650" then [bytes_of_string " 0"] else []).

(** * Properties *)

(** ** Slices *)

Lemma len_nonneg (b : bytes) : 0 <= len b.
Proof. unfold len. lia. Qed.

Lemma len_app (a b : bytes) : len (a ++ b) = len a + len b.
Proof. unfold len. rewrite length_app. lia. Qed.

Lemma slice_in_range (b : bytes) (lo hi : Z) :
  0 <= lo -> lo <= hi -> hi <= len b ->
  slice b lo hi = Returns (firstn (Z.to_nat (hi - lo)) (skipn (Z.to_nat lo) b)).
Proof.
  intros H1 H2 H3. unfold slice.
  replace (0 <=? lo) with true by (symmetry; apply Z.leb_le; lia).
  replace (lo <=? hi) with true by (symmetry; apply Z.leb_le; lia).
  replace (hi <=? len b) with true by (symmetry; apply Z.leb_le; lia).
  reflexivity.
Qed.

Lemma slice_out_of_range (b : bytes) (lo hi : Z) :
  lo < 0 \/ hi < lo \/ len b < hi ->
  slice b lo hi = Panics SliceBoundsOutOfRange.
Proof.
  intros H. unfold slice.
  destruct (0 <=? lo) eqn:E1; [|reflexivity].
  destruct (lo <=? hi) eqn:E2; [|reflexivity].
  destruct (hi <=? len b) eqn:E3; [|reflexivity].
  apply Z.leb_le in E1, E2, E3. lia.
Qed.

Lemma slice_from_in_range (b : bytes) (lo : Z) :
  0 <= lo -> lo <= len b ->
  slice_from b lo = Returns (skipn (Z.to_nat lo) b).
Proof.
  intros H1 H2. unfold slice_from. rewrite slice_in_range by lia.
  f_equal. apply firstn_all2. rewrite length_skipn. unfold len in *. lia.
Qed.

Lemma index_at_short (b : bytes) (i : Z) :
  len b <= i -> index_at b i = Panics IndexOutOfRange.
Proof.
  intros H. unfold index_at.
  destruct (0 <=? i); simpl; [|reflexivity].
  replace (i <? len b) with false by (symmetry; apply Z.ltb_ge; lia).
  reflexivity.
Qed.

Lemma index_at_in_range (b : bytes) (i : Z) :
  0 <= i < len b -> exists c, index_at b i = Returns c.
Proof.
  intros H. unfold index_at.
  replace (0 <=? i) with true by (symmetry; apply Z.leb_le; lia).
  replace (i <? len b) with true by (symmetry; apply Z.ltb_lt; lia).
  simpl. destruct (nth_error b (Z.to_nat i)) eqn:E; [eauto|].
  apply nth_error_None in E. unfold len in H. lia.
Qed.

Lemma firstn_app_exact {A : Type} (a b : list A) {n : nat} :
  List.length a = n -> firstn n (a ++ b) = a.
Proof.
  intros <-. rewrite firstn_app, Nat.sub_diag, firstn_all. simpl.
  apply app_nil_r.
Qed.

Lemma skipn_app_exact {A : Type} (a b : list A) {n : nat} :
  List.length a = n -> skipn n (a ++ b) = b.
Proof.
  intros <-. rewrite skipn_app, Nat.sub_diag, skipn_all. reflexivity.
Qed.

(** The three columns of a directory entry, read by the slice
  expressions [dirs[:3]], [dirs[3:7]] and [dirs[7:12]]. *)
Section DirectoryEntry.

Variables t l s more : bytes.
Hypothesis Ht : List.length t = 3%nat.
Hypothesis Hl : List.length l = 4%nat.
Hypothesis Hs : List.length s = 5%nat.

Let dirs : bytes := t ++ l ++ s ++ more.

Lemma entry_len : 12 <= len dirs.
Proof using Ht Hl Hs.
  unfold dirs, len. rewrite !length_app. lia.
Qed.

Lemma entry_tag : slice_to dirs 3 = Returns t.
Proof using Ht Hl Hs.
  unfold slice_to. rewrite slice_in_range; try lia.
  - simpl skipn. change (Z.to_nat (3 - 0)) with 3%nat.
    unfold dirs. now rewrite (firstn_app_exact t _ Ht).
  - pose proof entry_len. lia.
Qed.

Lemma entry_length : slice dirs 3 7 = Returns l.
Proof using Ht Hl Hs.
  rewrite slice_in_range; try lia.
  - change (Z.to_nat (7 - 3)) with 4%nat. change (Z.to_nat 3) with 3%nat.
    unfold dirs.
    now rewrite (skipn_app_exact t _ Ht), (firstn_app_exact l _ Hl).
  - pose proof entry_len. lia.
Qed.

Lemma entry_start : slice dirs 7 12 = Returns s.
Proof using Ht Hl Hs.
  assert (Htl : List.length (t ++ l) = 7%nat) by (rewrite length_app; lia).
  rewrite slice_in_range; try lia.
  - change (Z.to_nat (12 - 7)) with 5%nat. change (Z.to_nat 7) with 7%nat.
    unfold dirs. rewrite app_assoc.
    now rewrite (skipn_app_exact (t ++ l) _ Htl), (firstn_app_exact s _ Hs).
  - pose proof entry_len. lia.
Qed.

Lemma entry_rest : slice_from dirs 12 = Returns more.
Proof using Ht Hl Hs.
  assert (Htls : List.length (t ++ l ++ s) = 12%nat)
    by (rewrite !length_app; lia).
  rewrite slice_from_in_range; try lia.
  - change (Z.to_nat 12) with 12%nat. unfold dirs.
    replace (t ++ l ++ s ++ more) with ((t ++ l ++ s) ++ more)
      by now rewrite <- !app_assoc.
    now rewrite (skipn_app_exact (t ++ l ++ s) _ Htls).
  - pose proof entry_len. lia.
Qed.

End DirectoryEntry.

Lemma entry_decompose (dirs : bytes) :
  12 <= len dirs ->
  exists t l s more,
    dirs = t ++ l ++ s ++ more /\
    List.length t = 3%nat /\ List.length l = 4%nat /\ List.length s = 5%nat.
Proof.
  intros H. unfold len in H.
  exists (firstn 3 dirs), (firstn 4 (skipn 3 dirs)),
    (firstn 5 (skipn 7 dirs)), (skipn 12 dirs).
  repeat split.
  - rewrite <- (firstn_skipn 3 dirs) at 1. f_equal.
    rewrite <- (firstn_skipn 4 (skipn 3 dirs)) at 1. f_equal.
    rewrite skipn_skipn. simpl Nat.add.
    rewrite <- (firstn_skipn 5 (skipn 7 dirs)) at 1. f_equal.
    now rewrite skipn_skipn.
  - rewrite length_firstn. lia.
  - rewrite length_firstn, length_skipn. lia.
  - rewrite length_firstn, length_skipn. lia.
Qed.

(** ** The bounds check of a directory entry *)

Section EntryBounds.

Variables (rec : MarcRecord) (data t l s more : bytes) (length begin : Z).
Hypothesis Ht : List.length t = 3%nat.
Hypothesis Hl : List.length l = 4%nat.
Hypothesis Hs : List.length s = 5%nat.
Hypothesis Hlength : Atoi (string_of_bytes l) = Some length.
Hypothesis Hbegin : Atoi (string_of_bytes s) = Some begin.

Lemma scanEntry_parsed :
  scanEntry rec data (t ++ l ++ s ++ more) =
  if len data <=? begin + length - 1
  then Returns (Stop rec "Reported field length incorrect")
  else
    fdata <- slice data begin (begin + length - 1) ;;
    if HasPrefix (string_of_bytes t) "00"
    then
      Returns
        (Continue
           (set_Fields rec
              (Fields rec ++
                 [FControl (mkControlField (string_of_bytes t)
                              (string_of_bytes fdata))])))
    else
      match makeDataField (string_of_bytes t) fdata with
      | (_, Some err) => Returns (Stop rec err)
      | (df, None) =>
          Returns (Continue (set_Fields rec (Fields rec ++ [FData df])))
      end.
Proof using Ht Hl Hs Hlength Hbegin.
  unfold scanEntry.
  rewrite (entry_tag t l s more Ht Hl Hs). cbn [bind].
  rewrite (entry_length t l s more Ht Hl Hs). cbn [bind].
  rewrite Hlength.
  rewrite (entry_start t l s more Ht Hl Hs). cbn [bind].
  rewrite Hbegin. reflexivity.
Qed.

Lemma scanEntry_out_of_bounds :
  len data <= begin + length - 1 ->
  scanEntry rec data (t ++ l ++ s ++ more) =
  Returns (Stop rec "Reported field length incorrect").
Proof using Ht Hl Hs Hlength Hbegin.
  intros H. rewrite scanEntry_parsed.
  replace (len data <=? begin + length - 1) with true
    by (symmetry; apply Z.leb_le; lia).
  reflexivity.
Qed.

Lemma scanEntry_continue_in_bounds (rec' : MarcRecord) :
  scanEntry rec data (t ++ l ++ s ++ more) = Returns (Continue rec') ->
  begin + length - 1 < len data.
Proof using Ht Hl Hs Hlength Hbegin.
  rewrite scanEntry_parsed.
  destruct (len data <=? begin + length - 1) eqn:E.
  - discriminate.
  - intros _. apply Z.leb_gt in E. lia.
Qed.

End EntryBounds.

(** C1 (as amended). For a directory entry whose length and start columns
    parse to [length] and [begin], the loop body goes on to the next entry
    only if [begin + length - 1 < len(data)], hence only if
    [begin + length - 1 <= len(data)]; and whenever
    [len(data) <= begin + length - 1] it returns, without slicing [data]
    and without a panic, the record read so far together with the error
    [Reported field length incorrect], a fixed message that is the same
    for every tag. *)
Theorem C1_entry_bounds_checked
    (rec : MarcRecord) (data t l s more : bytes) (length begin : Z) :
  List.length t = 3%nat -> List.length l = 4%nat -> List.length s = 5%nat ->
  Atoi (string_of_bytes l) = Some length ->
  Atoi (string_of_bytes s) = Some begin ->
  (forall rec',
      scanEntry rec data (t ++ l ++ s ++ more) = Returns (Continue rec') ->
      begin + length - 1 < len data /\ begin + length - 1 <= len data) /\
  (len data < begin + length - 1 ->
   scanEntry rec data (t ++ l ++ s ++ more) =
   Returns (Stop rec "Reported field length incorrect")).
Proof.
  intros Ht Hl Hs Hlength Hbegin. split.
  - intros rec' H.
    assert (begin + length - 1 < len data)
      by (eapply scanEntry_continue_in_bounds; eassumption).
    lia.
  - intros H.
    apply scanEntry_out_of_bounds with (length := length) (begin := begin);
      trivial.
    lia.
Qed.

Lemma C1_entry_bounds_checked_witness :
  scanEntry empty_record oob_data oob_entry =
  Returns (Stop empty_record "Reported field length incorrect").
Proof.
  refine (proj2 (@C1_entry_bounds_checked empty_record oob_data
                   (bytes_of_string "650") (bytes_of_string "0099")
                   (bytes_of_string "00000") [] 99 0 _ _ _ _ _) _);
    reflexivity.
Defined.

(** C1 (as stated) fails: the entry [650 0099 00000] violates the bound,
    and the error returned for it does not name the tag [650]. *)
Lemma C1_error_does_not_name_tag :
  ~ (exists msg,
        scanEntry empty_record oob_data oob_entry =
        Returns (Stop empty_record msg) /\
        Contains msg "650" = true).
Proof.
  intros [msg [H Hc]]. vm_compute in H.
  injection H as <-. vm_compute in Hc. discriminate.
Qed.

(** ** Buffers too short for a leader, and base addresses out of range *)

Lemma scanIntoRecord_short (b : bytes) :
  len b < 20 -> scanIntoRecord b = Panics IndexOutOfRange.
Proof.
  intros H. unfold scanIntoRecord.
  destruct (Z_lt_le_dec 5 (len b)) as [H5|H5];
    [|now rewrite (index_at_short b 5) by lia].
  destruct (index_at_in_range b 5) as [c5 ->]; [lia|]. cbn [bind].
  destruct (Z_lt_le_dec 6 (len b)) as [H6|H6];
    [|now rewrite (index_at_short b 6) by lia].
  destruct (index_at_in_range b 6) as [c6 ->]; [lia|]. cbn [bind].
  destruct (Z_lt_le_dec 7 (len b)) as [H7|H7];
    [|now rewrite (index_at_short b 7) by lia].
  destruct (index_at_in_range b 7) as [c7 ->]; [lia|]. cbn [bind].
  destruct (Z_lt_le_dec 8 (len b)) as [H8|H8];
    [|now rewrite (index_at_short b 8) by lia].
  destruct (index_at_in_range b 8) as [c8 ->]; [lia|]. cbn [bind].
  destruct (Z_lt_le_dec 17 (len b)) as [H17|H17];
    [|now rewrite (index_at_short b 17) by lia].
  destruct (index_at_in_range b 17) as [c17 ->]; [lia|]. cbn [bind].
  destruct (Z_lt_le_dec 18 (len b)) as [H18|H18];
    [|now rewrite (index_at_short b 18) by lia].
  destruct (index_at_in_range b 18) as [c18 ->]; [lia|]. cbn [bind].
  now rewrite (index_at_short b 19) by lia.
Qed.

(** C2. The decoder run on a buffer shorter than a leader, and on a
    24-byte buffer whose base address leaves no room for the directory:
    both runs end in a run-time panic, not in a returned error. *)
Theorem C2_short_buffer_panics :
  scanIntoRecord one_byte_buffer = Panics IndexOutOfRange /\
  scanIntoRecord leader_only_buffer = Panics SliceBoundsOutOfRange.
Proof. split; reflexivity. Qed.

(** ** The directory loop *)

Lemma scanDirs_loop_short (n : nat) (rec : MarcRecord) (data dirs : bytes) :
  len dirs < 12 -> scanDirs_loop n rec data dirs = Returns (rec, None).
Proof.
  intros H. destruct n; [reflexivity|]. simpl.
  replace (12 <=? len dirs) with false by (symmetry; apply Z.leb_gt; lia).
  reflexivity.
Qed.

Lemma scanEntry_prefix (rec : MarcRecord) (data e more : bytes) :
  List.length e = 12%nat ->
  scanEntry rec data (e ++ more) = scanEntry rec data e.
Proof.
  intros He.
  destruct (entry_decompose e) as (t & l & s & m & -> & Ht & Hl & Hs);
    [unfold len; lia|].
  rewrite <- !app_assoc. unfold scanEntry.
  rewrite !(entry_tag t l s _ Ht Hl Hs).
  rewrite !(entry_length t l s _ Ht Hl Hs).
  rewrite !(entry_start t l s _ Ht Hl Hs).
  reflexivity.
Qed.

Lemma scanDirs_loop_app (k : nat) :
  forall (n m : nat) (rec : MarcRecord) (data whole rest : bytes),
    List.length whole = (12 * k)%nat ->
    (List.length rest < 12)%nat ->
    (List.length (whole ++ rest) <= n)%nat ->
    (List.length whole <= m)%nat ->
    scanDirs_loop n rec data (whole ++ rest) = scanDirs_loop m rec data whole.
Proof.
  induction k as [|k IH]; intros n m rec data whole rest Hw Hr Hn Hm.
  - destruct whole; [|discriminate]. simpl app.
    rewrite !scanDirs_loop_short; trivial; unfold len; simpl; lia.
  - rewrite length_app in Hn.
    destruct n as [|n]; [lia|].
    destruct m as [|m]; [lia|].
    assert (He : List.length (firstn 12 whole) = 12%nat)
      by (rewrite length_firstn; lia).
    assert (Hw' : List.length (skipn 12 whole) = (12 * k)%nat)
      by (rewrite length_skipn; lia).
    rewrite <- (firstn_skipn 12 whole).
    set (e := firstn 12 whole) in *. set (w := skipn 12 whole) in *.
    destruct (entry_decompose e) as (t & l & s & x & Ee & Ht & Hl & Hs);
      [unfold len; lia|].
    assert (x = []) as ->.
    { apply length_zero_iff_nil. rewrite Ee, !length_app in He. lia. }
    cbn [scanDirs_loop].
    replace (12 <=? len ((e ++ w) ++ rest)) with true
      by (symmetry; apply Z.leb_le; unfold len; rewrite !length_app; lia).
    replace (12 <=? len (e ++ w)) with true
      by (symmetry; apply Z.leb_le; unfold len; rewrite !length_app; lia).
    rewrite <- app_assoc, !scanEntry_prefix by trivial.
    destruct (scanEntry rec data e) as [[rec'|rec' err]|p]; cbn [bind];
      try reflexivity.
    rewrite Ee, app_nil_r, <- !app_assoc.
    rewrite !(entry_rest t l s _ Ht Hl Hs). cbn [bind].
    apply IH; trivial.
    + rewrite length_app. lia.
    + lia.
Qed.

(** The directory loop does not depend on the bound of its counter. *)
Lemma scanDirs_loop_enough (n : nat) (rec : MarcRecord) (data dirs : bytes) :
  (List.length dirs <= n)%nat ->
  scanDirs_loop n rec data dirs = scanDirs rec data dirs.
Proof.
  intros H. unfold scanDirs.
  set (k := (List.length dirs / 12)%nat).
  rewrite <- (firstn_skipn (12 * k) dirs) in *.
  assert (Hk : (12 * k <= List.length dirs)%nat)
    by (unfold k; apply Nat.Div0.mul_div_le).
  assert (Hlt : (List.length dirs < 12 * k + 12)%nat).
  { unfold k. pose proof (Nat.div_mod_eq (List.length dirs) 12).
    pose proof (Nat.mod_upper_bound (List.length dirs) 12). lia. }
  assert (Hw : List.length (firstn (12 * k) dirs) = (12 * k)%nat)
    by (rewrite length_firstn; lia).
  assert (Hr : (List.length (skipn (12 * k) dirs) < 12)%nat)
    by (rewrite length_skipn; lia).
  rewrite (scanDirs_loop_app k n (12 * k) rec data _ _ Hw Hr H) by lia.
  symmetry. apply scanDirs_loop_app with (k := k); trivial; lia.
Qed.

(** The equation of the loop. *)
Lemma scanDirs_unfold (rec : MarcRecord) (data dirs : bytes) :
  scanDirs rec data dirs =
  if 12 <=? len dirs then
    s <- scanEntry rec data dirs ;;
    match s with
    | Stop rec err => Returns (rec, Some err)
    | Continue rec => rest <- slice_from dirs 12 ;; scanDirs rec data rest
    end
  else Returns (rec, None).
Proof.
  destruct (12 <=? len dirs) eqn:E.
  - apply Z.leb_le in E. unfold scanDirs at 1.
    destruct (List.length dirs) as [|n] eqn:En; [unfold len in E; lia|].
    cbn [scanDirs_loop]. replace (12 <=? len dirs) with true
      by (symmetry; apply Z.leb_le; lia).
    destruct (scanEntry rec data dirs) as [[rec'|rec' err]|p]; cbn [bind];
      try reflexivity.
    rewrite slice_from_in_range by lia. cbn [bind].
    apply scanDirs_loop_enough. rewrite length_skipn. lia.
  - apply Z.leb_gt in E. unfold scanDirs. now apply scanDirs_loop_short.
Qed.

Lemma index_at_nth (b : bytes) (i : Z) :
  0 <= i < len b -> index_at b i = Returns (nth (Z.to_nat i) b zero).
Proof.
  intros H. unfold index_at.
  replace (0 <=? i) with true by (symmetry; apply Z.leb_le; lia).
  replace (i <? len b) with true by (symmetry; apply Z.ltb_lt; lia).
  simpl. destruct (nth_error b (Z.to_nat i)) eqn:E.
  - now rewrite (nth_error_nth _ _ zero E).
  - apply nth_error_None in E. unfold len in H. lia.
Qed.

(** With a leader of at least twenty bytes, a base address that parses
    and a directory span that lies in the buffer, the decoder runs the
    directory loop on [bytes[24 : start-1]] over [bytes[start:]]. *)
Lemma scanIntoRecord_dirs (b : bytes) (start : Z) :
  20 <= len b ->
  Atoi (string_of_bytes (firstn 5 (skipn 12 b))) = Some start ->
  25 <= start <= len b ->
  scanIntoRecord b =
  scanDirs (mkRecord b [] (leaderOf b))
           (skipn (Z.to_nat start) b)
           (firstn (Z.to_nat (start - 1 - 24)) (skipn 24 b)).
Proof.
  intros Hlen Hstart Hrange. unfold scanIntoRecord.
  rewrite !index_at_nth by lia. cbn [bind].
  rewrite slice_in_range by lia. cbn [bind].
  change (Z.to_nat (17 - 12)) with 5%nat. change (Z.to_nat 12) with 12%nat.
  rewrite Hstart.
  rewrite slice_from_in_range by lia. cbn [bind].
  rewrite slice_in_range by lia. cbn [bind].
  reflexivity.
Qed.

(** ** Dangling partial directory entries *)

Lemma scanDirs_whole_entries (rec : MarcRecord) (data dirs : bytes) :
  scanDirs rec data dirs =
  scanDirs rec data (firstn (12 * (List.length dirs / 12)) dirs).
Proof.
  set (k := (List.length dirs / 12)%nat).
  assert (Hk : (12 * k <= List.length dirs)%nat)
    by (unfold k; apply Nat.Div0.mul_div_le).
  assert (Hlt : (List.length dirs < 12 * k + 12)%nat).
  { unfold k. pose proof (Nat.div_mod_eq (List.length dirs) 12).
    pose proof (Nat.mod_upper_bound (List.length dirs) 12). lia. }
  assert (Hw : List.length (firstn (12 * k) dirs) = (12 * k)%nat)
    by (rewrite length_firstn; lia).
  assert (Hr : (List.length (skipn (12 * k) dirs) < 12)%nat)
    by (rewrite length_skipn; lia).
  rewrite <- (firstn_skipn (12 * k) dirs) at 1.
  unfold scanDirs.
  apply scanDirs_loop_app with (k := k); trivial; lia.
Qed.

(** C3 (as amended). For a record buffer with a leader, a base address
    [start] that parses and a directory span [bytes[24 : start-1]] inside
    the buffer, whatever the length of that span: the decoder reads the
    whole 12-byte entries of the span and nothing else of it, so the
    result is the one of the span cut down to a multiple of 12; a
    dangling partial entry is ignored without an error, and a span of
    fewer than 12 bytes gives a record without fields and no error. *)
Theorem C3_partial_entry_ignored (b : bytes) (start : Z) :
  20 <= len b ->
  Atoi (string_of_bytes (firstn 5 (skipn 12 b))) = Some start ->
  25 <= start <= len b ->
  let rec := mkRecord b [] (leaderOf b) in
  let data := skipn (Z.to_nat start) b in
  let dirs := firstn (Z.to_nat (start - 1 - 24)) (skipn 24 b) in
  scanIntoRecord b =
  scanDirs rec data (firstn (12 * (List.length dirs / 12)) dirs) /\
  (len dirs < 12 -> scanIntoRecord b = Returns (rec, None)).
Proof.
  intros Hlen Hstart Hrange rec data dirs.
  rewrite (scanIntoRecord_dirs b start Hlen Hstart Hrange).
  fold rec data dirs. split.
  - apply scanDirs_whole_entries.
  - intros Hshort. unfold scanDirs. now apply scanDirs_loop_short.
Qed.

Lemma C3_partial_entry_ignored_witness :
  scanIntoRecord dangling_buffer =
  Returns (mkRecord dangling_buffer [] (leaderOf dangling_buffer), None).
Proof.
  refine (proj2 (C3_partial_entry_ignored dangling_buffer 26 _ _ _) _);
    vm_compute; try reflexivity; try (split; discriminate); discriminate.
Defined.

(** C3 (as stated) fails: the directory span of [dangling_buffer] is one
    byte long, which is no multiple of 12, and decoding returns a record
    and no error. *)
Lemma C3_no_malformed_directory_error :
  slice dangling_buffer 24 (26 - 1) = Returns (bytes_of_string "x") /\
  ~ (exists rec err, scanIntoRecord dangling_buffer = Returns (rec, Some err)).
Proof.
  split; [reflexivity|].
  intros (rec & err & H). vm_compute in H. discriminate.
Qed.

(** ** Accessors: loops that append *)

Lemma fold_left_appending {A B : Type}
    (h : list B -> A -> list B) (sel : A -> list B) :
  (forall acc x, h acc x = acc ++ sel x) ->
  forall l acc, fold_left h l acc = acc ++ flat_map sel l.
Proof.
  intros Hh l. induction l as [|x l IH]; intros acc; simpl.
  - now rewrite app_nil_r.
  - now rewrite IH, Hh, <- app_assoc.
Qed.

Lemma filter_as_flat_map {A : Type} (p : A -> bool) (l : list A) :
  filter p l = flat_map (fun x => if p x then [x] else []) l.
Proof.
  induction l as [|x l IH]; simpl; [reflexivity|].
  destruct (p x); simpl; now rewrite IH.
Qed.

Lemma Record_ControlField_spec (r : MarcRecord) (tag : list string) :
  Record_ControlField r tag =
  flat_map (fun t => control_fields_with t (Fields r)) tag.
Proof.
  unfold Record_ControlField.
  rewrite fold_left_appending
    with (sel := fun t => control_fields_with t (Fields r)); [reflexivity|].
  intros acc t. unfold control_fields_with.
  apply fold_left_appending. intros acc' [cf|df|]; simpl.
  - destruct (String.eqb (cf_Tag cf) t); [reflexivity|now rewrite app_nil_r].
  - now rewrite app_nil_r.
  - now rewrite app_nil_r.
Qed.

Lemma DataField_SubField_spec (d : DataField) (subfield : list string) :
  DataField_SubField d subfield =
  flat_map (fun c => subfields_with c d) subfield.
Proof.
  unfold DataField_SubField.
  rewrite fold_left_appending
    with (sel := fun c => subfields_with c d); [reflexivity|].
  intros acc c. unfold subfields_with. rewrite filter_as_flat_map.
  apply fold_left_appending. intros acc' f.
  destruct (String.eqb (sf_Code f) c); [reflexivity|now rewrite app_nil_r].
Qed.

Lemma append_values_spec (values : list string) (l : list SubField) :
  append_values values l = values ++ map sf_Value l.
Proof.
  unfold append_values.
  rewrite fold_left_appending with (sel := fun sf => [sf_Value sf]);
    [|reflexivity].
  reflexivity.
Qed.

(** ** The control number *)

Lemma control_fields_with_none (t : string) (fields : list Field) :
  (forall cf, In (FControl cf) fields -> cf_Tag cf <> t) ->
  control_fields_with t fields = [].
Proof.
  intros H. induction fields as [|f fields IH]; [reflexivity|].
  unfold control_fields_with in *. simpl.
  rewrite IH by (intros cf Hin; apply H; now right).
  destruct f as [cf|df|]; try reflexivity.
  destruct (String.eqb_spec (cf_Tag cf) t) as [E|E]; [|reflexivity].
  exfalso. apply (H cf); [now left|exact E].
Qed.

Lemma control_fields_with_first (t : string) (pre post : list Field)
    (cf : ControlField) :
  cf_Tag cf = t ->
  (forall cf', In (FControl cf') pre -> cf_Tag cf' <> t) ->
  control_fields_with t (pre ++ FControl cf :: post) =
  cf :: control_fields_with t post.
Proof.
  intros Ht Hpre. unfold control_fields_with. rewrite flat_map_app.
  fold (control_fields_with t pre).
  rewrite (control_fields_with_none t pre Hpre). simpl.
  now rewrite Ht, String.eqb_refl.
Qed.

(** C4 (as amended). On a record without a control field [001],
    [ControlNum] returns nothing to its caller: indexing the empty result
    of [ControlField("001")] panics (so no empty string is returned, and
    no not-found value either).  On a record with such a field it returns
    the [TrimSpace] of the value of the first one. *)
Theorem C4_ControlNum (TrimSpace : string -> string) (r : MarcRecord) :
  ((forall cf, In (FControl cf) (Fields r) -> cf_Tag cf <> "001") ->
   Record_ControlNum TrimSpace r = Panics IndexOutOfRange) /\
  (forall pre cf post,
      Fields r = pre ++ FControl cf :: post ->
      cf_Tag cf = "001" ->
      (forall cf', In (FControl cf') pre -> cf_Tag cf' <> "001") ->
      Record_ControlNum TrimSpace r = Returns (TrimSpace (cf_Value cf))).
Proof.
  unfold Record_ControlNum. rewrite Record_ControlField_spec.
  simpl flat_map. rewrite app_nil_r. split.
  - intros H. now rewrite control_fields_with_none.
  - intros pre cf post E Ht Hpre.
    now rewrite E, control_fields_with_first.
Qed.

Example scanIntoRecord_sample :
  scanIntoRecord sample_buffer = Returns (sample_record, None).
Proof. reflexivity. Qed.

Example ControlNum_sample :
  Record_ControlNum asciiTrimSpace sample_record = Returns "92005291".
Proof. reflexivity. Qed.

Example Filter_sample_indicators :
  Record_Filter sample_record ["650|*0|x"] = Returns [["Juvenile poetry."]].
Proof. reflexivity. Qed.

Lemma C4_ControlNum_witness :
  Record_ControlNum asciiTrimSpace empty_record = Panics IndexOutOfRange /\
  Record_ControlNum asciiTrimSpace sample_record =
  Returns (asciiTrimSpace "  92005291").
Proof.
  split.
  - apply (proj1 (C4_ControlNum asciiTrimSpace empty_record)).
    intros cf [].
  - apply (proj2 (C4_ControlNum asciiTrimSpace sample_record)
             [] sample_001
             [FData sample_245; FData sample_650_0; FData sample_650_1]).
    + reflexivity.
    + reflexivity.
    + intros cf [].
Defined.

(** C4 (as stated) fails: on a record without fields the accessor returns
    no value at all, be it a string or a not-found condition. *)
Lemma C4_no_value_without_001 :
  ~ (exists v, Record_ControlNum asciiTrimSpace empty_record = Returns v).
Proof. intros [v H]. discriminate. Qed.

(** ** Subfields by code *)

(** C6 (as amended). [d.SubField(codes...)] returns, for each requested
    code in the order of the request, the subfields of [d] with that code
    in their order within the field: the result is grouped by requested
    code, and a code requested twice contributes its subfields twice.  Its
    elements are exactly the subfields of [d] whose code is one of the
    requested codes. *)
Theorem C6_SubField_grouped_by_code (d : DataField) (codes : list string) :
  DataField_SubField d codes =
  flat_map
    (fun c => filter (fun f => String.eqb (sf_Code f) c) (SubFields d))
    codes /\
  (forall f,
      In f (DataField_SubField d codes) <->
      In f (SubFields d) /\ In (sf_Code f) codes).
Proof.
  split; [apply DataField_SubField_spec|].
  intros f. rewrite DataField_SubField_spec, in_flat_map. split.
  - intros (c & Hc & Hf). unfold subfields_with in Hf.
    apply filter_In in Hf. destruct Hf as [Hf E].
    apply String.eqb_eq in E. subst c. now split.
  - intros [Hf Hc]. exists (sf_Code f). split; [exact Hc|].
    unfold subfields_with. apply filter_In. split; [exact Hf|].
    apply String.eqb_refl.
Qed.

(** C6 (as stated) fails: asked for the codes [a] and [b], the accessor
    returns the subfield [a] before the subfield [b], which is not their
    order within the field. *)
Lemma C6_not_in_field_order :
  DataField_SubField field_b_a ["a"; "b"] <>
  filter (fun f => existsb (String.eqb (sf_Code f)) ["a"; "b"])
         (SubFields field_b_a).
Proof. vm_compute. discriminate. Qed.

(** ** Subfield chunks *)

Lemma string_of_byte_length (c : ascii) :
  (1 <= String.length (string_of_byte c))%nat.
Proof.
  unfold string_of_byte. destruct (N_of_ascii c <? 128)%N; simpl; lia.
Qed.

Lemma makeDataField_loop_empty_chunk (chunks : list bytes) :
  forall d, In [] chunks ->
    exists d', makeDataField_loop d chunks = (d', Some "Extraneous field terminator").
Proof.
  induction chunks as [|sf rest IH]; intros d Hin; [contradiction|].
  destruct sf as [|c v]; simpl.
  - now exists d.
  - apply IH. destruct Hin as [E|Hin]; [discriminate|exact Hin].
Qed.

Lemma makeDataField_loop_ok (chunks : list bytes) :
  forall d d', makeDataField_loop d chunks = (d', None) ->
    ~ In [] chunks /\
    d' = set_SubFields d (SubFields d ++ map subfield_of_chunk chunks).
Proof.
  induction chunks as [|sf rest IH]; intros d d' H; simpl in H.
  - injection H as <-. split; [intros []|]. simpl. rewrite app_nil_r.
    now destruct d.
  - destruct sf as [|c v]; [discriminate|].
    apply IH in H. destruct H as [Hne ->]. split.
    + intros [E|Hin]; [discriminate|now apply Hne].
    + unfold set_SubFields. simpl. now rewrite <- app_assoc.
Qed.

Lemma makeDataField_ok (tag : string) (data : bytes) (d : DataField) :
  makeDataField tag data = (d, None) ->
  ~ In [] (bytes_Split (skipn 3 data) st) /\
  SubFields d = map subfield_of_chunk (bytes_Split (skipn 3 data) st).
Proof.
  unfold makeDataField.
  destruct data as [|i1 [|i2 [|x rest]]]; try discriminate.
  intros H. apply makeDataField_loop_ok in H. destruct H as [Hne ->].
  split; [exact Hne|reflexivity].
Qed.

Lemma makeDataField_empty_chunk (tag : string) (data : bytes) :
  In [] (bytes_Split (skipn 3 data) st) ->
  exists d err, makeDataField tag data = (d, Some err).
Proof.
  unfold makeDataField.
  destruct data as [|i1 [|i2 [|x rest]]]; try (intros _; eauto; fail).
  intros H. simpl skipn in H.
  destruct (makeDataField_loop_empty_chunk (bytes_Split rest st)
              (mkDataField (string_of_byte i1) (string_of_byte i2) tag []) H)
    as [d' E].
  eauto.
Qed.

Lemma makeDataField_coded (tag : string) (data : bytes) (d : DataField) :
  makeDataField tag data = (d, None) ->
  forall sf, In sf (SubFields d) -> (1 <= String.length (sf_Code sf))%nat.
Proof.
  intros H sf Hin. apply makeDataField_ok in H. destruct H as [Hne E].
  rewrite E in Hin. apply in_map_iff in Hin.
  destruct Hin as ([|c v] & <- & Hc); [contradiction|].
  simpl. apply string_of_byte_length.
Qed.

Lemma scanEntry_coded (rec : MarcRecord) (data dirs : bytes) (s : entry_step) :
  scanEntry rec data dirs = Returns s ->
  coded rec ->
  match s with
  | Continue rec' => coded rec'
  | Stop rec' _ => rec' = rec
  end.
Proof.
  unfold scanEntry. intros H Hrec.
  destruct (slice_to dirs 3) as [t|]; [cbn [bind] in H|discriminate].
  destruct (slice dirs 3 7) as [l|]; [cbn [bind] in H|discriminate].
  destruct (Atoi (string_of_bytes l)) as [length|];
    [|now injection H as <-].
  destruct (slice dirs 7 12) as [b|]; [cbn [bind] in H|discriminate].
  destruct (Atoi (string_of_bytes b)) as [begin|];
    [|now injection H as <-].
  destruct (len data <=? begin + length - 1); [now injection H as <-|].
  destruct (slice data begin (begin + length - 1)) as [fdata|];
    [cbn [bind] in H|discriminate].
  destruct (HasPrefix (string_of_bytes t) "00").
  - injection H as <-. intros d sf Hd Hsf. simpl in Hd.
    apply in_app_or in Hd. destruct Hd as [Hd|[Hd|[]]]; [|discriminate].
    now apply (Hrec d sf).
  - destruct (makeDataField (string_of_bytes t) fdata) as [df [err|]] eqn:E;
      injection H as <-; [reflexivity|].
    intros d sf Hd Hsf. simpl in Hd.
    apply in_app_or in Hd. destruct Hd as [Hd|[Hd|[]]].
    + now apply (Hrec d sf).
    + injection Hd as <-. now apply (makeDataField_coded _ _ _ E).
Qed.

Lemma scanDirs_loop_coded (n : nat) :
  forall rec data dirs rec' e,
    scanDirs_loop n rec data dirs = Returns (rec', e) ->
    coded rec -> coded rec'.
Proof.
  induction n as [|n IH]; intros rec data dirs rec' e H Hrec; simpl in H.
  - now injection H as <- <-.
  - destruct (12 <=? len dirs); [|now injection H as <- <-].
    destruct (scanEntry rec data dirs) as [s|] eqn:Es; [|discriminate].
    cbn [bind] in H. pose proof (scanEntry_coded _ _ _ _ Es Hrec) as Hs.
    destruct s as [rec1|rec1 err].
    + destruct (slice_from dirs 12) as [rest|]; [|discriminate].
      cbn [bind] in H. now apply (IH _ _ _ _ _ H).
    + injection H as <- <-. now subst rec1.
Qed.

Lemma scanIntoRecord_coded (b : bytes) (rec : MarcRecord) (e : option error) :
  scanIntoRecord b = Returns (rec, e) -> coded rec.
Proof.
  unfold scanIntoRecord. intros H.
  repeat match type of H with
         | bind (index_at ?b ?i) _ = _ =>
             destruct (index_at b i); [cbn [bind] in H|discriminate]
         end.
  destruct (slice b 12 17) as [s|]; [cbn [bind] in H|discriminate].
  destruct (Atoi (string_of_bytes s)) as [start|].
  - destruct (slice_from b start) as [data|]; [cbn [bind] in H|discriminate].
    destruct (slice b 24 (start - 1)) as [dirs|]; [cbn [bind] in H|discriminate].
    apply scanDirs_loop_coded in H; [exact H|].
    intros d sf [].
  - injection H as <- <-. intros d sf [].
Qed.

(** C7. For every content given to [makeDataField]: if one of the chunks
    between the subfield delimiters of the content from byte 3 on is
    empty, the constructor returns an error; if it returns no error, no
    chunk is empty and the subfields are the chunks, first byte as code
    and the rest as value.  Hence in every record that the decoder
    returns, each subfield of each data field has a code of at least one
    byte. *)
Theorem C7_no_empty_chunk (tag : string) (data b : bytes) :
  (In [] (bytes_Split (skipn 3 data) st) ->
   exists d err, makeDataField tag data = (d, Some err)) /\
  (forall d,
      makeDataField tag data = (d, None) ->
      ~ In [] (bytes_Split (skipn 3 data) st) /\
      SubFields d = map subfield_of_chunk (bytes_Split (skipn 3 data) st)) /\
  (forall rec e d sf,
      scanIntoRecord b = Returns (rec, e) ->
      In (FData d) (Fields rec) -> In sf (SubFields d) ->
      (1 <= String.length (sf_Code sf))%nat).
Proof.
  split; [apply makeDataField_empty_chunk|].
  split; [intros d; apply makeDataField_ok|].
  intros rec e d sf H. now apply (scanIntoRecord_coded b rec e H).
Qed.

Lemma C7_no_empty_chunk_witness :
  (exists d err, makeDataField "650" content_empty_chunk = (d, Some err)) /\
  SubFields sample_650_0 =
  map subfield_of_chunk (bytes_Split (skipn 3 content_650) st) /\
  (1 <= String.length (sf_Code (mkSubField "x" "Poetry.")))%nat.
Proof.
  pose proof (C7_no_empty_chunk "650" content_empty_chunk sample_buffer)
    as (H1 & _ & H3).
  pose proof (C7_no_empty_chunk "650" content_650 sample_buffer)
    as (_ & H2 & _).
  split; [|split].
  - apply H1. vm_compute. tauto.
  - apply (H2 sample_650_0). reflexivity.
  - apply (H3 sample_record None sample_650_1 (mkSubField "x" "Poetry.")).
    + reflexivity.
    + simpl. tauto.
    + simpl. tauto.
Defined.

(** ** The shape of a query *)

Lemma len_bytes_of_string (s : string) : len (bytes_of_string s) = slen s.
Proof.
  unfold len, slen, bytes_of_string. f_equal.
  induction s as [|c s IH]; simpl; [reflexivity|now rewrite IH].
Qed.

Lemma IndexByte_range (b : bytes) (c : ascii) :
  IndexByte b c = -1 \/ 0 <= IndexByte b c < len b.
Proof.
  induction b as [|x b IH]; simpl; [now left|].
  destruct (Ascii.eqb x c).
  - right. unfold len. simpl List.length. lia.
  - destruct (IndexByte b c <? 0) eqn:E; [now left|].
    apply Z.ltb_ge in E. right. unfold len in *. simpl List.length. lia.
Qed.

Lemma str_slice_in_range (s : string) (lo hi : Z) :
  0 <= lo -> lo <= hi -> hi <= slen s -> exists r, str_slice s lo hi = Returns r.
Proof.
  intros H1 H2 H3. unfold str_slice.
  rewrite slice_in_range by (rewrite ?len_bytes_of_string; lia).
  cbn [bind]. eauto.
Qed.

Lemma str_slice_out_of_range (s : string) (lo hi : Z) :
  lo < 0 \/ hi < lo \/ slen s < hi ->
  str_slice s lo hi = Panics SliceBoundsOutOfRange.
Proof.
  intros H. unfold str_slice.
  rewrite slice_out_of_range by (rewrite ?len_bytes_of_string; lia).
  reflexivity.
Qed.

Lemma str_index_at_in_range (s : string) (i : Z) :
  0 <= i < slen s -> exists c, str_index_at s i = Returns c.
Proof.
  intros H. apply index_at_in_range. now rewrite len_bytes_of_string.
Qed.

Lemma str_index_at_short (s : string) (i : Z) :
  slen s <= i -> str_index_at s i = Panics IndexOutOfRange.
Proof.
  intros H. apply index_at_short. now rewrite len_bytes_of_string.
Qed.

Lemma slen_nonneg (s : string) : 0 <= slen s.
Proof. unfold slen. lia. Qed.

Lemma Filter_parts_ok (q : string) :
  query_ok q -> exists v, Filter_parts q = Returns v.
Proof.
  intros [H3 Hpipe]. unfold Filter_parts.
  destruct (-1 <? strings_Index q "|") eqn:E.
  - apply Z.ltb_lt in E. specialize (Hpipe ltac:(lia)).
    destruct (str_index_at_in_range q (strings_Index q "|" + 1)) as [c1 ->];
      [lia|].
    destruct (str_index_at_in_range q (strings_Index q "|" + 2)) as [c2 ->];
      [lia|].
    destruct (str_slice_in_range q (strings_Index q "|" + 4) (slen q))
      as [subs Hs]; try lia.
    unfold str_slice_from. rewrite Hs. cbn [bind]. eauto.
  - destruct (str_slice_in_range q 3 (slen q)) as [subs Hs]; try lia.
    unfold str_slice_from. rewrite Hs. cbn [bind]. eauto.
Qed.

Lemma Filter_parts_panics (q : string) :
  3 <= slen q -> ~ query_ok q -> exists p, Filter_parts q = Panics p.
Proof.
  intros H3 Hnot. unfold Filter_parts.
  assert (Hpipe : 0 <= strings_Index q "|" /\ slen q < strings_Index q "|" + 4).
  { unfold query_ok in Hnot. lia. }
  destruct Hpipe as [Hi Hs].
  replace (-1 <? strings_Index q "|") with true
    by (symmetry; apply Z.ltb_lt; lia).
  destruct (Z_lt_le_dec (strings_Index q "|" + 1) (slen q)) as [H1|H1];
    [|rewrite str_index_at_short by lia; cbn [bind]; eauto].
  destruct (str_index_at_in_range q (strings_Index q "|" + 1)) as [c1 ->];
    [lia|]. cbn [bind].
  destruct (Z_lt_le_dec (strings_Index q "|" + 2) (slen q)) as [H2|H2];
    [|rewrite str_index_at_short by lia; cbn [bind]; eauto].
  destruct (str_index_at_in_range q (strings_Index q "|" + 2)) as [c2 ->];
    [lia|]. cbn [bind].
  unfold str_slice_from. rewrite str_slice_out_of_range by lia.
  cbn [bind]. eauto.
Qed.

Lemma splitQuery_returns_iff (q : string) :
  query_ok q <-> exists v, splitQuery q = Returns v.
Proof.
  unfold splitQuery, query_ok. split.
  - intros [H3 Hpipe].
    destruct (str_slice_in_range q 0 3) as [tag ->]; try lia. cbn [bind].
    destruct (-1 <? strings_Index q "|") eqn:E.
    + apply Z.ltb_lt in E. specialize (Hpipe ltac:(lia)).
      destruct (str_index_at_in_range q (strings_Index q "|" + 1)) as [c1 ->];
        [lia|].
      destruct (str_index_at_in_range q (strings_Index q "|" + 2)) as [c2 ->];
        [lia|].
      destruct (str_slice_in_range q (strings_Index q "|" + 4) (slen q))
        as [subs Hs]; try lia.
      unfold str_slice_from. rewrite Hs. cbn [bind]. eauto.
    + destruct (str_slice_in_range q 3 (slen q)) as [subs Hs]; try lia.
      unfold str_slice_from. rewrite Hs. cbn [bind]. eauto.
  - intros [v H].
    destruct (Z_lt_le_dec (slen q) 3) as [Hlt|H3];
      [rewrite str_slice_out_of_range in H by lia; discriminate|].
    split; [exact H3|]. intros Hi.
    destruct (Z_lt_le_dec (slen q) (strings_Index q "|" + 4)) as [Hs|Hs];
      [|exact Hs].
    exfalso.
    destruct (str_slice q 0 3) as [tag|]; [cbn [bind] in H|discriminate].
    replace (-1 <? strings_Index q "|") with true in H
      by (symmetry; apply Z.ltb_lt; lia).
    destruct (str_index_at q (strings_Index q "|" + 1)) as [c1|];
      [cbn [bind] in H|discriminate].
    destruct (str_index_at q (strings_Index q "|" + 2)) as [c2|];
      [cbn [bind] in H|discriminate].
    unfold str_slice_from in H.
    rewrite str_slice_out_of_range in H by lia. discriminate.
Qed.

Lemma for_range_returns {A S : Type} (body : S -> A -> outcome S) (l : list A) :
  (forall acc x, In x l -> exists acc', body acc x = Returns acc') ->
  forall acc, exists res, for_range l acc body = Returns res.
Proof.
  induction l as [|x l IH]; intros H acc; simpl; [eauto|].
  destruct (H acc x) as [acc' ->]; [now left|]. cbn [bind].
  apply IH. intros a y Hy. apply H. now right.
Qed.

Lemma Filter_field_returns (q tag : string) (res : list (list string))
    (field : Field) :
  query_ok q -> exists res', Filter_field q tag res field = Returns res'.
Proof.
  intros Hq. destruct field as [cf|df|]; simpl.
  - destruct (String.eqb (cf_Tag cf) tag); eauto.
  - destruct (Filter_parts_ok q Hq) as [[[ind1 ind2] subs] ->]. cbn [bind].
    destruct (DataField_matches df tag ind1 ind2); [|eauto].
    match goal with |- context [if ?c then _ else _] => destruct c end; eauto.
  - eauto.
Qed.

Lemma Filter_fields_panic (q tag : string) (p : panic) (fields : list Field) :
  Filter_parts q = Panics p ->
  (exists d, In (FData d) fields) ->
  forall res, for_range fields res (Filter_field q tag) = Panics p.
Proof.
  intros Hp. induction fields as [|f fields IH]; intros [d Hd] res.
  - contradiction.
  - destruct f as [cf|df|]; simpl.
    + destruct Hd as [Hd|Hd]; [discriminate|].
      destruct (String.eqb (cf_Tag cf) tag); cbn [bind]; apply IH; eauto.
    + now rewrite Hp.
    + destruct Hd as [Hd|Hd]; [discriminate|]. apply IH; eauto.
Qed.

(** C10. The queries that [splitQuery] takes without a panic are those of
    at least three bytes in which a first [|] at index [i] is followed by
    the positions up to [i + 4].  [Filter] returns on every record when
    all its queries are such; on a record with a data field it panics on
    every query that is not; it panics on the two-byte query [65] on
    every record, and on [650|0] on every record with a data field. *)
Theorem C10_query_shape_unchecked :
  (forall q, query_ok q <-> exists v, splitQuery q = Returns v) /\
  (forall r query,
      Forall query_ok query -> exists res, Record_Filter r query = Returns res) /\
  (forall r q,
      (exists d, In (FData d) (Fields r)) -> ~ query_ok q ->
      exists p, Record_Filter r [q] = Panics p) /\
  (forall r, Record_Filter r ["65"] = Panics SliceBoundsOutOfRange) /\
  (forall r,
      (exists d, In (FData d) (Fields r)) ->
      Record_Filter r ["650|0"] = Panics IndexOutOfRange).
Proof.
  split; [exact splitQuery_returns_iff|].
  split; [|split; [|split]].
  - intros r query Hq. unfold Record_Filter.
    apply for_range_returns. intros acc q Hin.
    rewrite Forall_forall in Hq. specialize (Hq q Hin).
    destruct (str_slice_in_range q 0 3) as [tag ->];
      try (destruct Hq; lia).
    cbn [bind]. apply for_range_returns. intros acc' f _.
    now apply Filter_field_returns.
  - intros r q Hd Hnot. unfold Record_Filter. simpl for_range.
    destruct (Z_lt_le_dec (slen q) 3) as [Hlt|H3].
    + rewrite str_slice_out_of_range by lia. cbn [bind]. eauto.
    + destruct (str_slice_in_range q 0 3) as [tag ->]; try lia. cbn [bind].
      destruct (Filter_parts_panics q H3 Hnot) as [p Hp].
      rewrite (Filter_fields_panic q tag p (Fields r) Hp Hd). cbn [bind]. eauto.
  - intros r. reflexivity.
  - intros r Hd. unfold Record_Filter. simpl for_range.
    change (str_slice "650|0" 0 3) with (Returns (A := string) "650").
    cbn [bind].
    rewrite (Filter_fields_panic "650|0" "650" IndexOutOfRange (Fields r));
      trivial.
Qed.

Lemma C10_query_shape_unchecked_witness :
  (exists v, splitQuery "650|*0|x" = Returns v) /\
  (exists res, Record_Filter sample_record ["245a"; "650|*0|x"] = Returns res) /\
  (exists p, Record_Filter sample_record ["650|0"] = Panics p) /\
  Record_Filter sample_record ["650|0"] = Panics IndexOutOfRange.
Proof.
  pose proof C10_query_shape_unchecked as (H1 & H2 & H3 & _ & H5).
  assert (Hd : exists d, In (FData d) (Fields sample_record))
    by (exists sample_245; simpl; tauto).
  split; [|split; [|split]].
  - apply H1. vm_compute. split; [discriminate|]. intros _. discriminate.
  - apply H2. repeat constructor; vm_compute; try discriminate;
      intros _; discriminate.
  - apply H3; [exact Hd|]. intros [_ H]. vm_compute in H.
    apply H; [discriminate|reflexivity].
  - apply H5. exact Hd.
Defined.

(** ** Result groups of the filter *)

Lemma Filter_field_plain (q tag subs : string) (res : list (list string))
    (f : Field) :
  Filter_parts q = Returns ("*", "*", subs) ->
  Filter_field q tag res f = Returns (res ++ groups_of tag subs f).
Proof.
  intros Hp. destruct f as [cf|d|]; simpl.
  - destruct (String.eqb (cf_Tag cf) tag); [reflexivity|now rewrite app_nil_r].
  - rewrite Hp. cbn [bind]. unfold DataField_matches. simpl.
    rewrite !andb_true_r.
    destruct (String.eqb (df_Tag d) tag); [|now rewrite app_nil_r].
    replace (if negb (slen subs =? 0)
             then append_values [] (DataField_SubField d (explode subs))
             else append_values [] (SubFields d))
      with (selected_values subs d).
    + destruct (selected_values subs d) as [|v vs]; simpl;
        [now rewrite app_nil_r|reflexivity].
    + unfold selected_values.
      now rewrite !append_values_spec, DataField_SubField_spec.
  - now rewrite app_nil_r.
Qed.

Lemma Filter_fields_plain (q tag subs : string) (fields : list Field) :
  Filter_parts q = Returns ("*", "*", subs) ->
  forall res,
    for_range fields res (Filter_field q tag) =
    Returns (res ++ flat_map (groups_of tag subs) fields).
Proof.
  intros Hp. induction fields as [|f fields IH]; intros res; simpl.
  - now rewrite app_nil_r.
  - rewrite (Filter_field_plain q tag subs res f Hp). cbn [bind].
    now rewrite IH, <- app_assoc.
Qed.

Lemma groups_of_has_tag (tag subs : string) (fields : list Field) :
  flat_map (groups_of tag subs) fields =
  flat_map (groups_of tag subs) (filter (has_tag tag) fields).
Proof.
  induction fields as [|f fields IH]; [reflexivity|]. simpl.
  destruct (has_tag tag f) eqn:E; simpl; rewrite IH; [reflexivity|].
  destruct f as [cf|d|]; simpl in *; now rewrite ?E.
Qed.

Lemma map_eq_nil_iff {A B : Type} (f : A -> B) (l : list A) :
  map f l = [] <-> l = [].
Proof. destruct l; simpl; split; intros H; try discriminate; reflexivity. Qed.

(** C5 (as amended). On a record whose only field with tag [245] is a data
    field [d], whose fields with tag [650] are two data fields [e1] and
    [e2], each with a subfield [x], and which has no field with tag
    [100], [Filter("245a", "650x", "100")] returns without a panic one
    group for each field instance that yields a value, in the order of
    the queries and then of the record: the values of the subfields [a]
    of [d] if there are any, then the values of the subfields [x] of
    [e1], then those of [e2].  Both of these are non-empty and the query
    [100] contributes no group: with a subfield [a] in [d] there are
    three groups, and the third belongs to the second [650]. *)
Theorem C5_Filter_scenario (r : MarcRecord) (d e1 e2 : DataField) :
  filter (has_tag "245") (Fields r) = [FData d] ->
  filter (has_tag "650") (Fields r) = [FData e1; FData e2] ->
  filter (has_tag "100") (Fields r) = [] ->
  subfields_with "x" e1 <> [] ->
  subfields_with "x" e2 <> [] ->
  let a := map sf_Value (subfields_with "a" d) in
  let x1 := map sf_Value (subfields_with "x" e1) in
  let x2 := map sf_Value (subfields_with "x" e2) in
  x1 <> [] /\ x2 <> [] /\
  Record_Filter r ["245a"; "650x"; "100"] = Returns (group a ++ [x1; x2]).
Proof.
  intros H245 H650 H100 Hx1 Hx2 a x1 x2.
  assert (Nx1 : x1 <> []) by (unfold x1; now rewrite map_eq_nil_iff).
  assert (Nx2 : x2 <> []) by (unfold x2; now rewrite map_eq_nil_iff).
  split; [exact Nx1|]. split; [exact Nx2|].
  assert (T245 : df_Tag d = "245").
  { assert (Hin : In (FData d) (filter (has_tag "245") (Fields r)))
      by (rewrite H245; now left).
    apply filter_In in Hin. now apply String.eqb_eq. }
  assert (T650 : df_Tag e1 = "650" /\ df_Tag e2 = "650").
  { split.
    - assert (Hin : In (FData e1) (filter (has_tag "650") (Fields r)))
        by (rewrite H650; now left).
      apply filter_In in Hin. now apply String.eqb_eq.
    - assert (Hin : In (FData e2) (filter (has_tag "650") (Fields r)))
        by (rewrite H650; right; now left).
      apply filter_In in Hin. now apply String.eqb_eq. }
  destruct T650 as [Te1 Te2].
  unfold Record_Filter. cbn [for_range].
  change (str_slice "245a" 0 3) with (Returns (A := string) "245").
  change (str_slice "650x" 0 3) with (Returns (A := string) "650").
  change (str_slice "100" 0 3) with (Returns (A := string) "100").
  cbn [bind].
  rewrite (Filter_fields_plain "245a" "245" "a" (Fields r) eq_refl). cbn [bind].
  rewrite (Filter_fields_plain "650x" "650" "x" (Fields r) eq_refl). cbn [bind].
  rewrite (Filter_fields_plain "100" "100" "" (Fields r) eq_refl). cbn [bind].
  rewrite (groups_of_has_tag "245"), (groups_of_has_tag "650"),
    (groups_of_has_tag "100"), H245, H650, H100.
  cbn [flat_map groups_of app]. rewrite T245, Te1, Te2.
  rewrite !String.eqb_refl, !app_nil_r.
  change (selected_values "a" d) with (map sf_Value (subfields_with "a" d ++ [])).
  change (selected_values "x" e1) with (map sf_Value (subfields_with "x" e1 ++ [])).
  change (selected_values "x" e2) with (map sf_Value (subfields_with "x" e2 ++ [])).
  rewrite !app_nil_r. fold a x1 x2.
  f_equal. f_equal.
  destruct x1; [contradiction|]. destruct x2; [contradiction|]. reflexivity.
Qed.

Lemma C5_Filter_scenario_witness :
  Record_Filter sample_record ["245a"; "650x"; "100"] =
  Returns [["Title /"]; ["Juvenile poetry."]; ["Poetry."]].
Proof.
  refine (proj2 (proj2 (C5_Filter_scenario sample_record sample_245
                          sample_650_0 sample_650_1 _ _ _ _ _)));
    try reflexivity; vm_compute; discriminate.
Defined.

(** C5 (as stated) fails: on the sample record, which has one [245], two
    [650] with a subfield [x] each and no [100], the third group of the
    result is not empty. *)
Lemma C5_third_group_not_empty :
  ~ (exists g1 g2,
        Record_Filter sample_record ["245a"; "650x"; "100"] =
        Returns [g1; g2; []]).
Proof. intros (g1 & g2 & H). vm_compute in H. discriminate. Qed.

(** ** The store under the steps of an iterator *)

Lemma set_nth_length {A : Type} (l : list A) (i : nat) (x : A) :
  List.length (set_nth l i x) = List.length l.
Proof.
  revert i. induction l as [|y l IH]; intros [|i]; simpl; auto.
Qed.

Lemma nth_set_nth_ne {A : Type} (l : list A) (i j : nat) (x d : A) :
  i <> j -> nth j (set_nth l i x) d = nth j l d.
Proof.
  revert i j. induction l as [|y l IH]; intros [|i] [|j] H; simpl; auto.
  contradiction.
Qed.

Lemma store_write_length (h : store) (l : loc) (off : Z) (data : bytes) :
  List.length (store_write h l off data) = List.length h.
Proof. apply set_nth_length. Qed.

Lemma store_write_other (h : store) (l p : loc) (off : Z) (data : bytes) :
  l <> p -> array_at (store_write h l off data) p = array_at h p.
Proof. intros H. unfold array_at, store_write. now apply nth_set_nth_ne. Qed.

Lemma alloc_old (h : store) (arr : bytes) (p : loc) :
  (p < List.length h)%nat -> array_at (h ++ [arr]) p = array_at h p.
Proof. intros H. unfold array_at. now apply app_nth1. Qed.

Lemma alloc_new (h : store) (arr : bytes) :
  array_at (h ++ [arr]) (List.length h) = arr.
Proof. unfold array_at. now rewrite nth_middle. Qed.

Lemma frame_same_buf (h : store) (m m' : Scanner) :
  buf_allocated h m -> sc_buf m' = sc_buf m -> frame h m h m'.
Proof.
  intros Hok E. split; [lia|]. split.
  - intros l Hl. apply Hok. now rewrite <- E.
  - intros p _ Hp. split; [reflexivity|now rewrite E].
Qed.

Lemma frame_trans (h0 h1 h2 : store) (m0 m1 m2 : Scanner) :
  frame h0 m0 h1 m1 -> frame h1 m1 h2 m2 -> frame h0 m0 h2 m2.
Proof.
  intros (L1 & _ & F1) (L2 & Hok & F2). split; [lia|]. split; [exact Hok|].
  intros p Hp Hb. destruct (F1 p Hp Hb) as [E1 B1].
  destruct (F2 p ltac:(lia) B1) as [E2 B2]. split; [congruence|exact B2].
Qed.

Lemma frame_write (h : store) (m m' : Scanner) (l : loc) (off : Z)
    (data : bytes) :
  buf_allocated h m -> sc_buf m = Some l -> sc_buf m' = Some l ->
  frame h m (store_write h l off data) m'.
Proof.
  intros Hok E E'. split; [rewrite store_write_length; lia|]. split.
  - intros l' Hl'. rewrite store_write_length. apply Hok.
    now rewrite E, <- E'.
  - intros p _ Hp. rewrite E in Hp. split; [|now rewrite E'].
    apply store_write_other. intros ->. now apply Hp.
Qed.

Lemma frame_alloc (h : store) (m m' : Scanner) (arr : bytes) :
  sc_buf m' = Some (List.length h) -> frame h m (h ++ [arr]) m'.
Proof.
  intros E. split; [rewrite length_app; simpl; lia|]. split.
  - intros l Hl. rewrite length_app. simpl. rewrite E in Hl.
    injection Hl as <-. lia.
  - intros p Hp _. split; [now apply alloc_old|].
    rewrite E. intros H. injection H as <-. lia.
Qed.

Lemma sc_buf_setErr (s : Scanner) (e : error) : sc_buf (setErr s e) = sc_buf s.
Proof.
  unfold setErr. destruct (sc_err s) as [e'|]; [|reflexivity].
  now destruct (String.eqb e' EOF).
Qed.

Section ScanFrame.

Context {R : Type} {reader : Reader R}.

Lemma read_loop_frame (k : nat) :
  forall h s r h' s' r',
    buf_allocated h s ->
    read_loop k h s r = (h', s', r') -> frame h s h' s'.
Proof.
  induction k as [|k IH]; intros h s r h' s' r' Hok H; simpl in H;
    destruct (Read r (buf_len h s - sc_end s)) as [[data err] r1];
    destruct (buf_len h s - sc_end s <? len data).
  1, 3: injection H as <- <- <-; apply frame_same_buf;
          [exact Hok|apply sc_buf_setErr].
  - assert (Hw : frame h s
              (match sc_buf s with
               | Some l => store_write h l (sc_end s) data
               | None => h
               end)
              (with_buf s (sc_buf s) (sc_start s) (sc_end s + len data))).
    { destruct (sc_buf s) as [l|] eqn:E.
      - now apply frame_write.
      - apply frame_same_buf; [exact Hok|]. simpl. now rewrite E. }
    destruct err as [e|]; [|destruct (0 <? len data)];
      injection H as <- <- <-;
      (eapply frame_trans; [exact Hw|]);
      (apply frame_same_buf; [apply Hw|]);
      [apply sc_buf_setErr|reflexivity|apply sc_buf_setErr].
  - assert (Hw : frame h s
              (match sc_buf s with
               | Some l => store_write h l (sc_end s) data
               | None => h
               end)
              (with_buf s (sc_buf s) (sc_start s) (sc_end s + len data))).
    { destruct (sc_buf s) as [l|] eqn:E.
      - now apply frame_write.
      - apply frame_same_buf; [exact Hok|]. simpl. now rewrite E. }
    destruct err as [e|]; [|destruct (0 <? len data)].
    + injection H as <- <- <-. eapply frame_trans; [exact Hw|].
      apply frame_same_buf; [apply Hw|apply sc_buf_setErr].
    + injection H as <- <- <-. eapply frame_trans; [exact Hw|].
      apply frame_same_buf; [apply Hw|reflexivity].
    + eapply frame_trans; [exact Hw|].
      eapply IH; [apply Hw|exact H].
Qed.

Lemma Scan_split_returns (h : store) (s : Scanner) (r : R) (ok : bool)
    (h' : store) (s' : Scanner) (r' : R) :
  Scan_split h s r = inl (Scanned ok h' s' r') ->
  h' = h /\ sc_buf s' = sc_buf s.
Proof.
  unfold Scan_split.
  destruct ((sc_start s <? sc_end s) || is_some (sc_err s)); [|discriminate].
  destruct (splitFunc h (buf_slice s (sc_start s) (sc_end s))
              (is_some (sc_err s))) as [[advance token] err].
  destruct err as [e|].
  - destruct (String.eqb e ErrFinalToken); intros H; injection H as <- <- <- <-;
      (split; [reflexivity|]); [reflexivity|apply sc_buf_setErr].
  - destruct (advance <? 0);
      [intros H; injection H as <- <- <- <-;
       split; [reflexivity|apply sc_buf_setErr]|].
    destruct (sc_end s - sc_start s <? advance);
      [intros H; injection H as <- <- <- <-;
       split; [reflexivity|apply sc_buf_setErr]|].
    destruct (negb (is_nil token)); [|discriminate].
    match goal with |- context [if ?c then _ else _] => destruct c end.
    + intros H. injection H as <- <- <- <-. now split.
    + match goal with |- context [if ?c then _ else _] => destruct c end;
        [discriminate|].
      intros H. injection H as <- <- <- <-. now split.
Qed.

Lemma Scan_split_continues (h : store) (s s' : Scanner) (r : R) :
  Scan_split h s r = inr s' -> sc_buf s' = sc_buf s.
Proof.
  unfold Scan_split.
  destruct ((sc_start s <? sc_end s) || is_some (sc_err s));
    [|now intros H; injection H as <-].
  destruct (splitFunc h (buf_slice s (sc_start s) (sc_end s))
              (is_some (sc_err s))) as [[advance token] err].
  destruct err as [e|].
  - destruct (String.eqb e ErrFinalToken); discriminate.
  - destruct (advance <? 0); [discriminate|].
    destruct (sc_end s - sc_start s <? advance); [discriminate|].
    destruct (negb (is_nil token)).
    + repeat match goal with
             | |- context [if ?c then _ else _] => destruct c
             end; discriminate.
    + now intros H; injection H as <-.
Qed.

Lemma Scan_shift_frame (h : store) (s : Scanner) (h' : store) (s' : Scanner) :
  buf_allocated h s -> Scan_shift h s = (h', s') -> frame h s h' s'.
Proof.
  intros Hok. unfold Scan_shift.
  match goal with |- context [if ?c then _ else _] => destruct c end;
    intros H; injection H as <- <-.
  - destruct (sc_buf s) as [l|] eqn:E.
    + apply frame_write; trivial.
    + apply frame_same_buf; [exact Hok|]. simpl. now rewrite E.
  - now apply frame_same_buf.
Qed.

Lemma Scan_grow_frame (h : store) (s : Scanner) (h' : store) (s' : Scanner) :
  buf_allocated h s -> Scan_grow h s = Some (h', s') -> frame h s h' s'.
Proof.
  intros Hok. unfold Scan_grow.
  destruct (sc_end s =? buf_len h s);
    [|intros H; injection H as <- <-; now apply frame_same_buf].
  match goal with |- context [if ?c then _ else _] => destruct c end;
    [discriminate|].
  unfold alloc. intros H. injection H as <- <-.
  now apply frame_alloc.
Qed.

Lemma Scan_loop_frame (fuel : nat) :
  forall h s r ok h' s' r',
    buf_allocated h s ->
    Scan_loop fuel h s r = Scanned ok h' s' r' -> frame h s h' s'.
Proof.
  induction fuel as [|fuel IH]; intros h s r ok h' s' r' Hok H;
    cbn [Scan_loop] in H; [discriminate|].
  destruct (Scan_split h s r) as [res|s1] eqn:Es.
  - subst res. apply Scan_split_returns in Es. destruct Es as [-> E].
    now apply frame_same_buf.
  - apply Scan_split_continues in Es.
    assert (F1 : frame h s h s1) by now apply frame_same_buf.
    destruct (sc_err s1).
    + injection H as <- <- <- <-. eapply frame_trans; [exact F1|].
      apply frame_same_buf; [apply F1|reflexivity].
    + destruct (Scan_shift h s1) as [h2 s2] eqn:E2.
      assert (F2 : frame h s1 h2 s2)
        by (eapply Scan_shift_frame; [apply F1|exact E2]).
      destruct (Scan_grow h2 s2) as [[h3 s3]|] eqn:E3.
      * assert (F3 : frame h2 s2 h3 s3)
          by (eapply Scan_grow_frame; [apply F2|exact E3]).
        destruct (read_loop maxConsecutiveEmptyReads h3 s3 r)
          as [[h4 s4] r4] eqn:E4.
        assert (F4 : frame h3 s3 h4 s4)
          by (eapply read_loop_frame; [apply F3|exact E4]).
        apply IH in H; [|apply F4].
        eapply frame_trans; [exact F1|].
        eapply frame_trans; [exact F2|].
        eapply frame_trans; [exact F3|].
        eapply frame_trans; [exact F4|exact H].
      * injection H as <- <- <- <-.
        eapply frame_trans; [exact F1|].
        eapply frame_trans; [exact F2|].
        apply frame_same_buf; [apply F2|apply sc_buf_setErr].
Qed.

Lemma Next_frame (h : store) (m : Scanner) (r : R) (ok : bool)
    (h' : store) (m' : Scanner) (r' : R) :
  buf_allocated h m ->
  MarcIterator_Next h m r = Scanned ok h' m' r' -> frame h m h' m'.
Proof.
  intros Hok. unfold MarcIterator_Next, Scan.
  destruct (sc_done m).
  - intros H. injection H as <- <- <- <-. now apply frame_same_buf.
  - intros H. apply Scan_loop_frame in H; [|exact Hok].
    eapply frame_trans; [|exact H]. now apply frame_same_buf.
Qed.

End ScanFrame.

(** ** The retained raw buffer *)

Lemma scanEntry_Data (rec : MarcRecord) (data dirs : bytes) (s : entry_step) :
  scanEntry rec data dirs = Returns s ->
  match s with
  | Continue rec' => Data rec' = Data rec
  | Stop rec' _ => Data rec' = Data rec
  end.
Proof.
  unfold scanEntry. intros H.
  destruct (slice_to dirs 3) as [t|]; [cbn [bind] in H|discriminate].
  destruct (slice dirs 3 7) as [l|]; [cbn [bind] in H|discriminate].
  destruct (Atoi (string_of_bytes l)) as [length|];
    [|now injection H as <-].
  destruct (slice dirs 7 12) as [b|]; [cbn [bind] in H|discriminate].
  destruct (Atoi (string_of_bytes b)) as [begin|];
    [|now injection H as <-].
  destruct (len data <=? begin + length - 1); [now injection H as <-|].
  destruct (slice data begin (begin + length - 1)) as [fdata|];
    [cbn [bind] in H|discriminate].
  destruct (HasPrefix (string_of_bytes t) "00").
  - now injection H as <-.
  - destruct (makeDataField (string_of_bytes t) fdata) as [df [err|]];
      now injection H as <-.
Qed.

Lemma scanDirs_loop_Data (n : nat) :
  forall rec data dirs rec' e,
    scanDirs_loop n rec data dirs = Returns (rec', e) -> Data rec' = Data rec.
Proof.
  induction n as [|n IH]; intros rec data dirs rec' e H; simpl in H.
  - now injection H as <- <-.
  - destruct (12 <=? len dirs); [|now injection H as <- <-].
    destruct (scanEntry rec data dirs) as [s|] eqn:Es; [|discriminate].
    cbn [bind] in H. apply scanEntry_Data in Es.
    destruct s as [rec1|rec1 err].
    + destruct (slice_from dirs 12) as [rest|]; [|discriminate].
      cbn [bind] in H. apply IH in H. congruence.
    + injection H as <- <-. exact Es.
Qed.

Lemma scanIntoRecord_Data (b : bytes) (rec : MarcRecord) (e : option error) :
  scanIntoRecord b = Returns (rec, e) -> Data rec = b.
Proof.
  unfold scanIntoRecord. intros H.
  repeat match type of H with
         | bind (index_at ?b ?i) _ = _ =>
             destruct (index_at b i); [cbn [bind] in H|discriminate]
         end.
  destruct (slice b 12 17) as [s|]; [cbn [bind] in H|discriminate].
  destruct (Atoi (string_of_bytes s)) as [start|].
  - destruct (slice_from b start) as [data|]; [cbn [bind] in H|discriminate].
    destruct (slice b 24 (start - 1)) as [dirs|]; [cbn [bind] in H|discriminate].
    now apply scanDirs_loop_Data in H.
  - now injection H as <- <-.
Qed.

Lemma load_alloc (h : store) (b : bytes) :
  load (h ++ [b]) (mkSlice (Some (List.length h)) 0 (len b)) = b.
Proof.
  unfold load. simpl. rewrite alloc_new. unfold len.
  rewrite Nat2Z.id. apply firstn_all.
Qed.

Lemma Value_store (h : store) (m : Scanner) (h' : store) (d : slice_t)
    (res : MarcRecord * option error) :
  MarcIterator_Value h m = Returns (h', d, res) ->
  h' = h ++ [load h (Scanner_Bytes m)] /\
  d = mkSlice (Some (List.length h)) 0 (len (load h (Scanner_Bytes m))) /\
  scanIntoRecord (load h (Scanner_Bytes m)) = Returns res.
Proof.
  unfold MarcIterator_Value, alloc.
  destruct (scanIntoRecord (load h (Scanner_Bytes m))) as [res'|];
    [|discriminate].
  cbn [bind]. intros H. injection H as <- <- <-. auto.
Qed.

Section IteratorFrame.

Context {R : Type} {reader : Reader R}.

Lemma step_frame (h : store) (m : Scanner) (r : R)
    (h' : store) (m' : Scanner) (r' : R) :
  buf_allocated h m ->
  iterator_step (h, m, r) (h', m', r') -> frame h m h' m'.
Proof.
  intros Hok Hs. inversion Hs; subst.
  - eapply Next_frame; eassumption.
  - match goal with H : MarcIterator_Value _ _ = _ |- _ =>
      apply Value_store in H; destruct H as (-> & _ & _) end.
    split; [rewrite length_app; simpl; lia|]. split.
    + intros l Hl. rewrite length_app. simpl. specialize (Hok l Hl). lia.
    + intros p Hp Hb. split; [now apply alloc_old|exact Hb].
Qed.

Lemma steps_frame (c c' : store * Scanner * R) :
  iterator_steps c c' ->
  buf_allocated (fst (fst c)) (snd (fst c)) ->
  frame (fst (fst c)) (snd (fst c)) (fst (fst c')) (snd (fst c')).
Proof.
  induction 1 as [[[h m] r]|[[h1 m1] r1] [[h2 m2] r2] [[h3 m3] r3] H1 H2 IH];
    simpl; intros Hok.
  - now apply frame_same_buf.
  - assert (F : frame h1 m1 h2 m2) by (eapply step_frame; eassumption).
    eapply frame_trans; [exact F|]. apply IH. apply F.
Qed.

Lemma NewMarcIterator_allocated (h : store) : buf_allocated h NewMarcIterator.
Proof. intros l H. discriminate. Qed.

End IteratorFrame.

(** C9. An iterator made by [NewMarcIterator] and used in any way; then a
    call of [Next] that returns true and a call of [Value] that returns a
    record (with or without an error).  The bytes of [rec.Data] are those
    of the buffer that the framer has just emitted, and whatever calls of
    [Next] and [Value] follow, [rec.Data] keeps these bytes: it views an
    array that is not the buffer of the scanner.  (The accessors and
    [Filter] are functions of the fields of the record and do not take
    the store.) *)
Theorem C9_Data_is_an_independent_copy {R : Type} {reader : Reader R}
    (h0 : store) (r0 : R) (h : store) (m : Scanner) (r : R)
    (h1 : store) (m1 : Scanner) (r1 : R)
    (h2 : store) (d : slice_t) (rec : MarcRecord) (e : option error) :
  iterator_steps (h0, NewMarcIterator, r0) (h, m, r) ->
  MarcIterator_Next h m r = Scanned true h1 m1 r1 ->
  MarcIterator_Value h1 m1 = Returns (h2, d, (rec, e)) ->
  Data rec = load h1 (Scanner_Bytes m1) /\
  load h2 d = load h1 (Scanner_Bytes m1) /\
  (forall h3 m3 r3,
      iterator_steps (h2, m1, r1) (h3, m3, r3) ->
      load h3 d = load h1 (Scanner_Bytes m1) /\ sc_buf m3 <> s_arr d).
Proof.
  intros Hreach HNext HValue.
  assert (Hok : buf_allocated h m).
  { apply (steps_frame _ _ Hreach). apply NewMarcIterator_allocated. }
  assert (F1 : frame h m h1 m1) by (eapply Next_frame; eassumption).
  destruct F1 as (_ & Hok1 & _).
  assert (F2 : frame h1 m1 h2 m1).
  { apply (step_frame h1 m1 r1 h2 m1 r1 Hok1).
    eapply step_Value. exact HValue. }
  destruct (Value_store _ _ _ _ _ HValue) as (-> & -> & Hrec).
  apply scanIntoRecord_Data in Hrec.
  split; [exact Hrec|]. split; [apply load_alloc|].
  intros h3 m3 r3 Hsteps.
  pose proof (steps_frame _ _ Hsteps (proj1 (proj2 F2))) as (_ & _ & F3).
  simpl in F3.
  destruct (F3 (List.length h1)) as [E B].
  - rewrite length_app. simpl. lia.
  - intros Hb. specialize (Hok1 _ Hb). lia.
  - split; [|exact B].
    rewrite <- (load_alloc h1 (load h1 (Scanner_Bytes m1))) at 2.
    unfold load. simpl. now rewrite E.
Qed.

Lemma C9_Data_is_an_independent_copy_witness :
  exists h1 m1 r1 h2 d rec e,
    MarcIterator_Next [] NewMarcIterator sample_stream = Scanned true h1 m1 r1 /\
    MarcIterator_Value h1 m1 = Returns (h2, d, (rec, e)) /\
    Data rec = sample_buffer /\
    load h2 d = sample_buffer /\
    (forall h3 m3 r3,
        iterator_steps (h2, m1, r1) (h3, m3, r3) -> load h3 d = sample_buffer).
Proof.
  destruct (MarcIterator_Next [] NewMarcIterator sample_stream)
    as [ok h1 m1 r1| |] eqn:E1; [|vm_compute in E1; discriminate..].
  pose proof E1 as C1. vm_compute in C1. injection C1 as <- <- <- <-.
  match type of E1 with _ = Scanned true ?h ?m ?r =>
    destruct (MarcIterator_Value h m) as [[[h2 d] [rec e]]|] eqn:E2;
      [|vm_compute in E2; discriminate]
  end.
  pose proof E2 as C2. vm_compute in C2. injection C2 as <- <- <- <-.
  destruct (C9_Data_is_an_independent_copy
              [] sample_stream [] NewMarcIterator sample_stream
              _ _ _ _ _ _ _ (steps_refl _) E1 E2) as (A & B & C).
  do 7 eexists.
  split; [reflexivity|]. split; [exact E2|].
  split; [rewrite A; vm_compute; reflexivity|].
  split; [rewrite B; vm_compute; reflexivity|].
  intros h3 m3 r3 Hs. destruct (C h3 m3 r3 Hs) as [-> _].
  vm_compute. reflexivity.
Defined.

(** The buffer that [Bytes] returns is not such a copy: after two records
    of 3000 bytes, the slice returned for the first one shows bytes of
    the second one once [Next] has shifted the buffer of the scanner. *)
Example token_is_overwritten :
  let stream :=
    mkPlainReader (repeat "a"%char 3000 ++ [rt] ++ repeat "b"%char 3000 ++ [rt]) in
  match MarcIterator_Next [] NewMarcIterator stream with
  | Scanned true h1 m1 r1 =>
      match MarcIterator_Next h1 m1 r1 with
      | Scanned true h2 m2 r2 =>
          load h1 (Scanner_Bytes m1) = repeat "a"%char 3000 /\
          nth 0 (load h2 (Scanner_Bytes m1)) zero = "b"%char
      | _ => False
      end
  | _ => False
  end.
Proof. vm_compute. split; reflexivity. Qed.

(** ** The helper [subfields] of the map-based revision *)

Lemma subfields_codes_spec (sf0 : ascii) (sf1 : bytes) (codes : list string)
    (res : list SubField) :
  subfields_codes sf0 sf1 codes res =
  res ++
  (if existsb (fun code => String.eqb (string_of_byte sf0) code) codes
   then [mkSubField (string_of_byte sf0) (string_of_bytes sf1)]
   else []).
Proof.
  induction codes as [|code codes IH]; simpl; [now rewrite app_nil_r|].
  destruct (String.eqb (string_of_byte sf0) code); [reflexivity|exact IH].
Qed.

(** [subfields] keeps the order of the field and skips empty chunks
    without an error. *)
Lemma subfields_in_field_order (data : bytes) (codes : list string) :
  codes <> [] ->
  subfields data codes =
  filter (fun sf => existsb (fun code => String.eqb (sf_Code sf) code) codes)
    (map subfield_of_chunk
       (filter (fun chunk => negb (Nat.eqb (List.length chunk) 0))
          (bytes_Split data st))).
Proof.
  intros Hc. unfold subfields.
  rewrite fold_left_appending with
    (sel := fun sf =>
              match sf with
              | [] => []
              | c :: v =>
                  if existsb (fun code => String.eqb (string_of_byte c) code) codes
                  then [mkSubField (string_of_byte c) (string_of_bytes v)]
                  else []
              end).
  - simpl. induction (bytes_Split data st) as [|chunk chunks IH]; [reflexivity|].
    destruct chunk as [|c v]; simpl; [exact IH|].
    destruct (existsb (fun code => String.eqb (string_of_byte c) code) codes);
      simpl; now rewrite IH.
  - intros acc [|c v]; simpl; [now rewrite app_nil_r|].
    destruct codes as [|code codes]; [contradiction|].
    change (0 <? Z.of_nat (List.length (code :: codes))) with true.
    cbv iota. apply subfields_codes_spec.
Qed.

Example subfields_skips_empty_chunk :
  subfields (skipn 3 content_empty_chunk) [] =
  [mkSubField "a" "Poetry"; mkSubField "x" "Poetry."].
Proof. reflexivity. Qed.

(** ** The pieces of [strings.Split(s, "")] *)

Lemma utf8_width_pos (s : bytes) : s <> [] -> (1 <= utf8_width s)%nat.
Proof.
  destruct s as [|s0 t]; [contradiction|]. intros _. unfold utf8_width.
  repeat match goal with
         | |- context [if ?c then _ else _] => destruct c
         | |- context [match ?l with [] => _ | _ :: _ => _ end] => destruct l
         end; lia.
Qed.

(** The counter of [explode_loop] is never used up: the pieces of
    [explode s], put together, are [s]. *)
Lemma explode_loop_concat (n : nat) :
  forall s, (List.length s <= n)%nat ->
    flat_map bytes_of_string (explode_loop n s) = s.
Proof.
  induction n as [|n IH]; intros s Hn.
  - destruct s; [reflexivity|simpl in Hn; lia].
  - destruct s as [|c s]; [reflexivity|].
    cbn [explode_loop flat_map]. 
    pose proof (utf8_width_pos (c :: s) ltac:(discriminate)) as Hw.
    unfold bytes_of_string at 1, string_of_bytes.
    rewrite list_ascii_of_string_of_list_ascii, IH.
    + apply firstn_skipn.
    + rewrite length_skipn. simpl List.length in *. lia.
Qed.

Lemma explode_concat (s : string) :
  flat_map bytes_of_string (explode s) = bytes_of_string s.
Proof.
  unfold explode. apply explode_loop_concat.
  pose proof (len_bytes_of_string s) as H. unfold len, slen in H. lia.
Qed.

(** ** A directory, entry after entry *)

Lemma scanDirs_app (k : nat) :
  forall (rec : MarcRecord) (data whole more : bytes),
    List.length whole = (12 * k)%nat ->
    scanDirs rec data (whole ++ more) =
    r <- scanDirs rec data whole ;;
    match r with
    | (rec', None) => scanDirs rec' data more
    | (rec', Some err) => Returns (rec', Some err)
    end.
Proof.
  induction k as [|k IH]; intros rec data whole more Hw.
  - destruct whole; [|discriminate]. simpl app.
    rewrite (scanDirs_unfold rec data []). reflexivity.
  - assert (He : List.length (firstn 12 whole) = 12%nat)
      by (rewrite length_firstn; lia).
    assert (Hw' : List.length (skipn 12 whole) = (12 * k)%nat)
      by (rewrite length_skipn; lia).
    rewrite <- (firstn_skipn 12 whole).
    set (e := firstn 12 whole) in *. set (w := skipn 12 whole) in *.
    destruct (entry_decompose e) as (t & l & s & x & Ee & Ht & Hl & Hs);
      [unfold len; lia|].
    assert (x = []) as ->.
    { apply length_zero_iff_nil. rewrite Ee, !length_app in He. lia. }
    rewrite (scanDirs_unfold rec data ((e ++ w) ++ more)).
    rewrite (scanDirs_unfold rec data (e ++ w)).
    replace (12 <=? len ((e ++ w) ++ more)) with true
      by (symmetry; apply Z.leb_le; unfold len; rewrite !length_app; lia).
    replace (12 <=? len (e ++ w)) with true
      by (symmetry; apply Z.leb_le; unfold len; rewrite !length_app; lia).
    rewrite <- app_assoc, !scanEntry_prefix by trivial.
    destruct (scanEntry rec data e) as [[rec'|rec' err]|p]; cbn [bind];
      try reflexivity.
    rewrite Ee, app_nil_r, <- !app_assoc.
    rewrite !(entry_rest t l s _ Ht Hl Hs). cbn [bind].
    now apply IH.
Qed.

(** A record whose last directory entry reaches beyond the data region:
    the entries before it are decoded, and the decoder returns the error
    of the bounds check. *)
Lemma scanDirs_last_entry_out_of_bounds (k : nat)
    (rec rec' : MarcRecord) (data whole t l s : bytes) (length begin : Z) :
  List.length whole = (12 * k)%nat ->
  scanDirs rec data whole = Returns (rec', None) ->
  List.length t = 3%nat -> List.length l = 4%nat -> List.length s = 5%nat ->
  Atoi (string_of_bytes l) = Some length ->
  Atoi (string_of_bytes s) = Some begin ->
  len data <= begin + length - 1 ->
  scanDirs rec data (whole ++ t ++ l ++ s) =
  Returns (rec', Some "Reported field length incorrect").
Proof.
  intros Hw Hwhole Ht Hl Hs Hlength Hbegin Hout.
  rewrite (scanDirs_app k rec data whole _ Hw), Hwhole. cbn [bind].
  rewrite scanDirs_unfold.
  replace (12 <=? len (t ++ l ++ s)) with true
    by (symmetry; apply Z.leb_le; unfold len; rewrite !length_app; lia).
  rewrite <- (app_nil_r s).
  rewrite (scanEntry_out_of_bounds rec' data t l s [] length begin);
    trivial.
Qed.

(** ** [splitFunc] *)

Lemma len_load_le (h : store) (sl : slice_t) :
  0 <= s_len sl -> len (load h sl) <= s_len sl.
Proof.
  intros H. unfold load, len. destruct (s_arr sl); simpl; [|lia].
  rewrite length_firstn. lia.
Qed.

(** Before the end of the input, [splitFunc] cuts at the first record
    terminator, or asks for more bytes. *)
Lemma splitFunc_before_EOF (h : store) (data : slice_t) :
  let i := IndexByte (load h data) rt in
  splitFunc h data false =
  if 0 <=? i then (i + 1, subslice data 0 i, None) else (0, nil_slice, None).
Proof. reflexivity. Qed.

(** At the end of the input, [splitFunc] returns all the bytes it is
    given, without a look at them. *)
Lemma splitFunc_at_EOF (h : store) (data : slice_t) :
  s_len data <> 0 -> splitFunc h data true = (s_len data, data, None).
Proof.
  intros H. unfold splitFunc. simpl.
  destruct (s_len data =? 0) eqn:E; [|reflexivity].
  apply Z.eqb_eq in E. contradiction.
Qed.

Lemma splitFunc_no_error (h : store) (data : slice_t) (atEOF : bool) :
  snd (splitFunc h data atEOF) = None.
Proof.
  unfold splitFunc.
  repeat match goal with
         | |- context [if ?c then _ else _] => destruct c
         end; reflexivity.
Qed.

(** ** [Scan] returns *)

Lemma overwrite_length (arr : bytes) (off : nat) (data : bytes) :
  (off <= List.length arr)%nat ->
  List.length (overwrite arr off data) = List.length arr.
Proof.
  intros H. unfold overwrite.
  rewrite !length_app, !length_firstn, length_skipn. lia.
Qed.

Lemma nth_set_nth_eq {A : Type} (l : list A) (i : nat) (x d : A) :
  (i < List.length l)%nat -> nth i (set_nth l i x) d = x.
Proof.
  revert i. induction l as [|y l IH]; intros [|i] H; simpl in *;
    try lia; auto.
  apply IH. lia.
Qed.

Lemma store_write_same (h : store) (l : loc) (off : Z) (data : bytes) :
  (l < List.length h)%nat ->
  array_at (store_write h l off data) l =
  overwrite (array_at h l) (Z.to_nat off) data.
Proof. intros H. unfold array_at, store_write. now apply nth_set_nth_eq. Qed.

Lemma buf_len_store_write (h : store) (s s' : Scanner) (l : loc) (off : Z)
    (data : bytes) :
  sc_buf s = Some l -> sc_buf s' = Some l -> (l < List.length h)%nat ->
  0 <= off <= buf_len h s ->
  buf_len (store_write h l off data) s' = buf_len h s.
Proof.
  intros E E' Hl Hoff. unfold buf_len in *. rewrite E in *. rewrite E'.
  rewrite store_write_same by exact Hl. unfold len in *.
  rewrite overwrite_length; [reflexivity|lia].
Qed.

Lemma scanner_inv_same_buf (h : store) (s s' : Scanner) :
  scanner_inv h s ->
  sc_buf s' = sc_buf s -> sc_maxTokenSize s' = sc_maxTokenSize s ->
  0 <= sc_start s' <= sc_end s' -> sc_end s' <= buf_len h s ->
  scanner_inv h s'.
Proof.
  intros (Hok & H0 & H1 & H2 & H3) Eb Em Hs He.
  assert (El : buf_len h s' = buf_len h s) by (unfold buf_len; now rewrite Eb).
  split; [intros l Hl; apply Hok; now rewrite <- Eb|].
  rewrite El, Em. lia.
Qed.

Lemma setErr_fields (s : Scanner) (e : error) :
  sc_buf (setErr s e) = sc_buf s /\
  sc_maxTokenSize (setErr s e) = sc_maxTokenSize s /\
  sc_start (setErr s e) = sc_start s /\ sc_end (setErr s e) = sc_end s.
Proof.
  unfold setErr. destruct (sc_err s) as [e'|]; [|now repeat split].
  destruct (String.eqb e' EOF); now repeat split.
Qed.

Lemma setErr_sets (s : Scanner) (e : error) :
  sc_err s = None -> sc_err (setErr s e) = Some e.
Proof. intros H. unfold setErr. now rewrite H. Qed.

Lemma scanner_inv_setErr (h : store) (s : Scanner) (e : error) :
  scanner_inv h s -> scanner_inv h (setErr s e).
Proof.
  intros H. destruct (setErr_fields s e) as (Eb & Em & Es & Ee).
  apply (scanner_inv_same_buf h s); trivial.
  - rewrite Es, Ee. destruct H as (_ & ? & ? & _). lia.
  - rewrite Ee. destruct H as (_ & _ & _ & ? & _). lia.
Qed.

Section ScanReturns.

Context {R : Type} {reader : Reader R}.

Lemma read_loop_progress (k : nat) :
  forall h s r h' s' r',
    scanner_inv h s -> sc_err s = None ->
    read_loop k h s r = (h', s', r') ->
    scanner_inv h' s' /\
    sc_start s' = sc_start s /\
    sc_maxTokenSize s' = sc_maxTokenSize s /\
    (sc_err s' <> None \/ (sc_err s' = None /\ sc_end s < sc_end s')).
Proof.
  induction k as [|k IH]; intros h s r h' s' r' Hinv Herr H;
    cbn [read_loop] in H;
    destruct (Read r (buf_len h s - sc_end s)) as [[data err] r1];
    destruct (buf_len h s - sc_end s <? len data) eqn:Eroom.
  1, 3: injection H as <- <- <-;
          destruct (setErr_fields s ErrBadReadCount) as (_ & Em & Es & _);
          split; [now apply scanner_inv_setErr|];
          split; [exact Es|]; split; [exact Em|];
          left; rewrite setErr_sets by exact Herr; discriminate.
  all: apply Z.ltb_ge in Eroom; pose proof (len_nonneg data) as Hn;
    set (h1 := match sc_buf s with
               | Some l => store_write h l (sc_end s) data
               | None => h
               end) in *;
    set (s1 := with_buf s (sc_buf s) (sc_start s) (sc_end s + len data)) in *;
    assert (Hinv1 : scanner_inv h1 s1)
      by (destruct Hinv as (Hok & H0 & H1 & H2 & H3);
          assert (El : buf_len h1 s1 = buf_len h s)
            by (unfold h1; destruct (sc_buf s) as [l|] eqn:E;
                [apply buf_len_store_write; trivial;
                 [apply Hok; exact E|lia]
                |unfold buf_len; simpl; now rewrite E]);
          split;
          [intros l Hl; unfold h1; simpl in Hl; rewrite Hl;
           rewrite store_write_length; apply Hok; exact Hl
          |rewrite El; simpl; lia]).
  - destruct err as [e|]; [|destruct (0 <? len data) eqn:En].
    + injection H as <- <- <-.
      destruct (setErr_fields s1 e) as (_ & Em & Es & _).
      split; [now apply scanner_inv_setErr|].
      split; [exact Es|]. split; [exact Em|].
      left. rewrite setErr_sets by exact Herr. discriminate.
    + injection H as <- <- <-. apply Z.ltb_lt in En.
      split; [exact Hinv1|]. split; [reflexivity|]. split; [reflexivity|].
      right. split; [exact Herr|]. simpl. lia.
    + injection H as <- <- <-.
      destruct (setErr_fields s1 ErrNoProgress) as (_ & Em & Es & _).
      split; [now apply scanner_inv_setErr|].
      split; [exact Es|]. split; [exact Em|].
      left. rewrite setErr_sets by exact Herr. discriminate.
  - destruct err as [e|]; [|destruct (0 <? len data) eqn:En].
    + injection H as <- <- <-.
      destruct (setErr_fields s1 e) as (_ & Em & Es & _).
      split; [now apply scanner_inv_setErr|].
      split; [exact Es|]. split; [exact Em|].
      left. rewrite setErr_sets by exact Herr. discriminate.
    + injection H as <- <- <-. apply Z.ltb_lt in En.
      split; [exact Hinv1|]. split; [reflexivity|]. split; [reflexivity|].
      right. split; [exact Herr|]. simpl. lia.
    + apply Z.ltb_ge in En.
      destruct (IH _ _ _ _ _ _ Hinv1 Herr H) as (Hi & Es & Em & Hp).
      split; [exact Hi|]. split; [exact Es|]. split; [exact Em|].
      destruct Hp as [Hp|[Hp1 Hp2]]; [now left|].
      right. split; [exact Hp1|]. simpl in Hp2. lia.
Qed.

Lemma Scan_shift_inv (h : store) (s : Scanner) (h' : store) (s' : Scanner) :
  scanner_inv h s -> Scan_shift h s = (h', s') ->
  scanner_inv h' s' /\
  sc_end s' - sc_start s' = sc_end s - sc_start s /\
  sc_maxTokenSize s' = sc_maxTokenSize s /\ sc_err s' = sc_err s.
Proof.
  intros Hinv. unfold Scan_shift.
  match goal with |- context [if ?c then _ else _] => destruct c end;
    intros H; injection H as <- <-; [|split; [exact Hinv|now repeat split]].
  destruct Hinv as (Hok & H0 & H1 & H2 & H3).
  split; [|simpl; repeat split; lia].
  set (s1 := with_buf s (sc_buf s) 0 (sc_end s - sc_start s)).
  assert (El : buf_len
                 (match sc_buf s with
                  | Some l =>
                      store_write h l 0
                        (load h (buf_slice s (sc_start s) (sc_end s)))
                  | None => h
                  end) s1 = buf_len h s).
  { destruct (sc_buf s) as [l|] eqn:E.
    - apply buf_len_store_write; trivial; [apply Hok; exact E|lia].
    - unfold buf_len. simpl. now rewrite E. }
  split.
  - intros l Hl. simpl in Hl. rewrite Hl. rewrite store_write_length.
    apply Hok. exact Hl.
  - rewrite El. simpl. lia.
Qed.

Lemma Scan_grow_inv (h : store) (s : Scanner) (h' : store) (s' : Scanner) :
  scanner_inv h s -> Scan_grow h s = Some (h', s') ->
  scanner_inv h' s' /\
  sc_end s' - sc_start s' = sc_end s - sc_start s /\
  sc_maxTokenSize s' = sc_maxTokenSize s /\ sc_err s' = sc_err s /\
  sc_end s' < buf_len h' s'.
Proof.
  intros Hinv. pose proof Hinv as (Hok & H0 & H1 & H2 & H3).
  unfold Scan_grow. cbv zeta.
  destruct (sc_end s =? buf_len h s) eqn:Efull.
  - apply Z.eqb_eq in Efull.
    destruct ((sc_maxTokenSize s <=? buf_len h s) ||
              (maxInt / 2 <? buf_len h s)) eqn:Elong; [discriminate|].
    apply orb_false_iff in Elong. destruct Elong as [Elong _].
    apply Z.leb_gt in Elong.
    set (n0 := buf_len h s * 2).
    set (n1 := if n0 =? 0 then startBufSize else n0).
    set (n2 := if sc_maxTokenSize s <? n1 then sc_maxTokenSize s else n1).
    assert (Hn2 : buf_len h s < n2 <= sc_maxTokenSize s).
    { unfold n2, n1, n0, startBufSize.
      destruct (buf_len h s * 2 =? 0) eqn:E0;
        [apply Z.eqb_eq in E0|apply Z.eqb_neq in E0];
        match goal with |- context [if ?c then _ else _] =>
          destruct c eqn:E1 end;
        try apply Z.ltb_lt in E1; try apply Z.ltb_ge in E1; lia. }
    unfold alloc. intros H. injection H as <- <-.
    assert (Hlen : len (overwrite (repeat zero (Z.to_nat n2)) 0
                          (load h (buf_slice s (sc_start s) (sc_end s)))) = n2).
    { unfold len. rewrite overwrite_length by lia.
      rewrite repeat_length. lia. }
    match goal with
    | |- context [buf_len ?a ?b] =>
        assert (El : buf_len a b = n2)
          by (unfold buf_len; simpl; now rewrite alloc_new)
    end.
    split; [|rewrite El; simpl; repeat split; lia].
    split.
    + intros l Hl. simpl in Hl. injection Hl as <-.
      rewrite length_app. simpl. lia.
    + rewrite El. simpl. lia.
  - apply Z.eqb_neq in Efull. intros H. injection H as <- <-.
    split; [exact Hinv|]. repeat split. lia.
Qed.

Lemma Scan_split_inv (h : store) (s : Scanner) (r : R) :
  scanner_inv h s ->
  match Scan_split h s r with
  | inl (Scanned ok h' s' r') => h' = h /\ scanner_inv h s'
  | inl _ => False
  | inr s' =>
      sc_buf s' = sc_buf s /\ sc_start s' = sc_start s /\
      sc_end s' = sc_end s /\ sc_maxTokenSize s' = sc_maxTokenSize s /\
      sc_err s' = sc_err s
  end.
Proof.
  intros Hinv. pose proof Hinv as (Hok & H0 & H1 & H2 & H3).
  unfold Scan_split.
  destruct ((sc_start s <? sc_end s) || is_some (sc_err s)) eqn:G;
    [|now repeat split].
  unfold splitFunc.
  destruct (is_some (sc_err s) && (s_len (buf_slice s (sc_start s) (sc_end s)) =? 0))
    eqn:Eempty.
  { (* the end of the input, and no bytes left *)
    cbn [fst snd]. cbv iota beta.
    replace (0 <? 0) with false by reflexivity.
    replace (sc_end s - sc_start s <? 0) with false
      by (symmetry; apply Z.ltb_ge; lia).
    cbn [is_nil nil_slice s_arr negb].
    cbn [with_token with_buf sc_buf sc_start sc_end sc_maxTokenSize sc_err].
    repeat split. lia. }
  assert (Hbuf : is_some (sc_err s) = true \/ sc_start s < sc_end s).
  { apply orb_true_iff in G. destruct G as [G|G]; [|now left].
    right. now apply Z.ltb_lt. }
  destruct (sc_buf s) as [l|] eqn:Eb.
  2: { (* without a buffer there are no bytes *)
    exfalso. unfold buf_len in H2. rewrite Eb in H2.
    unfold buf_slice in Eempty. rewrite Eb in Eempty. simpl in Eempty.
    rewrite andb_true_r in Eempty. destruct Hbuf as [Hb|Hb]; [congruence|lia]. }
  assert (Edata : buf_slice s (sc_start s) (sc_end s) =
                  mkSlice (Some l) (sc_start s) (sc_end s - sc_start s))
    by (unfold buf_slice; now rewrite Eb).
  rewrite Edata in *. cbn [s_len] in *.
  assert (Hinv' : forall st en,
             0 <= st <= en -> en <= sc_end s ->
             forall s', sc_buf s' = Some l -> sc_start s' = st ->
                        sc_end s' = en ->
                        sc_maxTokenSize s' = sc_maxTokenSize s ->
                        scanner_inv h s').
  { intros st en Hst Hen s' E1 E2 E3 E4.
    apply (scanner_inv_same_buf h s); trivial; try congruence; lia. }
  destruct (is_some (sc_err s)) eqn:Eeof.
  - (* the end of the input: all the bytes left *)
    simpl in Eempty. apply Z.eqb_neq in Eempty.
    cbv iota beta.
    replace (sc_end s - sc_start s <? 0) with false
      by (symmetry; apply Z.ltb_ge; lia).
    replace (sc_end s - sc_start s <? sc_end s - sc_start s) with false
      by (symmetry; apply Z.ltb_ge; lia).
    cbn [is_nil s_arr negb].
    replace (0 <? sc_end s - sc_start s) with true
      by (symmetry; apply Z.ltb_lt; lia).
    rewrite orb_true_r. split; [reflexivity|].
    apply (Hinv' (sc_start s + (sc_end s - sc_start s)) (sc_end s));
      try reflexivity; lia.
  - (* more input may come: up to the first terminator *)
    cbn [andb]. cbv iota beta.
    set (data := mkSlice (Some l) (sc_start s) (sc_end s - sc_start s)).
    pose proof (IndexByte_range (load h data) rt) as Hi.
    pose proof (len_load_le h data ltac:(simpl; lia)) as Hl.
    cbn [s_len data] in Hl.
    destruct (0 <=? IndexByte (load h data) rt) eqn:Ei.
    + apply Z.leb_le in Ei.
      replace (IndexByte (load h data) rt + 1 <? 0) with false
        by (symmetry; apply Z.ltb_ge; lia).
      replace (sc_end s - sc_start s <? IndexByte (load h data) rt + 1)
        with false by (symmetry; apply Z.ltb_ge; lia).
      cbn [is_nil s_arr subslice data negb].
      cbn [with_token with_buf sc_err]. rewrite Eeof. cbn [negb orb].
      split; [reflexivity|].
      apply (Hinv' (sc_start s + (IndexByte (load h data) rt + 1)) (sc_end s));
        try reflexivity; lia.
    + replace (0 <? 0) with false by reflexivity.
      replace (sc_end s - sc_start s <? 0) with false
        by (symmetry; apply Z.ltb_ge; lia).
      cbn [is_nil nil_slice s_arr negb].
      cbn [with_token with_buf sc_buf sc_start sc_end sc_maxTokenSize sc_err].
      repeat split. lia.
Qed.

Lemma Scan_loop_returns (fuel : nat) :
  forall h s r,
    scanner_inv h s ->
    match sc_err s with
    | None =>
        (Z.to_nat (sc_maxTokenSize s - (sc_end s - sc_start s)) + 2 <= fuel)%nat
    | Some _ => (1 <= fuel)%nat
    end ->
    exists ok h' s' r',
      Scan_loop fuel h s r = Scanned ok h' s' r' /\ scanner_inv h' s'.
Proof.
  induction fuel as [|fuel IH]; intros h s r Hinv Hfuel.
  - destruct (sc_err s); lia.
  - cbn [Scan_loop].
    pose proof (Scan_split_inv h s r Hinv) as Hsplit.
    destruct (Scan_split h s r) as [[ok h' s' r'| |]|s1];
      try contradiction.
    + destruct Hsplit as [-> Hinv']. eauto 6.
    + destruct Hsplit as (Eb & Es & Ee & Em & Eerr).
      assert (Hinv1 : scanner_inv h s1).
      { pose proof Hinv as (Hok & H0 & H1 & H2 & H3).
        apply (scanner_inv_same_buf h s); trivial; rewrite ?Es, ?Ee; lia. }
      destruct (sc_err s1) as [e|] eqn:Eerr1.
      * (* the end of the input has been seen *)
        do 4 eexists. split; [reflexivity|].
        pose proof Hinv1 as (Hok & H0 & H1 & H2 & H3).
        apply (scanner_inv_same_buf h s1); trivial; simpl; lia.
      * rewrite <- Eerr in Hfuel.
        destruct (Scan_shift h s1) as [h2 s2] eqn:E2.
        destruct (Scan_shift_inv h s1 h2 s2 Hinv1 E2)
          as (Hinv2 & Ed2 & Em2 & Ee2).
        destruct (Scan_grow h2 s2) as [[h3 s3]|] eqn:E3.
        -- destruct (Scan_grow_inv h2 s2 h3 s3 Hinv2 E3)
             as (Hinv3 & Ed3 & Em3 & Ee3 & Hroom).
           destruct (read_loop maxConsecutiveEmptyReads h3 s3 r)
             as [[h4 s4] r4] eqn:E4.
           destruct (read_loop_progress _ _ _ _ _ _ _ Hinv3
                       ltac:(congruence) E4)
             as (Hinv4 & Es4 & Em4 & Hp).
           apply IH; [exact Hinv4|].
           destruct Hp as [Hp|[Hp1 Hp2]].
           ++ destruct (sc_err s4); [lia|contradiction].
           ++ rewrite Hp1.
              pose proof Hinv4 as (_ & ? & ? & ? & ?).
              pose proof Hinv1 as (_ & ? & ? & ? & ?).
              lia.
        -- do 4 eexists. split; [reflexivity|].
           now apply scanner_inv_setErr.
Qed.

(** With the indices of the scanner in its buffer, [Scan] returns: the
    bound on the passes of its loop suffices, and the condition on the
    scanner holds again. *)
Lemma Scan_returns (h : store) (s : Scanner) (r : R) :
  scanner_inv h s ->
  exists ok h' s' r', Scan h s r = Scanned ok h' s' r' /\ scanner_inv h' s'.
Proof.
  intros Hinv. unfold Scan. destruct (sc_done s); [eauto 6|].
  apply Scan_loop_returns.
  - pose proof Hinv as (Hok & H0 & H1 & H2 & H3).
    apply (scanner_inv_same_buf h s); trivial; simpl; lia.
  - simpl. destruct (sc_err s); [lia|].
    destruct Hinv as (_ & ? & ? & _ & _). lia.
Qed.

End ScanReturns.

Lemma NewMarcIterator_inv (h : store) : scanner_inv h NewMarcIterator.
Proof.
  split; [intros l H; discriminate|]. vm_compute. repeat split; discriminate.
Qed.

Lemma Value_inv (h : store) (m : Scanner) (h' : store) (d : slice_t)
    (res : MarcRecord * option error) :
  scanner_inv h m ->
  MarcIterator_Value h m = Returns (h', d, res) -> scanner_inv h' m.
Proof.
  intros (Hok & H0 & H1 & H2 & H3) H.
  apply Value_store in H. destruct H as (-> & _ & _).
  assert (El : buf_len (h ++ [load h (Scanner_Bytes m)]) m = buf_len h m).
  { unfold buf_len. destruct (sc_buf m) as [l|] eqn:E; [|reflexivity].
    rewrite alloc_old; [reflexivity|]. now apply Hok. }
  split.
  - intros l Hl. rewrite length_app. simpl. specialize (Hok l Hl). lia.
  - rewrite El. lia.
Qed.

(** However an iterator has been used, [Next] returns. *)
Lemma Next_returns {R : Type} {reader : Reader R}
    (c c' : store * Scanner * R) :
  iterator_steps c c' ->
  scanner_inv (fst (fst c)) (snd (fst c)) ->
  scanner_inv (fst (fst c')) (snd (fst c')) /\
  exists ok h m r,
    MarcIterator_Next (fst (fst c')) (snd (fst c')) (snd c') =
    Scanned ok h m r.
Proof.
  induction 1 as [[[h m] r]|c1 [[h2 m2] r2] c3 H1 H2 IH]; simpl; intros Hinv.
  - split; [exact Hinv|].
    destruct (Scan_returns h m r Hinv) as (ok & h' & m' & r' & E & _).
    eauto.
  - apply IH. simpl. inversion H1; subst; simpl in *.
    + match goal with
      | H : MarcIterator_Next ?h ?m ?r = _ |- _ =>
          destruct (Scan_returns h m r Hinv) as (ok' & h' & m' & r' & E & Hi);
          unfold MarcIterator_Next in H; rewrite E in H;
          injection H as <- <- <- <-; exact Hi
      end.
    + eapply Value_inv; eassumption.
Qed.

(** ** Records of a stream *)

Lemma IndexByte_none (b : bytes) (c : ascii) :
  IndexByte b c = -1 -> bytes_Split b c = [b].
Proof.
  induction b as [|x b IH]; simpl; [reflexivity|].
  destruct (Ascii.eqb x c); [discriminate|].
  pose proof (IndexByte_range b c) as Hr.
  destruct (IndexByte b c <? 0) eqn:E.
  - intros _. apply Z.ltb_lt in E. rewrite IH by lia. reflexivity.
  - apply Z.ltb_ge in E. lia.
Qed.

Lemma IndexByte_some (b : bytes) (c : ascii) :
  0 <= IndexByte b c ->
  bytes_Split b c =
  firstn (Z.to_nat (IndexByte b c)) b ::
  bytes_Split (skipn (Z.to_nat (IndexByte b c + 1)) b) c.
Proof.
  induction b as [|x b IH]; simpl; [lia|].
  destruct (Ascii.eqb x c) eqn:Ex; [reflexivity|].
  destruct (IndexByte b c <? 0) eqn:E; [lia|].
  apply Z.ltb_ge in E. intros _. rewrite IH by exact E.
  replace (Z.to_nat (IndexByte b c + 1 + 1))
    with (S (Z.to_nat (IndexByte b c + 1))) by lia.
  replace (firstn (Z.to_nat (IndexByte b c + 1)) (x :: b))
    with (x :: firstn (Z.to_nat (IndexByte b c)) b)
    by (replace (Z.to_nat (IndexByte b c + 1))
          with (S (Z.to_nat (IndexByte b c))) by lia; reflexivity).
  reflexivity.
Qed.

Lemma IndexByte_firstn (b : bytes) (c : ascii) :
  0 <= IndexByte b c -> ~ In c (firstn (Z.to_nat (IndexByte b c)) b).
Proof.
  induction b as [|x b IH]; simpl; [lia|].
  destruct (Ascii.eqb x c) eqn:Ex; [intros _ []|].
  destruct (IndexByte b c <? 0) eqn:E; [lia|].
  apply Z.ltb_ge in E. intros _.
  replace (Z.to_nat (IndexByte b c + 1)) with (S (Z.to_nat (IndexByte b c)))
    by lia.
  simpl. intros [->|Hin]; [now rewrite Ascii.eqb_refl in Ex|].
  now apply IH.
Qed.

Lemma IndexByte_app_found (a b : bytes) (c : ascii) :
  0 <= IndexByte a c -> IndexByte (a ++ b) c = IndexByte a c.
Proof.
  induction a as [|x a IH]; simpl; [lia|].
  destruct (Ascii.eqb x c); [reflexivity|].
  destruct (IndexByte a c <? 0) eqn:E; [lia|].
  pose proof E as E'. apply Z.ltb_ge in E'. intros _.
  rewrite IH by exact E'. now rewrite E.
Qed.

Lemma IndexByte_app_not_found (a b : bytes) (c : ascii) :
  IndexByte a c = -1 ->
  IndexByte (a ++ b) c =
  if IndexByte b c <? 0 then -1 else len a + IndexByte b c.
Proof.
  induction a as [|x a IH]; cbn [IndexByte app].
  - intros _. pose proof (IndexByte_range b c) as Hr.
    change (len []) with 0.
    destruct (IndexByte b c <? 0) eqn:E; [apply Z.ltb_lt in E; lia|lia].
  - destruct (Ascii.eqb x c); [discriminate|].
    pose proof (IndexByte_range a c) as Hr.
    destruct (IndexByte a c <? 0) eqn:E; [|apply Z.ltb_ge in E; lia].
    apply Z.ltb_lt in E. intros _. rewrite IH by lia.
    pose proof (len_nonneg a) as Ha.
    assert (El : len (x :: a) = len a + 1)
      by (unfold len; simpl List.length; lia).
    destruct (IndexByte b c <? 0) eqn:Eb; [reflexivity|].
    apply Z.ltb_ge in Eb.
    replace (len a + IndexByte b c <? 0) with false
      by (symmetry; apply Z.ltb_ge; lia).
    lia.
Qed.

Lemma bytes_Split_not_nil (b : bytes) (c : ascii) : bytes_Split b c <> [].
Proof.
  destruct b as [|x b]; simpl; [discriminate|].
  destruct (Ascii.eqb x c); [discriminate|].
  destruct (bytes_Split b c); discriminate.
Qed.

Lemma records_found (input : bytes) :
  0 <= IndexByte input rt ->
  records input =
  firstn (Z.to_nat (IndexByte input rt)) input ::
  records (skipn (Z.to_nat (IndexByte input rt + 1)) input).
Proof.
  intros H. unfold records. cbv zeta. rewrite (IndexByte_some input rt H).
  set (c0 := firstn (Z.to_nat (IndexByte input rt)) input).
  set (chunks := bytes_Split (skipn (Z.to_nat (IndexByte input rt + 1)) input) rt).
  assert (Hne : chunks <> []) by apply bytes_Split_not_nil.
  destruct chunks as [|c1 chunks]; [contradiction|].
  change (last (c0 :: c1 :: chunks) []) with (last (c1 :: chunks) []).
  change (removelast (c0 :: c1 :: chunks))
    with (c0 :: removelast (c1 :: chunks)).
  destruct (last (c1 :: chunks) []); reflexivity.
Qed.

Lemma records_none (input : bytes) :
  IndexByte input rt = -1 ->
  records input = match input with [] => [] | _ => [input] end.
Proof.
  intros H. unfold records. cbv zeta. rewrite (IndexByte_none input rt H).
  simpl. destruct input; reflexivity.
Qed.

Lemma plainReader_eof_apart : eof_apart plain_rest.
Proof.
  intros [rest] n Hn. simpl. destruct rest as [|x rest].
  - exists (mkPlainReader []). split; reflexivity.
  - exists (firstn (Z.to_nat n) (x :: rest)),
      (mkPlainReader (skipn (Z.to_nat n) (x :: rest))).
    split; [reflexivity|]. split.
    + unfold len. rewrite length_firstn. simpl List.length. lia.
    + simpl plain_rest. now rewrite firstn_skipn.
Qed.

(** ** Bytes in the buffer of the scanner *)

Lemma overwrite_fits (arr : bytes) (off : nat) (data : bytes) :
  (off + List.length data <= List.length arr)%nat ->
  overwrite arr off data =
  firstn off arr ++ data ++ skipn (off + List.length data) arr.
Proof.
  intros H. unfold overwrite.
  rewrite (@firstn_all2 _ (List.length arr - off) data) by lia. reflexivity.
Qed.

Lemma firstn_skipn_firstn {A : Type} (l : list A) (n m : nat) :
  firstn m (skipn n l) = skipn n (firstn (n + m) l).
Proof.
  revert l. induction n as [|n IH]; intros l; simpl; [reflexivity|].
  destruct l as [|x l]; simpl; [now rewrite firstn_nil|apply IH].
Qed.

Lemma len_load (h : store) (l : loc) (st k : Z) :
  0 <= st -> 0 <= k -> st + k <= len (array_at h l) ->
  len (load h (mkSlice (Some l) st k)) = k.
Proof.
  intros H1 H2 H3. unfold load, len in *. simpl.
  rewrite length_firstn, length_skipn. lia.
Qed.

Lemma load_write_append (h : store) (l : loc) (st en : Z) (data : bytes) :
  (l < List.length h)%nat ->
  0 <= st <= en -> en + len data <= len (array_at h l) ->
  load (store_write h l en data) (mkSlice (Some l) st (en + len data - st)) =
  load h (mkSlice (Some l) st (en - st)) ++ data.
Proof.
  intros Hl Hst Hen. unfold load. cbn [s_arr s_off s_len].
  rewrite store_write_same by exact Hl.
  unfold len in *. rewrite overwrite_fits by lia.
  set (arr := array_at h l) in *.
  assert (Hf : List.length (firstn (Z.to_nat en) arr) = Z.to_nat en)
    by (rewrite length_firstn; lia).
  rewrite skipn_app, Hf.
  replace (Z.to_nat st - Z.to_nat en)%nat with 0%nat by lia.
  cbn [skipn]. rewrite firstn_app, length_skipn, Hf.
  replace (Z.to_nat (en + Z.of_nat (List.length data) - st) -
           (Z.to_nat en - Z.to_nat st))%nat
    with (List.length data) by lia.
  rewrite firstn_app, Nat.sub_diag, firstn_all. cbn [firstn].
  rewrite app_nil_r. f_equal.
  - rewrite firstn_all2 by (rewrite length_skipn, Hf; lia).
    rewrite firstn_skipn_firstn. f_equal. f_equal. lia.
Qed.

Lemma load_write_start (h : store) (l : loc) (p : bytes) :
  (l < List.length h)%nat -> len p <= len (array_at h l) ->
  load (store_write h l 0 p) (mkSlice (Some l) 0 (len p)) = p.
Proof.
  intros Hl Hp. unfold load. cbn [s_arr s_off s_len].
  rewrite store_write_same by exact Hl. unfold len in *.
  rewrite overwrite_fits by (simpl; lia).
  cbn [Z.to_nat firstn skipn app]. rewrite Nat2Z.id.
  now rewrite firstn_app, Nat.sub_diag, firstn_all, app_nil_r.
Qed.

Lemma load_new_array (h : store) (n : nat) (p : bytes) :
  (List.length p <= n)%nat ->
  load (h ++ [overwrite (repeat zero n) 0 p])
       (mkSlice (Some (List.length h)) 0 (len p)) = p.
Proof.
  intros Hp. unfold load. cbn [s_arr s_off s_len]. rewrite alloc_new.
  rewrite overwrite_fits by (rewrite repeat_length; simpl; lia).
  unfold len. cbn [Z.to_nat firstn skipn app]. rewrite Nat2Z.id.
  now rewrite firstn_app, Nat.sub_diag, firstn_all, app_nil_r.
Qed.

Lemma load_prefix (h : store) (l : loc) (st k j : Z) :
  0 <= j <= k ->
  load h (subslice (mkSlice (Some l) st k) 0 j) =
  firstn (Z.to_nat j) (load h (mkSlice (Some l) st k)).
Proof.
  intros Hj. unfold load, subslice. cbn [s_arr s_off s_len].
  rewrite firstn_firstn.
  replace (st + 0) with st by lia. replace (j - 0) with j by lia.
  f_equal. lia.
Qed.

Lemma load_suffix (h : store) (l : loc) (st en a : Z) :
  0 <= st -> 0 <= a <= en - st ->
  load h (mkSlice (Some l) (st + a) (en - (st + a))) =
  skipn (Z.to_nat a) (load h (mkSlice (Some l) st (en - st))).
Proof.
  intros Hst Ha. unfold load. cbn [s_arr s_off s_len].
  rewrite skipn_firstn_comm, skipn_skipn. f_equal; [lia|f_equal; lia].
Qed.

Lemma load_old (h : store) (arr : bytes) (sl : slice_t) :
  (forall l, s_arr sl = Some l -> (l < List.length h)%nat) ->
  load (h ++ [arr]) sl = load h sl.
Proof.
  intros H. unfold load. destruct (s_arr sl) as [l|]; [|reflexivity].
  rewrite alloc_old; [reflexivity|]. now apply H.
Qed.

(** Decides the comparisons of integers in a goal by [lia]. *)
Ltac zbool :=
  repeat match goal with
         | |- context [?a <? ?b] =>
             first [ replace (a <? b) with true
                       by (symmetry; apply Z.ltb_lt; lia)
                   | replace (a <? b) with false
                       by (symmetry; apply Z.ltb_ge; lia) ]
         | |- context [?a <=? ?b] =>
             first [ replace (a <=? b) with true
                       by (symmetry; apply Z.leb_le; lia)
                   | replace (a <=? b) with false
                       by (symmetry; apply Z.leb_gt; lia) ]
         | |- context [?a =? ?b] =>
             first [ replace (a =? b) with true
                       by (symmetry; apply Z.eqb_eq; lia)
                   | replace (a =? b) with false
                       by (symmetry; apply Z.eqb_neq; lia) ]
         end.

Lemma pending_no_buffer (h : store) (s : Scanner) :
  sc_buf s = None -> pending h s = [].
Proof. intros E. unfold pending, buf_slice. now rewrite E. Qed.

Lemma pending_buffer (h : store) (s : Scanner) (l : loc) :
  sc_buf s = Some l ->
  pending h s = load h (mkSlice (Some l) (sc_start s) (sc_end s - sc_start s)).
Proof. intros E. unfold pending, buf_slice. now rewrite E. Qed.

Lemma len_pending (h : store) (s : Scanner) :
  scanner_inv h s -> len (pending h s) = sc_end s - sc_start s.
Proof.
  intros (Hok & H0 & H1 & H2 & H3). destruct (sc_buf s) as [l|] eqn:E.
  - rewrite (pending_buffer h s l E). unfold buf_len in H2. rewrite E in H2.
    apply len_load; lia.
  - rewrite (pending_no_buffer h s E). unfold buf_len in H2.
    rewrite E in H2. change (len []) with 0. lia.
Qed.

(** ** The framer, pass by pass *)

Section Framer.

Context {R : Type} {reader : Reader R}.

Lemma Scan_split_found (h : store) (s : Scanner) (r : R) :
  scanner_inv h s -> sc_err s = None ->
  0 <= IndexByte (pending h s) rt ->
  exists s',
    Scan_split h s r = inl (Scanned true h s' r) /\
    scanner_inv h s' /\ sc_err s' = None /\ sc_done s' = sc_done s /\
    sc_maxTokenSize s' = sc_maxTokenSize s /\
    load h (sc_token s') =
    firstn (Z.to_nat (IndexByte (pending h s) rt)) (pending h s) /\
    pending h s' =
    skipn (Z.to_nat (IndexByte (pending h s) rt + 1)) (pending h s).
Proof.
  intros Hinv Herr Hj. pose proof Hinv as (Hok & H0 & H1 & H2 & H3).
  pose proof (len_pending h s Hinv) as Hlen.
  pose proof (IndexByte_range (pending h s) rt) as Hr.
  destruct (sc_buf s) as [l|] eqn:Eb;
    [|rewrite (pending_no_buffer h s Eb) in Hj; simpl in Hj; lia].
  pose proof (pending_buffer h s l Eb) as Ep.
  unfold Scan_split, splitFunc. rewrite Herr. cbn [is_some andb orb].
  rewrite orb_false_r. zbool.
  unfold buf_slice. rewrite Eb. rewrite <- Ep.
  zbool. cbv iota beta. zbool. cbn [is_nil s_arr subslice negb].
  cbn [with_token with_buf sc_err]. rewrite Herr. cbn [is_some negb orb].
  eexists. split; [reflexivity|].
  split.
  { apply (scanner_inv_same_buf h s); trivial; simpl; try lia.
    now rewrite Eb. }
  split; [exact Herr|]. split; [reflexivity|]. split; [reflexivity|].
  cbn [sc_token with_token with_empties].
  split.
  - change (mkSlice (Some l) (sc_start s + 0) (IndexByte (pending h s) rt - 0))
      with (subslice (mkSlice (Some l) (sc_start s) (sc_end s - sc_start s)) 0
              (IndexByte (pending h s) rt)).
    rewrite load_prefix by lia. now rewrite Ep.
  - unfold pending at 1. unfold buf_slice. simpl.
    rewrite load_suffix by lia. now rewrite Ep.
Qed.

Lemma Scan_split_not_found (h : store) (s : Scanner) (r : R) :
  scanner_inv h s -> sc_err s = None ->
  IndexByte (pending h s) rt = -1 ->
  exists s1,
    Scan_split h s r = inr s1 /\
    sc_buf s1 = sc_buf s /\ sc_start s1 = sc_start s /\
    sc_end s1 = sc_end s /\ sc_maxTokenSize s1 = sc_maxTokenSize s /\
    sc_err s1 = None /\ sc_done s1 = sc_done s.
Proof.
  intros Hinv Herr Hj. pose proof Hinv as (Hok & H0 & H1 & H2 & H3).
  unfold Scan_split, splitFunc. rewrite Herr. cbn [is_some andb orb].
  rewrite orb_false_r.
  destruct (sc_start s <? sc_end s) eqn:G; [|exists s; now repeat split].
  fold (pending h s). rewrite Hj. cbv iota beta.
  change (0 <=? -1) with false. cbv iota beta. zbool.
  cbn [is_nil nil_slice s_arr negb].
  eexists. split; [reflexivity|]. simpl. repeat split; trivial. lia.
Qed.

Lemma Scan_split_at_EOF_empty (h : store) (s : Scanner) (r : R) (e : error) :
  sc_err s = Some e -> sc_start s = sc_end s ->
  exists s1,
    Scan_split h s r = inr s1 /\
    sc_buf s1 = sc_buf s /\ sc_start s1 = sc_start s /\
    sc_end s1 = sc_end s /\ sc_maxTokenSize s1 = sc_maxTokenSize s /\
    sc_err s1 = Some e /\ sc_done s1 = sc_done s.
Proof.
  intros Herr Hse.
  unfold Scan_split, splitFunc. rewrite Herr. cbn [is_some andb orb].
  rewrite orb_true_r.
  assert (El : s_len (buf_slice s (sc_start s) (sc_end s)) = 0)
    by (unfold buf_slice; destruct (sc_buf s); simpl; lia).
  rewrite El. change (0 =? 0) with true. cbv iota beta. zbool.
  cbn [is_nil nil_slice s_arr negb].
  eexists. split; [reflexivity|]. simpl. repeat split; trivial. lia.
Qed.

Lemma Scan_split_at_EOF_rest (h : store) (s : Scanner) (r : R) (e : error) :
  scanner_inv h s -> sc_err s = Some e -> sc_start s < sc_end s ->
  exists s',
    Scan_split h s r = inl (Scanned true h s' r) /\
    scanner_inv h s' /\ sc_err s' = Some e /\ sc_done s' = sc_done s /\
    sc_maxTokenSize s' = sc_maxTokenSize s /\
    sc_start s' = sc_end s' /\
    load h (sc_token s') = pending h s.
Proof.
  intros Hinv Herr Hse. pose proof Hinv as (Hok & H0 & H1 & H2 & H3).
  destruct (sc_buf s) as [l|] eqn:Eb;
    [|unfold buf_len in H2; rewrite Eb in H2; lia].
  unfold Scan_split, splitFunc. rewrite Herr. cbn [is_some andb orb].
  rewrite orb_true_r. unfold pending, buf_slice. rewrite Eb.
  cbn [s_len]. zbool. cbv iota beta. zbool.
  cbn [is_nil s_arr negb]. rewrite orb_true_r.
  eexists. split; [reflexivity|].
  split.
  { apply (scanner_inv_same_buf h s); trivial; simpl; try lia.
    now rewrite Eb. }
  simpl. repeat split; trivial. lia.
Qed.

Lemma Scan_shift_pending (h : store) (s : Scanner) (h' : store)
    (s' : Scanner) :
  scanner_inv h s -> Scan_shift h s = (h', s') ->
  pending h' s' = pending h s /\ sc_done s' = sc_done s /\
  (sc_end s' = buf_len h' s' -> sc_start s' = 0).
Proof.
  intros Hinv. pose proof Hinv as (Hok & H0 & H1 & H2 & H3).
  pose proof (len_pending h s Hinv) as Hlen.
  unfold Scan_shift.
  destruct ((0 <? sc_start s) &&
            ((sc_end s =? buf_len h s) || (buf_len h s / 2 <? sc_start s)))
    eqn:G; intros H; injection H as <- <-.
  - split; [|split; [reflexivity|reflexivity]].
    change (load h (buf_slice s (sc_start s) (sc_end s))) with (pending h s).
    set (p := pending h s) in *.
    destruct (sc_buf s) as [l|] eqn:Eb.
    + unfold pending, buf_slice. simpl.
      replace (sc_end s - sc_start s - 0) with (len p) by lia.
      apply load_write_start; [now apply Hok|].
      unfold buf_len in H2. rewrite Eb in H2. lia.
    + unfold p. rewrite (pending_no_buffer h s Eb). apply pending_no_buffer.
      reflexivity.
  - split; [reflexivity|]. split; [reflexivity|]. intros Hfull.
    apply andb_false_iff in G. destruct G as [G|G].
    + apply Z.ltb_ge in G. lia.
    + apply orb_false_iff in G. destruct G as [G _].
      apply Z.eqb_neq in G. contradiction.
Qed.

Lemma Scan_grow_pending (h : store) (s : Scanner) (h' : store)
    (s' : Scanner) :
  scanner_inv h s -> Scan_grow h s = Some (h', s') ->
  pending h' s' = pending h s /\ sc_done s' = sc_done s.
Proof.
  intros Hinv. pose proof Hinv as (Hok & H0 & H1 & H2 & H3).
  pose proof (len_pending h s Hinv) as Hlen.
  unfold Scan_grow. cbv zeta.
  destruct (sc_end s =? buf_len h s) eqn:Efull;
    [|intros H; injection H as <- <-; now split].
  apply Z.eqb_eq in Efull.
  destruct ((sc_maxTokenSize s <=? buf_len h s) ||
            (maxInt / 2 <? buf_len h s)) eqn:Elong; [discriminate|].
  apply orb_false_iff in Elong. destruct Elong as [Elong _].
  apply Z.leb_gt in Elong.
  set (n0 := buf_len h s * 2).
  set (n1 := if n0 =? 0 then startBufSize else n0).
  set (n2 := if sc_maxTokenSize s <? n1 then sc_maxTokenSize s else n1).
  assert (Hn2 : buf_len h s < n2).
  { unfold n2, n1, n0, startBufSize.
    destruct (buf_len h s * 2 =? 0) eqn:E0;
      [apply Z.eqb_eq in E0|apply Z.eqb_neq in E0];
      match goal with |- context [if ?c then _ else _] =>
        destruct c eqn:E1 end;
      try apply Z.ltb_lt in E1; try apply Z.ltb_ge in E1; lia. }
  unfold alloc. intros H. injection H as <- <-.
  split; [|reflexivity].
  change (load h (buf_slice s (sc_start s) (sc_end s))) with (pending h s).
  set (p := pending h s) in *.
  unfold pending, buf_slice. simpl.
  replace (sc_end s - sc_start s - 0) with (len p) by lia.
  apply load_new_array. unfold len in Hlen. lia.
Qed.

Lemma Scan_grow_some (h : store) (s : Scanner) :
  scanner_inv h s ->
  (sc_end s = buf_len h s -> sc_start s = 0) ->
  len (pending h s) < sc_maxTokenSize s ->
  sc_maxTokenSize s <= maxInt / 2 ->
  exists h' s', Scan_grow h s = Some (h', s').
Proof.
  intros Hinv Hfull Hp Hmax.
  pose proof (len_pending h s Hinv) as Hlen.
  unfold Scan_grow. cbv zeta.
  destruct (sc_end s =? buf_len h s) eqn:Efull; [|eauto].
  apply Z.eqb_eq in Efull. specialize (Hfull Efull).
  zbool. cbn [orb]. unfold alloc. eauto.
Qed.

Variable rest : R -> bytes.
Hypothesis Hreader : eof_apart rest.

Lemma read_loop_at_end (k : nat) (h : store) (s : Scanner) (r : R) :
  scanner_inv h s -> sc_err s = None -> sc_end s < buf_len h s ->
  rest r = [] ->
  exists h' s' r',
    read_loop k h s r = (h', s', r') /\
    scanner_inv h' s' /\ sc_err s' = Some EOF /\ sc_done s' = sc_done s /\
    sc_maxTokenSize s' = sc_maxTokenSize s /\
    pending h' s' = pending h s /\ rest r' = [] /\
    sc_end s' - sc_start s' = sc_end s - sc_start s.
Proof using Hreader.
  intros Hinv Herr Hroom Hrest. pose proof Hinv as (Hok & H0 & H1 & H2 & H3).
  destruct (read_loop k h s r) as [[h' s'] r'] eqn:E.
  destruct (read_loop_progress k h s r h' s' r' Hinv Herr E)
    as (Hinv' & Es & Em & _).
  exists h', s', r'. split; [reflexivity|]. split; [exact Hinv'|].
  pose proof (Hreader r (buf_len h s - sc_end s) ltac:(lia)) as Hread.
  rewrite Hrest in Hread. destruct Hread as (r1 & Hread & Hrest1).
  destruct (sc_buf s) as [l|] eqn:Eb;
    [|unfold buf_len in Hroom; rewrite Eb in Hroom; lia].
  assert (E' : (h', s', r') =
               (store_write h l (sc_end s) [],
                setErr (with_buf s (Some l) (sc_start s) (sc_end s + 0)) EOF,
                r1)).
  { rewrite <- E. destruct k; cbn [read_loop]; rewrite Hread;
      change (len []) with 0; zbool; rewrite Eb; reflexivity. }
  injection E' as -> -> ->.
  unfold setErr. cbn [sc_err with_buf]. rewrite Herr.
  cbn [sc_err sc_done sc_maxTokenSize sc_start sc_end with_err with_buf].
  repeat split; trivial; try lia.
  unfold pending, buf_slice. cbn [sc_buf sc_start sc_end with_err with_buf].
  rewrite Eb.
  replace (sc_end s + 0 - sc_start s) with (sc_end s + len [] - sc_start s)
    by (change (len []) with 0; lia).
  rewrite load_write_append; [apply app_nil_r|now apply Hok|lia|].
  change (len []) with 0. unfold buf_len in Hroom. rewrite Eb in Hroom. lia.
Qed.

Lemma read_loop_data (k : nat) (h : store) (s : Scanner) (r : R) :
  scanner_inv h s -> sc_err s = None -> sc_end s < buf_len h s ->
  rest r <> [] ->
  exists data h' s' r',
    read_loop k h s r = (h', s', r') /\
    scanner_inv h' s' /\ sc_err s' = None /\ sc_done s' = sc_done s /\
    sc_maxTokenSize s' = sc_maxTokenSize s /\
    pending h' s' = pending h s ++ data /\ rest r = data ++ rest r' /\
    0 < len data /\
    sc_end s' - sc_start s' = sc_end s - sc_start s + len data.
Proof using Hreader.
  intros Hinv Herr Hroom Hrest. pose proof Hinv as (Hok & H0 & H1 & H2 & H3).
  destruct (read_loop k h s r) as [[h' s'] r'] eqn:E.
  destruct (read_loop_progress k h s r h' s' r' Hinv Herr E)
    as (Hinv' & Es & Em & _).
  pose proof (Hreader r (buf_len h s - sc_end s) ltac:(lia)) as Hread.
  destruct (rest r) as [|x xs] eqn:Er; [contradiction|].
  destruct Hread as (data & r1 & Hread & Hn & Hrest1).
  exists data, h', s', r'. split; [reflexivity|]. split; [exact Hinv'|].
  destruct (sc_buf s) as [l|] eqn:Eb;
    [|unfold buf_len in Hroom; rewrite Eb in Hroom; lia].
  assert (E' : (h', s', r') =
               (store_write h l (sc_end s) data,
                with_empties
                  (with_buf s (Some l) (sc_start s) (sc_end s + len data)) 0,
                r1)).
  { rewrite <- E. destruct k; cbn [read_loop]; rewrite Hread;
      zbool; rewrite Eb; reflexivity. }
  injection E' as -> -> ->.
  cbn [sc_err sc_done sc_maxTokenSize sc_start sc_end with_empties with_buf].
  repeat split; trivial; try lia.
  unfold pending, buf_slice.
  cbn [sc_buf sc_start sc_end with_empties with_buf]. rewrite Eb.
  apply load_write_append; [now apply Hok|lia|].
  unfold buf_len in Hn. rewrite Eb in Hn. lia.
Qed.

Lemma pending_same_fields (h : store) (s s' : Scanner) :
  sc_buf s' = sc_buf s -> sc_start s' = sc_start s -> sc_end s' = sc_end s ->
  pending h s' = pending h s.
Proof.
  intros Eb Es Ee. unfold pending, buf_slice. now rewrite Eb, Es, Ee.
Qed.

Lemma Scan_loop_at_EOF (fuel : nat) (h : store) (s : Scanner) (r : R) :
  scanner_inv h s -> sc_done s = false -> sc_err s = Some EOF ->
  rest r = [] ->
  exists ok s',
    Scan_loop (S fuel) h s r = Scanned ok h s' r /\
    ended rest h s' r /\ sc_maxTokenSize s' = sc_maxTokenSize s /\
    match pending h s with
    | [] => ok = false
    | _ => ok = true /\ load h (sc_token s') = pending h s
    end.
Proof.
  intros Hinv Hdone Herr Hrest. pose proof Hinv as (Hok & H0 & H1 & H2 & H3).
  pose proof (len_pending h s Hinv) as Hlen.
  cbn [Scan_loop].
  destruct (Z.eq_dec (sc_start s) (sc_end s)) as [Ese|Ese].
  - destruct (Scan_split_at_EOF_empty h s r EOF Herr Ese)
      as (s1 & -> & Eb & Es & Ee & Em & Eerr & Ed).
    rewrite Eerr. exists false. eexists. split; [reflexivity|].
    split; [|split; [exact Em|]].
    + split.
      { apply (scanner_inv_same_buf h s); trivial; simpl; lia. }
      simpl. repeat split; trivial. congruence.
    + destruct (pending h s) as [|x xs]; [reflexivity|].
      unfold len in Hlen. simpl List.length in Hlen. lia.
  - destruct (Scan_split_at_EOF_rest h s r EOF Hinv Herr ltac:(lia))
      as (s' & -> & Hinv' & Eerr & Ed & Em & Ese' & Etok).
    exists true, s'. split; [reflexivity|].
    split; [|split; [exact Em|]].
    + split; [exact Hinv'|]. repeat split; trivial. congruence.
    + destruct (pending h s) as [|x xs] eqn:Ep; [|now split].
      change (len []) with 0 in Hlen. lia.
Qed.

Lemma Scan_loop_live (fuel : nat) :
  forall h s r,
    live h s -> sc_maxTokenSize s <= maxInt / 2 ->
    (Z.to_nat (sc_maxTokenSize s - (sc_end s - sc_start s)) + 2 <= fuel)%nat ->
    (0 <= IndexByte (pending h s ++ rest r) rt ->
     IndexByte (pending h s ++ rest r) rt < sc_maxTokenSize s) ->
    (IndexByte (pending h s ++ rest r) rt = -1 ->
     len (pending h s ++ rest r) < sc_maxTokenSize s) ->
    exists ok h' s' r',
      Scan_loop fuel h s r = Scanned ok h' s' r' /\
      sc_maxTokenSize s' = sc_maxTokenSize s /\
      if 0 <=? IndexByte (pending h s ++ rest r) rt
      then
        ok = true /\ live h' s' /\
        load h' (sc_token s') =
        firstn (Z.to_nat (IndexByte (pending h s ++ rest r) rt))
               (pending h s ++ rest r) /\
        pending h' s' ++ rest r' =
        skipn (Z.to_nat (IndexByte (pending h s ++ rest r) rt + 1))
              (pending h s ++ rest r)
      else
        ended rest h' s' r' /\
        match pending h s ++ rest r with
        | [] => ok = false
        | _ => ok = true /\ load h' (sc_token s') = pending h s ++ rest r
        end.
Proof using Hreader.
  induction fuel as [|fuel IH]; intros h s r Hlive Hmax Hfuel Hfound Hnone;
    [lia|].
  destruct Hlive as (Hinv & Hdone & Herr).
  pose proof Hinv as (Hok & H0 & H1 & H2 & H3).
  pose proof (len_pending h s Hinv) as Hlen.
  pose proof (IndexByte_range (pending h s) rt) as Hr.
  pose proof (len_nonneg (rest r)) as Hrest0.
  destruct (Z_le_gt_dec 0 (IndexByte (pending h s) rt)) as [Hj|Hj].
  - (* a terminator among the bytes of the buffer *)
    destruct (Scan_split_found h s r Hinv Herr Hj)
      as (s' & Hsplit & Hinv' & Eerr & Ed & Em & Etok & Ep).
    cbn [Scan_loop]. rewrite Hsplit.
    exists true, h, s', r. split; [reflexivity|]. split; [exact Em|].
    rewrite (IndexByte_app_found _ (rest r) rt Hj).
    replace (0 <=? IndexByte (pending h s) rt) with true
      by (symmetry; apply Z.leb_le; lia).
    split; [reflexivity|].
    split; [split; [exact Hinv'|split; [congruence|exact Eerr]]|].
    unfold len in *. split.
    + rewrite Etok, firstn_app.
      replace (Z.to_nat (IndexByte (pending h s) rt) -
               List.length (pending h s))%nat with 0%nat by lia.
      cbn [firstn]. now rewrite app_nil_r.
    + rewrite Ep, skipn_app.
      replace (Z.to_nat (IndexByte (pending h s) rt + 1) -
               List.length (pending h s))%nat with 0%nat by lia.
      reflexivity.
  - (* no terminator yet: make room and read *)
    assert (Hp : IndexByte (pending h s) rt = -1) by lia.
    pose proof (IndexByte_app_not_found _ (rest r) rt Hp) as Hrem.
    pose proof (IndexByte_range (rest r) rt) as Hrr.
    assert (Hsmall : len (pending h s) < sc_maxTokenSize s).
    { destruct (IndexByte (rest r) rt <? 0) eqn:E.
      - specialize (Hnone Hrem). rewrite len_app in Hnone. lia.
      - apply Z.ltb_ge in E. specialize (Hfound ltac:(lia)). lia. }
    destruct (Scan_split_not_found h s r Hinv Herr Hp)
      as (s1 & Hsplit & Eb1 & Es1 & Ee1 & Em1 & Eerr1 & Ed1).
    cbn [Scan_loop]. rewrite Hsplit, Eerr1.
    assert (Hinv1 : scanner_inv h s1)
      by (apply (scanner_inv_same_buf h s); trivial; rewrite ?Es1, ?Ee1; lia).
    pose proof (pending_same_fields h s s1 Eb1 Es1 Ee1) as Ep1.
    destruct (Scan_shift h s1) as [h2 s2] eqn:E2.
    destruct (Scan_shift_inv h s1 h2 s2 Hinv1 E2) as (Hinv2 & Ed2 & Em2 & Ee2).
    destruct (Scan_shift_pending h s1 h2 s2 Hinv1 E2) as (Ep2 & Edone2 & Hfull2).
    destruct (Scan_grow_some h2 s2 Hinv2 Hfull2) as (h3 & s3 & E3);
      [rewrite Ep2, Ep1, Em2, Em1; exact Hsmall|rewrite Em2, Em1; exact Hmax|].
    rewrite E3.
    destruct (Scan_grow_inv h2 s2 h3 s3 Hinv2 E3)
      as (Hinv3 & Ed3 & Em3 & Ee3 & Hroom).
    destruct (Scan_grow_pending h2 s2 h3 s3 Hinv2 E3) as (Ep3 & Edone3).
    assert (Herr3 : sc_err s3 = None) by congruence.
    destruct (rest r) as [|x xs] eqn:Er.
    + (* the end of the input *)
      destruct (read_loop_at_end maxConsecutiveEmptyReads h3 s3 r
                  Hinv3 Herr3 Hroom Er)
        as (h4 & s4 & r4 & -> & Hinv4 & Eerr4 & Edone4 & Em4 & Ep4 & Er4 & Ed4).
      destruct fuel as [|fuel]; [lia|].
      destruct (Scan_loop_at_EOF fuel h4 s4 r4 Hinv4 ltac:(congruence)
                  Eerr4 Er4)
        as (ok & s5 & -> & Hended & Em5 & Hres).
      exists ok, h4, s5, r4. split; [reflexivity|].
      split; [congruence|].
      rewrite app_nil_r in *. rewrite Hp. change (0 <=? -1) with false.
      split; [exact Hended|].
      rewrite Ep4, Ep3, Ep2, Ep1 in Hres. exact Hres.
    + (* more bytes *)
      destruct (read_loop_data maxConsecutiveEmptyReads h3 s3 r
                  Hinv3 Herr3 Hroom ltac:(rewrite Er; discriminate))
        as (data & h4 & s4 & r4 & -> & Hinv4 & Eerr4 & Edone4 & Em4 & Ep4 &
            Er4 & Hdata & Ed4).
      assert (Erem : pending h4 s4 ++ rest r4 = pending h s ++ x :: xs).
      { rewrite Ep4, Ep3, Ep2, Ep1, <- app_assoc. f_equal.
        rewrite <- Er. now rewrite Er4. }
      assert (Em40 : sc_maxTokenSize s4 = sc_maxTokenSize s) by congruence.
      destruct (IH h4 s4 r4) as (ok & h5 & s5 & r5 & E5 & Em5 & Hres).
      * split; [exact Hinv4|split; [congruence|exact Eerr4]].
      * now rewrite Em40.
      * rewrite Em40. pose proof Hinv4 as (_ & ? & ? & ? & ?). lia.
      * rewrite Erem, Em40. exact Hfound.
      * rewrite Erem, Em40. exact Hnone.
      * exists ok, h5, s5, r5. split; [exact E5|]. split; [congruence|].
        rewrite Erem in Hres. exact Hres.
Qed.

Lemma Scan_live (h : store) (s : Scanner) (r : R) :
  live h s -> sc_maxTokenSize s <= maxInt / 2 ->
  (0 <= IndexByte (pending h s ++ rest r) rt ->
   IndexByte (pending h s ++ rest r) rt < sc_maxTokenSize s) ->
  (IndexByte (pending h s ++ rest r) rt = -1 ->
   len (pending h s ++ rest r) < sc_maxTokenSize s) ->
  exists ok h' s' r',
    Scan h s r = Scanned ok h' s' r' /\
    sc_maxTokenSize s' = sc_maxTokenSize s /\
    if 0 <=? IndexByte (pending h s ++ rest r) rt
    then
      ok = true /\ live h' s' /\
      load h' (sc_token s') =
      firstn (Z.to_nat (IndexByte (pending h s ++ rest r) rt))
             (pending h s ++ rest r) /\
      pending h' s' ++ rest r' =
      skipn (Z.to_nat (IndexByte (pending h s ++ rest r) rt + 1))
            (pending h s ++ rest r)
    else
      ended rest h' s' r' /\
      match pending h s ++ rest r with
      | [] => ok = false
      | _ => ok = true /\ load h' (sc_token s') = pending h s ++ rest r
      end.
Proof using Hreader.
  intros (Hinv & Hdone & Herr) Hmax Hfound Hnone.
  pose proof Hinv as (Hok & H0 & H1 & H2 & H3).
  unfold Scan. rewrite Hdone.
  assert (Hinv' : scanner_inv h (with_scanCalled s))
    by (apply (scanner_inv_same_buf h s); trivial; simpl; lia).
  assert (Ep : pending h (with_scanCalled s) = pending h s) by reflexivity.
  apply (Scan_loop_live _ h (with_scanCalled s) r); rewrite ?Ep; trivial.
  - split; [exact Hinv'|]. now split.
  - simpl. lia.
Qed.

Lemma Scan_ended (h : store) (s : Scanner) (r : R) :
  ended rest h s r ->
  exists s', Scan h s r = Scanned false h s' r /\ ended rest h s' r.
Proof.
  intros (Hinv & Hdone & Herr & Hse & Hrest).
  pose proof Hinv as (Hok & H0 & H1 & H2 & H3).
  unfold Scan. rewrite Hdone.
  assert (Hinv' : scanner_inv h (with_scanCalled s))
    by (apply (scanner_inv_same_buf h s); trivial; simpl; lia).
  replace (Z.to_nat (sc_maxTokenSize s) + 2)%nat
    with (S (Z.to_nat (sc_maxTokenSize s) + 1)) by lia.
  destruct (Scan_loop_at_EOF (Z.to_nat (sc_maxTokenSize s) + 1)
              h (with_scanCalled s) r Hinv' Hdone Herr Hrest)
    as (ok & s' & E & Hended & _ & Hres).
  pose proof (len_pending h (with_scanCalled s) Hinv') as Hlen.
  simpl sc_end in Hlen. simpl sc_start in Hlen.
  destruct (pending h (with_scanCalled s)) as [|x xs].
  - subst ok. eauto.
  - unfold len in Hlen. simpl List.length in Hlen. lia.
Qed.

Lemma frames_ended (k : nat) (h : store) (s : Scanner) (r : R) :
  ended rest h s r -> frames k h s r = [].
Proof.
  intros H. destruct k; [reflexivity|]. cbn [frames].
  unfold MarcIterator_Next.
  destruct (Scan_ended h s r H) as (s' & -> & _). reflexivity.
Qed.

Lemma frames_live (k : nat) :
  forall h s r,
    live h s -> sc_maxTokenSize s = MaxScanTokenSize ->
    (forall chunk,
        In chunk (bytes_Split (pending h s ++ rest r) rt) ->
        len chunk < MaxScanTokenSize) ->
    frames k h s r = firstn k (records (pending h s ++ rest r)).
Proof using Hreader.
  induction k as [|k IH]; intros h s r Hlive Hmax Hchunks; [reflexivity|].
  cbn [frames]. unfold MarcIterator_Next.
  set (rem := pending h s ++ rest r) in *.
  pose proof (IndexByte_range rem rt) as Hr.
  destruct (Scan_live h s r Hlive) as (ok & h' & s' & r' & E & Em & Hres);
    fold rem.
  - rewrite Hmax. vm_compute. discriminate.
  - intros Hi. rewrite Hmax.
    specialize (Hchunks (firstn (Z.to_nat (IndexByte rem rt)) rem)).
    rewrite (IndexByte_some rem rt Hi) in Hchunks.
    specialize (Hchunks ltac:(now left)).
    unfold len in *. rewrite length_firstn in Hchunks. lia.
  - intros Hi. rewrite Hmax. apply Hchunks.
    rewrite (IndexByte_none rem rt Hi). now left.
  - rewrite E. fold rem in Hres.
    destruct (0 <=? IndexByte rem rt) eqn:Ei.
    + apply Z.leb_le in Ei.
      destruct Hres as (-> & Hlive' & Etok & Erem).
      rewrite (records_found rem Ei). cbn [firstn].
      unfold Scanner_Bytes. rewrite Etok. f_equal.
      rewrite <- Erem. apply IH; [exact Hlive'|congruence|].
      intros chunk Hin. apply Hchunks.
      rewrite (IndexByte_some rem rt Ei). right. now rewrite <- Erem.
    + apply Z.leb_gt in Ei. assert (Hn : IndexByte rem rt = -1) by lia.
      destruct Hres as (Hended & Hres).
      rewrite (records_none rem Hn).
      destruct rem as [|x xs].
      * subst ok. reflexivity.
      * destruct Hres as [-> Etok]. unfold Scanner_Bytes. rewrite Etok.
        rewrite (frames_ended k h' s' r' Hended).
        cbn [firstn]. now rewrite firstn_nil.
Qed.

End Framer.

Lemma bytes_Split_no_sep (b : bytes) (c : ascii) :
  ~ In c b -> bytes_Split b c = [b].
Proof.
  induction b as [|x b IH]; intros H; simpl; [reflexivity|].
  destruct (Ascii.eqb_spec x c) as [->|Hx]; [exfalso; apply H; now left|].
  rewrite IH; [reflexivity|]. intros Hin. apply H. now right.
Qed.

Lemma bytes_Split_app_sep (b more : bytes) (c : ascii) :
  ~ In c b -> bytes_Split (b ++ c :: more) c = b :: bytes_Split more c.
Proof.
  induction b as [|x b IH]; intros H; simpl.
  - now rewrite Ascii.eqb_refl.
  - destruct (Ascii.eqb_spec x c) as [->|Hx]; [exfalso; apply H; now left|].
    rewrite IH; [reflexivity|]. intros Hin. apply H. now right.
Qed.

Lemma bytes_Split_stream (recs : list bytes) (trailing : bytes) :
  (forall b, In b recs -> ~ In rt b) -> ~ In rt trailing ->
  bytes_Split (flat_map (fun b => b ++ [rt]) recs ++ trailing) rt =
  recs ++ [trailing].
Proof.
  intros Hrecs Ht. induction recs as [|b recs IH]; simpl.
  - now apply bytes_Split_no_sep.
  - rewrite <- !app_assoc. simpl.
    rewrite bytes_Split_app_sep by (apply Hrecs; now left).
    rewrite IH; [reflexivity|]. intros b' Hb'. apply Hrecs. now right.
Qed.

Lemma records_stream (recs : list bytes) (trailing : bytes) :
  (forall b, In b recs -> ~ In rt b) -> ~ In rt trailing ->
  records (flat_map (fun b => b ++ [rt]) recs ++ trailing) =
  recs ++ match trailing with [] => [] | _ => [trailing] end.
Proof.
  intros Hrecs Ht. unfold records. cbv zeta.
  rewrite (bytes_Split_stream recs trailing Hrecs Ht).
  rewrite last_last, removelast_last.
  destruct trailing; [now rewrite app_nil_r|reflexivity].
Qed.

(** ** The framer on a stream of records *)

(** C8 (as amended). A stream made of the records [recs], each followed
    by the record terminator, and of the bytes [trailing]; no record and
    no trailing bytes contain the terminator, and each is shorter than
    [bufio.MaxScanTokenSize]; the stream comes from a reader that reports
    the end of the input by a read of its own.  The framer then yields
    the records one by one, each without its terminator, then the
    trailing bytes if there are any, and nothing more. *)
Theorem C8_framer_yields_records {R : Type} {reader : Reader R}
    (rest : R -> bytes) (r : R) (recs : list bytes) (trailing : bytes)
    (k : nat) :
  eof_apart rest ->
  rest r = flat_map (fun b => b ++ [rt]) recs ++ trailing ->
  (forall b, In b recs -> ~ In rt b /\ len b < MaxScanTokenSize) ->
  ~ In rt trailing -> len trailing < MaxScanTokenSize ->
  frames k [] NewMarcIterator r =
  firstn k (recs ++ match trailing with [] => [] | _ => [trailing] end).
Proof.
  intros Hreader Hrest Hrecs Ht Hlt.
  assert (Hno : forall b, In b recs -> ~ In rt b)
    by (intros b Hb; now apply Hrecs).
  rewrite <- (records_stream recs trailing Hno Ht), <- Hrest.
  change (rest r) with (pending [] NewMarcIterator ++ rest r).
  apply (frames_live rest Hreader).
  - split; [apply NewMarcIterator_inv|]. now split.
  - reflexivity.
  - change (pending [] NewMarcIterator ++ rest r) with (rest r).
    rewrite Hrest, (bytes_Split_stream recs trailing Hno Ht).
    intros chunk Hin. apply in_app_or in Hin.
    destruct Hin as [Hin|[<-|[]]]; [now apply Hrecs|exact Hlt].
Qed.

Lemma C8_framer_yields_records_witness :
  frames 5 [] NewMarcIterator
    (mkPlainReader (two_records ++ bytes_of_string "C")) =
  [bytes_of_string "A"; bytes_of_string "B"; bytes_of_string "C"].
Proof.
  apply (C8_framer_yields_records plain_rest
           (mkPlainReader (two_records ++ bytes_of_string "C"))
           [bytes_of_string "A"; bytes_of_string "B"]
           (bytes_of_string "C") 5).
  - exact plainReader_eof_apart.
  - reflexivity.
  - intros b [<-|[<-|[]]]; (split; [|reflexivity]);
      intros [H|[]]; discriminate H.
  - intros [H|[]]; discriminate H.
  - reflexivity.
Defined.

(** A record of 64 KiB followed by its terminator: the first call of
    [Next] returns false with the error [bufio.ErrTooLong], and no
    buffer is yielded, although the stream holds one record. *)
Lemma C8_long_record_not_yielded :
  frames 2 [] NewMarcIterator (mkPlainReader (long_record ++ [rt])) = [] /\
  Next_then_Err [] NewMarcIterator (mkPlainReader (long_record ++ [rt])) =
  Some (false, Some ErrTooLong) /\
  ~ In rt long_record.
Proof.
  split; [vm_compute; reflexivity|].
  split; [vm_compute; reflexivity|].
  intros H. apply repeat_spec in H. discriminate H.
Qed.

(** The stream of the records [A] and [B], each followed by the record
    terminator, read from a reader that hands out its last bytes
    together with [io.EOF]: [splitFunc] is asked at the end of the input
    and answers with all the bytes, so the framer yields a single
    buffer, the whole stream with both terminators in it. *)
Example framer_last_read_with_EOF :
  frames 3 [] NewMarcIterator (mkDataErrReader two_records) = [two_records] /\
  In rt two_records.
Proof.
  split; [vm_compute; reflexivity|].
  right; left; reflexivity.
Qed.
(** * Further properties of the decoder *)

(** ** A directory entry and its field *)

Lemma scanEntry_entry_field (rec : MarcRecord) (data e more : bytes)
    (f : Field) :
  entry_field data e f ->
  scanEntry rec data (e ++ more) =
  Returns (Continue (set_Fields rec (Fields rec ++ [f]))).
Proof.
  intros H.
  destruct H as [t l s length begin Ht Hl Hs Hlen Hbeg H0 H1 Hin Hp
                |t l s length begin df Ht Hl Hs Hlen Hbeg H0 H1 Hin Hp Hdf];
    rewrite <- !app_assoc;
    rewrite (scanEntry_parsed rec data t l s more length begin
               Ht Hl Hs Hlen Hbeg);
    (destruct (len data <=? begin + length - 1) eqn:E;
       [apply Z.leb_le in E; lia|]);
    rewrite slice_in_range by lia;
    replace (begin + length - 1 - begin) with (length - 1) by lia;
    cbn [bind]; fold (field_bytes data length begin); rewrite Hp.
  - reflexivity.
  - rewrite Hdf. reflexivity.
Qed.

Lemma scanEntry_entry_error (rec : MarcRecord) (data e more : bytes)
    (err : error) :
  entry_error data e err ->
  scanEntry rec data (e ++ more) = Returns (Stop rec err).
Proof.
  intros H.
  destruct H as [t l s Ht Hl Hs Hlen
                |t l s length Ht Hl Hs Hlen Hbeg
                |t l s length begin Ht Hl Hs Hlen Hbeg Hout
                |t l s length begin df err Ht Hl Hs Hlen Hbeg H0 H1 Hin Hp Hdf];
    rewrite <- !app_assoc.
  - unfold scanEntry.
    rewrite (entry_tag t l s more Ht Hl Hs). cbn [bind].
    rewrite (entry_length t l s more Ht Hl Hs). cbn [bind].
    rewrite Hlen. reflexivity.
  - unfold scanEntry.
    rewrite (entry_tag t l s more Ht Hl Hs). cbn [bind].
    rewrite (entry_length t l s more Ht Hl Hs). cbn [bind].
    rewrite Hlen.
    rewrite (entry_start t l s more Ht Hl Hs). cbn [bind].
    rewrite Hbeg. reflexivity.
  - apply (scanEntry_out_of_bounds rec data t l s more length begin
             Ht Hl Hs Hlen Hbeg Hout).
  - rewrite (scanEntry_parsed rec data t l s more length begin
               Ht Hl Hs Hlen Hbeg).
    destruct (len data <=? begin + length - 1) eqn:E;
      [apply Z.leb_le in E; lia|].
    rewrite slice_in_range by lia.
    replace (begin + length - 1 - begin) with (length - 1) by lia.
    cbn [bind]. fold (field_bytes data length begin). rewrite Hp, Hdf.
    reflexivity.
Qed.

Lemma entry_field_length (data e : bytes) (f : Field) :
  entry_field data e f -> List.length e = 12%nat.
Proof.
  intros H; destruct H; rewrite !length_app; lia.
Qed.

Lemma entry_error_length (data e : bytes) (err : error) :
  entry_error data e err -> List.length e = 12%nat.
Proof.
  intros H; destruct H; rewrite !length_app; lia.
Qed.

Lemma set_Fields_twice (rec : MarcRecord) (a b : list Field) :
  set_Fields (set_Fields rec a) b = set_Fields rec b.
Proof. reflexivity. Qed.

(** ** A directory and its fields *)

Lemma scanDirs_entries (data : bytes) (entries : list bytes)
    (fields : list Field) :
  Forall2 (entry_field data) entries fields ->
  forall rec more,
    scanDirs rec data (List.concat entries ++ more) =
    scanDirs (set_Fields rec (Fields rec ++ fields)) data more.
Proof.
  induction 1 as [|e f entries fields He _ IH]; intros rec more.
  - cbn [List.concat app]. rewrite app_nil_r. now destruct rec.
  - cbn [List.concat]. rewrite <- app_assoc.
    pose proof (entry_field_length data e f He) as Hlen.
    rewrite scanDirs_unfold.
    replace (12 <=? len (e ++ List.concat entries ++ more)) with true
      by (symmetry; apply Z.leb_le; unfold len; rewrite length_app; lia).
    rewrite (scanEntry_entry_field rec data e _ f He). cbn [bind].
    rewrite slice_from_in_range
      by (unfold len; rewrite ?length_app; lia).
    cbn [bind]. change (Z.to_nat 12) with 12%nat.
    rewrite (skipn_app_exact e _ Hlen).
    rewrite IH. rewrite set_Fields_twice. cbn [Fields set_Fields].
    now rewrite <- app_assoc.
Qed.


(** ** The leader and the base address *)

Lemma scanIntoRecord_prelude (b : bytes) :
  20 <= len b ->
  scanIntoRecord b =
  match Atoi (string_of_bytes (firstn 5 (skipn 12 b))) with
  | None =>
      Returns (mkRecord b [] (leaderOf b),
               Some "Could not determine record start")
  | Some start =>
      data <- slice_from b start ;;
      dirs <- slice b 24 (start - 1) ;;
      scanDirs (mkRecord b [] (leaderOf b)) data dirs
  end.
Proof.
  intros Hlen. unfold scanIntoRecord.
  rewrite !index_at_nth by lia. cbn [bind].
  rewrite slice_in_range by lia. cbn [bind].
  change (Z.to_nat (17 - 12)) with 5%nat. change (Z.to_nat 12) with 12%nat.
  reflexivity.
Qed.

Lemma scanIntoRecord_returns_long (b : bytes) (res : MarcRecord * option error) :
  scanIntoRecord b = Returns res -> 20 <= len b.
Proof.
  intros H. destruct (Z_lt_le_dec (len b) 20) as [Hs|Hl]; [|exact Hl].
  rewrite (scanIntoRecord_short b Hs) in H. discriminate.
Qed.

(** ** What the loop over the directory keeps *)

Lemma string_of_bytes_length (b : bytes) :
  String.length (string_of_bytes b) = List.length b.
Proof.
  unfold string_of_bytes.
  induction b as [|c b IH]; simpl; [reflexivity|]. now f_equal.
Qed.

Lemma string_of_byte_length_le (c : ascii) :
  (1 <= String.length (string_of_byte c) <= 2)%nat.
Proof.
  unfold string_of_byte. destruct (N_of_ascii c <? 128)%N; simpl; lia.
Qed.

Lemma makeDataField_loop_errors (chunks : list bytes) :
  forall d d' err,
    makeDataField_loop d chunks = (d', Some err) ->
    err = "Extraneous field terminator".
Proof.
  induction chunks as [|[|c v] chunks IH]; intros d d' err H; simpl in H.
  - discriminate.
  - now injection H as _ <-.
  - now apply IH in H.
Qed.

Lemma makeDataField_errors (tag : string) (data : bytes) (d : DataField)
    (err : error) :
  makeDataField tag data = (d, Some err) ->
  err = "Invalid Indicators detected" \/ err = "Extraneous field terminator".
Proof.
  unfold makeDataField. intros H.
  destruct data as [|i1 [|i2 [|x rest]]];
    try (injection H as _ <-; now left).
  right. now apply makeDataField_loop_errors in H.
Qed.

Lemma makeDataField_loop_fields (chunks : list bytes) :
  forall d d' e,
    makeDataField_loop d chunks = (d', e) ->
    Indicator1 d' = Indicator1 d /\ Indicator2 d' = Indicator2 d /\
    df_Tag d' = df_Tag d.
Proof.
  induction chunks as [|[|c v] chunks IH]; intros d d' e H; simpl in H.
  - now injection H as <- _.
  - now injection H as <- _.
  - apply IH in H. exact H.
Qed.

Lemma makeDataField_decoded (tag : string) (data : bytes) (d : DataField) :
  makeDataField tag data = (d, None) ->
  df_Tag d = tag /\ SubFields d <> [] /\
  (1 <= String.length (Indicator1 d) <= 2)%nat /\
  (1 <= String.length (Indicator2 d) <= 2)%nat.
Proof.
  intros H. pose proof (makeDataField_ok tag data d H) as [Hne Hsf].
  unfold makeDataField in H.
  destruct data as [|i1 [|i2 [|x rest]]]; try discriminate.
  apply makeDataField_loop_fields in H. cbn in H.
  destruct H as (-> & -> & ->).
  split; [reflexivity|]. split.
  - rewrite Hsf. intros E. apply map_eq_nil in E.
    now apply (bytes_Split_not_nil (skipn 3 (i1 :: i2 :: x :: rest)) st).
  - split; apply string_of_byte_length_le.
Qed.

Lemma slice_length (b : bytes) (lo hi : Z) (r : bytes) :
  slice b lo hi = Returns r -> List.length r = Z.to_nat (hi - lo).
Proof.
  unfold slice. intros H.
  destruct ((0 <=? lo) && (lo <=? hi) && (hi <=? len b)) eqn:E;
    [|discriminate].
  apply andb_prop in E. destruct E as [E E3]. apply andb_prop in E.
  destruct E as [E1 E2]. apply Z.leb_le in E1, E2, E3. unfold len in E3.
  assert (Hr : r = firstn (Z.to_nat (hi - lo)) (skipn (Z.to_nat lo) b))
    by congruence.
  rewrite Hr, length_firstn, length_skipn. lia.
Qed.

Lemma scanEntry_step (rec : MarcRecord) (data dirs : bytes) (s : entry_step) :
  scanEntry rec data dirs = Returns s ->
  match s with
  | Continue rec' =>
      exists f, rec' = set_Fields rec (Fields rec ++ [f]) /\ decoded_field f
  | Stop rec' err => rec' = rec /\ In err decoder_errors
  end.
Proof.
  unfold scanEntry. intros H.
  destruct (slice_to dirs 3) as [t|] eqn:Et; [cbn [bind] in H|discriminate].
  assert (Ht : String.length (string_of_bytes t) = 3%nat)
    by (rewrite string_of_bytes_length; apply (slice_length _ _ _ _ Et)).
  destruct (slice dirs 3 7) as [l|]; [cbn [bind] in H|discriminate].
  destruct (Atoi (string_of_bytes l)) as [length|];
    [|injection H as <-; split; [reflexivity|cbn; tauto]].
  destruct (slice dirs 7 12) as [b|]; [cbn [bind] in H|discriminate].
  destruct (Atoi (string_of_bytes b)) as [begin|];
    [|injection H as <-; split; [reflexivity|cbn; tauto]].
  destruct (len data <=? begin + length - 1);
    [injection H as <-; split; [reflexivity|cbn; tauto]|].
  destruct (slice data begin (begin + length - 1)) as [fdata|];
    [cbn [bind] in H|discriminate].
  destruct (HasPrefix (string_of_bytes t) "00") eqn:Ep.
  - injection H as <-. eexists. split; [reflexivity|]. cbn. now split.
  - destruct (makeDataField (string_of_bytes t) fdata) as [df [err|]] eqn:Ed;
      injection H as <-.
    + split; [reflexivity|].
      destruct (makeDataField_errors _ _ _ _ Ed) as [-> | ->]; cbn; tauto.
    + eexists. split; [reflexivity|].
      destruct (makeDataField_decoded _ _ _ Ed) as (Htag & Hne & Hi1 & Hi2).
      cbn. rewrite Htag. tauto.
Qed.

Lemma scanDirs_loop_appends (n : nat) :
  forall rec data dirs rec' e,
    scanDirs_loop n rec data dirs = Returns (rec', e) ->
    exists fs,
      rec' = set_Fields rec (Fields rec ++ fs) /\ Forall decoded_field fs /\
      forall err, e = Some err -> In err decoder_errors.
Proof.
  induction n as [|n IH]; intros rec data dirs rec' e H; simpl in H.
  - injection H as <- <-. exists []. rewrite app_nil_r.
    split; [now destruct rec|]. split; [constructor|discriminate].
  - destruct (12 <=? len dirs).
    2:{ injection H as <- <-. exists []. rewrite app_nil_r.
        split; [now destruct rec|]. split; [constructor|discriminate]. }
    destruct (scanEntry rec data dirs) as [s|] eqn:Es; [|discriminate].
    cbn [bind] in H. apply scanEntry_step in Es.
    destruct s as [rec1|rec1 err].
    + destruct Es as (f & -> & Hf).
      destruct (slice_from dirs 12) as [rest|]; [|discriminate].
      cbn [bind] in H. apply IH in H. destruct H as (fs & -> & Hfs & He).
      exists (f :: fs). rewrite set_Fields_twice. cbn [Fields set_Fields].
      rewrite <- app_assoc. split; [reflexivity|].
      split; [now constructor|exact He].
    + destruct Es as [-> Herr]. injection H as <- <-.
      exists []. rewrite app_nil_r. split; [now destruct rec|].
      split; [constructor|]. now intros err' [= <-].
Qed.

Lemma scanIntoRecord_appends (b : bytes) (rec : MarcRecord) (e : option error) :
  scanIntoRecord b = Returns (rec, e) ->
  20 <= len b /\
  exists fs,
    rec = mkRecord b fs (leaderOf b) /\ Forall decoded_field fs /\
    forall err, e = Some err -> In err decoder_errors.
Proof.
  intros H. pose proof (scanIntoRecord_returns_long b _ H) as Hlen.
  split; [exact Hlen|].
  rewrite (scanIntoRecord_prelude b Hlen) in H.
  destruct (Atoi (string_of_bytes (firstn 5 (skipn 12 b)))) as [start|].
  - destruct (slice_from b start) as [data|]; [cbn [bind] in H|discriminate].
    destruct (slice b 24 (start - 1)) as [dirs|]; [cbn [bind] in H|discriminate].
    apply scanDirs_loop_appends in H. destruct H as (fs & -> & Hfs & He).
    exists fs. split; [reflexivity|]. now split.
  - injection H as <- <-. exists []. split; [reflexivity|].
    split; [constructor|]. intros err [= <-]. cbn. tauto.
Qed.

(** ** The decoder on a whole record *)



(** X2. The decoder stops at the first entry of the directory that it
    cannot turn into a field: it returns the error of this entry, with
    the fields of the entries before it, and does not look at what
    follows the entry. *)
Theorem scanIntoRecord_stops_at_first_error (b : bytes) (start : Z)
    (entries : list bytes) (bad rest : bytes) (fields : list Field)
    (err : error) :
  20 <= len b ->
  Atoi (string_of_bytes (firstn 5 (skipn 12 b))) = Some start ->
  25 <= start <= len b ->
  firstn (Z.to_nat (start - 1 - 24)) (skipn 24 b) =
  List.concat entries ++ bad ++ rest ->
  Forall2 (entry_field (skipn (Z.to_nat start) b)) entries fields ->
  entry_error (skipn (Z.to_nat start) b) bad err ->
  scanIntoRecord b = Returns (mkRecord b fields (leaderOf b), Some err).
Proof.
  intros Hlen Hstart Hrange Hdirs Hfields Hbad.
  rewrite (scanIntoRecord_dirs b start Hlen Hstart Hrange), Hdirs.
  rewrite (scanDirs_entries _ entries fields Hfields).
  pose proof (entry_error_length _ _ _ Hbad) as Hl.
  rewrite scanDirs_unfold.
  replace (12 <=? len (bad ++ rest)) with true
    by (symmetry; apply Z.leb_le; unfold len; rewrite length_app; lia).
  now rewrite (scanEntry_entry_error _ _ bad rest err Hbad).
Qed.

Lemma scanIntoRecord_stops_at_first_error_witness :
  scanIntoRecord faulty_entry_buffer =
  Returns (mkRecord faulty_entry_buffer [FControl sample_001]
             (leaderOf faulty_entry_buffer),
           Some "Reported field length incorrect").
Proof.
  apply (scanIntoRecord_stops_at_first_error faulty_entry_buffer 61
           [bytes_of_string "001001100000"] (bytes_of_string "650009900000")
           (bytes_of_string "245abcdefghi")).
  - vm_compute. discriminate.
  - reflexivity.
  - vm_compute. split; discriminate.
  - reflexivity.
  - apply Forall2_cons; [|apply Forall2_nil].
    exact (entry_control (skipn (Z.to_nat 61) faulty_entry_buffer) (bytes_of_string "001") (bytes_of_string "0011")
             (bytes_of_string "00000") 11 0 eq_refl eq_refl eq_refl
             eq_refl eq_refl ltac:(lia) ltac:(lia)
             ltac:(vm_compute; reflexivity) eq_refl).
  - exact (error_bounds (skipn (Z.to_nat 61) faulty_entry_buffer) (bytes_of_string "650") (bytes_of_string "0099")
             (bytes_of_string "00000") 99 0 eq_refl eq_refl eq_refl
             eq_refl eq_refl ltac:(vm_compute; discriminate)).
Defined.

(** X3. The check of the length of a field does not cover every entry
    whose numbers parse: an entry with a length below 1 or a start below
    0 that passes the check [len(data) <= begin+length-1] makes the
    decoder slice [data[begin : begin+length-1]] out of bounds, and the
    decoder panics. *)
Theorem scanIntoRecord_entry_slice_panics (b : bytes) (start : Z)
    (entries : list bytes) (t l s rest : bytes) (fields : list Field)
    (length begin : Z) :
  20 <= len b ->
  Atoi (string_of_bytes (firstn 5 (skipn 12 b))) = Some start ->
  25 <= start <= len b ->
  firstn (Z.to_nat (start - 1 - 24)) (skipn 24 b) =
  List.concat entries ++ (t ++ l ++ s) ++ rest ->
  Forall2 (entry_field (skipn (Z.to_nat start) b)) entries fields ->
  List.length t = 3%nat -> List.length l = 4%nat -> List.length s = 5%nat ->
  Atoi (string_of_bytes l) = Some length ->
  Atoi (string_of_bytes s) = Some begin ->
  begin + length - 1 < len (skipn (Z.to_nat start) b) ->
  length < 1 \/ begin < 0 ->
  scanIntoRecord b = Panics SliceBoundsOutOfRange.
Proof.
  intros Hlen Hstart Hrange Hdirs Hfields Ht Hl Hs Hlength Hbegin Hin Hbad.
  rewrite (scanIntoRecord_dirs b start Hlen Hstart Hrange), Hdirs.
  rewrite (scanDirs_entries _ entries fields Hfields).
  rewrite scanDirs_unfold.
  replace (12 <=? len ((t ++ l ++ s) ++ rest)) with true
    by (symmetry; apply Z.leb_le; unfold len; rewrite !length_app; lia).
  rewrite <- !app_assoc.
  rewrite (scanEntry_parsed _ _ t l s rest length begin Ht Hl Hs Hlength Hbegin).
  destruct (len (skipn (Z.to_nat start) b) <=? begin + length - 1) eqn:E;
    [apply Z.leb_le in E; lia|].
  rewrite slice_out_of_range by lia. reflexivity.
Qed.

Lemma scanIntoRecord_entry_slice_panics_witness :
  scanIntoRecord empty_field_buffer = Panics SliceBoundsOutOfRange.
Proof.
  apply (scanIntoRecord_entry_slice_panics empty_field_buffer 49
           [bytes_of_string "001001100000"]
           (bytes_of_string "650") (bytes_of_string "0000")
           (bytes_of_string "00003") [] [FControl sample_001] 0 3).
  - vm_compute. discriminate.
  - reflexivity.
  - vm_compute. split; discriminate.
  - reflexivity.
  - apply Forall2_cons; [|apply Forall2_nil].
    exact (entry_control (skipn (Z.to_nat 49) empty_field_buffer) (bytes_of_string "001") (bytes_of_string "0011")
             (bytes_of_string "00000") 11 0 eq_refl eq_refl eq_refl
             eq_refl eq_refl ltac:(lia) ltac:(lia)
             ltac:(vm_compute; reflexivity) eq_refl).
  - reflexivity.
  - reflexivity.
  - reflexivity.
  - reflexivity.
  - reflexivity.
  - vm_compute. reflexivity.
  - left. lia.
Defined.

(** X4. Whenever the decoder returns, with or without an error, the
    buffer has at least 20 bytes, the record holds the seven leader
    attributes of the byte positions 5 to 8 and 17 to 19, and its raw
    data are the whole buffer. *)
Theorem scanIntoRecord_leader_and_data (b : bytes) (rec : MarcRecord)
    (e : option error) :
  scanIntoRecord b = Returns (rec, e) ->
  20 <= len b /\ Data rec = b /\
  RLeader rec =
  mkLeader (nth 5 b zero) (nth 6 b zero) (nth 7 b zero) (nth 8 b zero)
           (nth 17 b zero) (nth 18 b zero) (nth 19 b zero).
Proof.
  intros H. apply scanIntoRecord_appends in H.
  destruct H as (Hlen & fs & -> & _). now split.
Qed.

Lemma scanIntoRecord_leader_and_data_witness :
  20 <= len faulty_entry_buffer /\
  Data (mkRecord faulty_entry_buffer [FControl sample_001]
          (mkLeader "c" "a" "m" " " " " "a" " ")) = faulty_entry_buffer /\
  RLeader (mkRecord faulty_entry_buffer [FControl sample_001]
             (mkLeader "c" "a" "m" " " " " "a" " ")) =
  mkLeader (nth 5 faulty_entry_buffer zero) (nth 6 faulty_entry_buffer zero)
           (nth 7 faulty_entry_buffer zero) (nth 8 faulty_entry_buffer zero)
           (nth 17 faulty_entry_buffer zero) (nth 18 faulty_entry_buffer zero)
           (nth 19 faulty_entry_buffer zero).
Proof.
  apply (scanIntoRecord_leader_and_data faulty_entry_buffer
           (mkRecord faulty_entry_buffer [FControl sample_001]
              (mkLeader "c" "a" "m" " " " " "a" " "))
           (Some "Reported field length incorrect")).
  vm_compute. reflexivity.
Defined.

(** X5. Every field of a record that the decoder returns, with or
    without an error, is a control field or a data field with a tag of
    three bytes; the tag begins with [00] for a control field and for no
    data field; a data field has at least one subfield, and each of its
    indicators is a string of one or two bytes. *)
Theorem scanIntoRecord_fields_decoded (b : bytes) (rec : MarcRecord)
    (e : option error) :
  scanIntoRecord b = Returns (rec, e) ->
  Forall decoded_field (Fields rec).
Proof.
  intros H. apply scanIntoRecord_appends in H.
  destruct H as (_ & fs & -> & Hfs & _). exact Hfs.
Qed.

Lemma scanIntoRecord_fields_decoded_witness :
  Forall decoded_field (Fields sample_record).
Proof.
  apply (scanIntoRecord_fields_decoded sample_buffer sample_record None).
  vm_compute. reflexivity.
Defined.

(** X6. An error that the decoder returns carries one of six fixed
    messages. *)
Theorem scanIntoRecord_error_messages (b : bytes) (rec : MarcRecord)
    (err : error) :
  scanIntoRecord b = Returns (rec, Some err) ->
  In err
    ["Could not determine record start";
     "Could not determine length of field";
     "Could not determine field start";
     "Reported field length incorrect";
     "Invalid Indicators detected";
     "Extraneous field terminator"].
Proof.
  intros H. apply scanIntoRecord_appends in H.
  destruct H as (_ & fs & _ & _ & He). now apply He.
Qed.

Lemma scanIntoRecord_error_messages_witness :
  In "Reported field length incorrect"
    ["Could not determine record start";
     "Could not determine length of field";
     "Could not determine field start";
     "Reported field length incorrect";
     "Invalid Indicators detected";
     "Extraneous field terminator"].
Proof.
  apply (scanIntoRecord_error_messages faulty_entry_buffer
           (mkRecord faulty_entry_buffer [FControl sample_001]
              (mkLeader "c" "a" "m" " " " " "a" " "))).
  vm_compute. reflexivity.
Defined.

(** X7. A buffer of at least 20 bytes whose base address, the bytes 12
    to 16, is not a number: the decoder returns the error
    [Could not determine record start] with a record that has the leader
    attributes and no field, and it does not panic, however short the
    rest of the buffer is. *)
Theorem scanIntoRecord_base_address_not_a_number (b : bytes) :
  20 <= len b ->
  Atoi (string_of_bytes (firstn 5 (skipn 12 b))) = None ->
  scanIntoRecord b =
  Returns (mkRecord b [] (leaderOf b), Some "Could not determine record start").
Proof.
  intros Hlen Hno. now rewrite (scanIntoRecord_prelude b Hlen), Hno.
Qed.

Lemma scanIntoRecord_base_address_not_a_number_witness :
  scanIntoRecord no_base_address_buffer =
  Returns (mkRecord no_base_address_buffer [] (leaderOf no_base_address_buffer),
           Some "Could not determine record start").
Proof.
  apply (scanIntoRecord_base_address_not_a_number no_base_address_buffer).
  - vm_compute. discriminate.
  - reflexivity.
Defined.

(** X8. A buffer of at least 20 bytes whose base address is a number
    below 25 or above the length of the buffer: the decoder slices the
    buffer out of bounds and panics; it returns no error. *)
Theorem scanIntoRecord_base_address_out_of_range (b : bytes) (start : Z) :
  20 <= len b ->
  Atoi (string_of_bytes (firstn 5 (skipn 12 b))) = Some start ->
  start < 25 \/ len b < start ->
  scanIntoRecord b = Panics SliceBoundsOutOfRange.
Proof.
  intros Hlen Hstart Hout.
  rewrite (scanIntoRecord_prelude b Hlen), Hstart.
  unfold slice_from.
  destruct (Z_lt_le_dec start 0) as [Hneg|Hpos];
    [now rewrite slice_out_of_range by lia|].
  destruct (Z_lt_le_dec (len b) start) as [Hbig|Hsmall];
    [now rewrite slice_out_of_range by lia|].
  rewrite slice_in_range by lia. cbn [bind].
  now rewrite slice_out_of_range by lia.
Qed.

Lemma scanIntoRecord_base_address_out_of_range_witness :
  scanIntoRecord leader_only_buffer = Panics SliceBoundsOutOfRange.
Proof.
  apply (scanIntoRecord_base_address_out_of_range leader_only_buffer 24).
  - vm_compute. discriminate.
  - reflexivity.
  - left. lia.
Defined.

(** ** The constructor of data fields *)

Lemma makeDataField_loop_all (chunks : list bytes) :
  forall d,
    ~ In [] chunks ->
    makeDataField_loop d chunks =
    (set_SubFields d (SubFields d ++ map subfield_of_chunk chunks), None).
Proof.
  induction chunks as [|[|c v] chunks IH]; intros d Hne.
  - cbn. rewrite app_nil_r. now destruct d.
  - exfalso. apply Hne. now left.
  - cbn [makeDataField_loop]. rewrite IH by (intros Hin; apply Hne; now right).
    cbn. now rewrite <- app_assoc.
Qed.

Lemma makeDataField_loop_stops (chunks : list bytes) :
  forall d,
    In [] chunks ->
    exists d', makeDataField_loop d chunks = (d', Some "Extraneous field terminator").
Proof. exact (makeDataField_loop_empty_chunk chunks). Qed.

Lemma bytes_Split_last_sep (b : bytes) (sep : ascii) :
  bytes_Split (b ++ [sep]) sep = bytes_Split b sep ++ [[]].
Proof.
  induction b as [|x b IH]; cbn [app bytes_Split].
  - now rewrite Ascii.eqb_refl.
  - destruct (Ascii.eqb x sep); [now rewrite IH|].
    rewrite IH. destruct (bytes_Split b sep) as [|y ys] eqn:E;
      [now apply bytes_Split_not_nil in E|reflexivity].
Qed.

(** X9. The constructor of data fields on every content.  A content of
    at most two bytes gives the error [Invalid Indicators detected] and
    a field without indicators.  A longer content with an empty chunk
    between the subfield delimiters of its bytes from index 3 on gives
    the error [Extraneous field terminator]; so do a content of three
    bytes, which has no subfield, and a content that ends with a
    delimiter.  Every other content gives no error and the field of the
    first two bytes as indicators and of the chunks as subfields; the
    byte at index 2 is not looked at. *)
Theorem makeDataField_cases (tag : string) (data : bytes) :
  (len data <= 2 ->
   makeDataField tag data =
   (mkDataField "" "" tag [], Some "Invalid Indicators detected")) /\
  (2 < len data -> In [] (bytes_Split (skipn 3 data) st) ->
   exists d, makeDataField tag data = (d, Some "Extraneous field terminator")) /\
  (len data = 3 ->
   exists d, makeDataField tag data = (d, Some "Extraneous field terminator")) /\
  (3 <= len data ->
   exists d,
     makeDataField tag (data ++ [st]) = (d, Some "Extraneous field terminator")) /\
  (2 < len data -> ~ In [] (bytes_Split (skipn 3 data) st) ->
   makeDataField tag data =
   (mkDataField (string_of_byte (nth 0 data zero))
                (string_of_byte (nth 1 data zero)) tag
                (map subfield_of_chunk (bytes_Split (skipn 3 data) st)),
    None)).
Proof.
  assert (Hstop : forall data',
             2 < len data' -> In [] (bytes_Split (skipn 3 data') st) ->
             exists d,
               makeDataField tag data' =
               (d, Some "Extraneous field terminator")).
  { intros data' Hlen Hin. unfold makeDataField.
    destruct data' as [|i1 [|i2 [|x rest]]]; try (cbn in Hlen; lia).
    now apply makeDataField_loop_stops. }
  split; [|split; [|split; [|split]]].
  - intros Hlen. unfold makeDataField.
    destruct data as [|i1 [|i2 [|x rest]]]; try reflexivity.
    unfold len in Hlen. cbn in Hlen. lia.
  - apply Hstop.
  - intros Hlen. apply Hstop; [lia|].
    destruct data as [|i1 [|i2 [|x [|y rest]]]];
      unfold len in Hlen; cbn in Hlen; try lia.
    cbn. now left.
  - intros Hlen. apply Hstop; [rewrite len_app; cbn; lia|].
    destruct data as [|i1 [|i2 [|x rest]]];
      unfold len in Hlen; cbn in Hlen; try lia.
    cbn [app skipn]. rewrite bytes_Split_last_sep.
    apply in_or_app. right. now left.
  - intros Hlen Hne. unfold makeDataField.
    destruct data as [|i1 [|i2 [|x rest]]];
      unfold len in Hlen; cbn in Hlen; try lia.
    cbn [skipn] in Hne. rewrite (makeDataField_loop_all _ _ Hne).
    reflexivity.
Qed.

Lemma makeDataField_cases_witness :
  makeDataField "650" (bytes_of_string " 0") =
  (mkDataField "" "" "650" [], Some "Invalid Indicators detected") /\
  (exists d,
      makeDataField "650" content_empty_chunk =
      (d, Some "Extraneous field terminator")) /\
  (exists d,
      makeDataField "650" (bytes_of_string " 0" ++ [st]) =
      (d, Some "Extraneous field terminator")) /\
  (exists d,
      makeDataField "650" (content_650 ++ [st]) =
      (d, Some "Extraneous field terminator")) /\
  makeDataField "650" content_650 = (sample_650_0, None).
Proof.
  split; [|split; [|split; [|split]]].
  - destruct (makeDataField_cases "650" (bytes_of_string " 0")) as [H _].
    apply H. vm_compute. discriminate.
  - destruct (makeDataField_cases "650" content_empty_chunk)
      as (_ & H & _).
    apply H; [vm_compute; reflexivity|vm_compute; tauto].
  - destruct (makeDataField_cases "650" (bytes_of_string " 0" ++ [st]))
      as (_ & _ & H & _).
    apply H. reflexivity.
  - destruct (makeDataField_cases "650" content_650) as (_ & _ & _ & H & _).
    apply H. vm_compute. discriminate.
  - destruct (makeDataField_cases "650" content_650) as (_ & _ & _ & _ & H).
    apply H; [vm_compute; reflexivity|].
    vm_compute. intros [H'|[H'|[]]]; discriminate H'.
Defined.

Lemma bytes_of_string_of_bytes (b : bytes) :
  bytes_of_string (string_of_bytes b) = b.
Proof. apply list_ascii_of_string_of_list_ascii. Qed.

Lemma bytes_of_string_app (s1 s2 : string) :
  bytes_of_string (s1 ++ s2) = bytes_of_string s1 ++ bytes_of_string s2.
Proof.
  unfold bytes_of_string. induction s1 as [|c s1 IH]; cbn; [reflexivity|].
  now rewrite IH.
Qed.

Lemma string_of_byte_ascii (c : ascii) :
  (nat_of_ascii c < 128)%nat -> string_of_byte c = String c EmptyString.
Proof.
  intros H. unfold string_of_byte.
  replace (N_of_ascii c <? 128)%N with true; [reflexivity|].
  symmetry. apply N.ltb_lt. unfold nat_of_ascii in H. lia.
Qed.

Lemma string_of_byte_high (c : ascii) :
  (128 <= nat_of_ascii c)%nat -> String.length (string_of_byte c) = 2%nat.
Proof.
  intros H. unfold string_of_byte.
  replace (N_of_ascii c <? 128)%N with false; [reflexivity|].
  symmetry. apply N.ltb_ge. unfold nat_of_ascii in H. lia.
Qed.

(** X10. The indicators and the subfield codes are made by
    [string(b)] from a single byte [b], which yields the UTF-8 encoding
    of the code point [b]: for a byte below 0x80 the indicator or code
    is that byte, and then code and value together are the bytes of the
    chunk; for a byte from 0x80 on it is a string of two bytes, which is
    not what the record holds. *)
Theorem makeDataField_single_bytes (tag : string) (i1 i2 x : ascii)
    (rest : bytes) (d : DataField) :
  makeDataField tag (i1 :: i2 :: x :: rest) = (d, None) ->
  ((nat_of_ascii i1 < 128)%nat -> bytes_of_string (Indicator1 d) = [i1]) /\
  ((128 <= nat_of_ascii i1)%nat -> String.length (Indicator1 d) = 2%nat) /\
  ((nat_of_ascii i2 < 128)%nat -> bytes_of_string (Indicator2 d) = [i2]) /\
  ((128 <= nat_of_ascii i2)%nat -> String.length (Indicator2 d) = 2%nat) /\
  Forall2
    (fun chunk sf =>
       ((nat_of_ascii (hd zero chunk) < 128)%nat ->
        bytes_of_string (sf_Code sf ++ sf_Value sf) = chunk) /\
       ((128 <= nat_of_ascii (hd zero chunk))%nat ->
        String.length (sf_Code sf) = 2%nat /\
        List.length (bytes_of_string (sf_Code sf ++ sf_Value sf)) =
        S (List.length chunk)))
    (bytes_Split rest st) (SubFields d).
Proof.
  intros H. pose proof (makeDataField_ok _ _ _ H) as [Hne Hsf].
  cbn [skipn] in Hne, Hsf.
  unfold makeDataField in H. apply makeDataField_loop_fields in H.
  cbn in H. destruct H as (Hi1 & Hi2 & _).
  rewrite Hi1, Hi2, Hsf.
  split; [intros Hlt; now rewrite string_of_byte_ascii|].
  split; [apply string_of_byte_high|].
  split; [intros Hlt; now rewrite string_of_byte_ascii|].
  split; [apply string_of_byte_high|].
  clear Hsf.
  induction (bytes_Split rest st) as [|chunk chunks IH]; [constructor|].
  cbn [map]. constructor.
  - destruct chunk as [|c v]; [exfalso; apply Hne; now left|].
    cbn [subfield_of_chunk hd sf_Code sf_Value]. split.
    + intros Hlt. rewrite string_of_byte_ascii by exact Hlt.
      cbn. now rewrite bytes_of_string_of_bytes.
    + intros Hge. split; [now apply string_of_byte_high|].
      rewrite bytes_of_string_app, length_app, bytes_of_string_of_bytes.
      pose proof (string_of_byte_high c Hge) as Hl.
      replace (List.length (bytes_of_string (string_of_byte c))) with 2%nat.
      * cbn. lia.
      * rewrite <- Hl. symmetry.
        rewrite <- (string_of_bytes_length (bytes_of_string _)).
        unfold string_of_bytes, bytes_of_string.
        now rewrite string_of_list_ascii_of_string.
  - apply IH. intros Hin. apply Hne. now right.
Qed.

Lemma makeDataField_single_bytes_witness :
  exists d,
    makeDataField "650" content_high_bytes = (d, None) /\
    bytes_of_string (Indicator1 d) = [" "%char] /\
    String.length (Indicator2 d) = 2%nat /\
    Forall2
      (fun chunk sf =>
         ((nat_of_ascii (hd zero chunk) < 128)%nat ->
          bytes_of_string (sf_Code sf ++ sf_Value sf) = chunk) /\
         ((128 <= nat_of_ascii (hd zero chunk))%nat ->
          String.length (sf_Code sf) = 2%nat /\
          List.length (bytes_of_string (sf_Code sf ++ sf_Value sf)) =
          S (List.length chunk)))
      (bytes_Split ["233"%char; "t"%char] st) (SubFields d).
Proof.
  eexists. split; [vm_compute; reflexivity|].
  pose proof (makeDataField_single_bytes "650" " "%char "233"%char st
                ["233"%char; "t"%char] _ eq_refl) as (H1 & _ & _ & H2 & H3).
  split; [apply H1; vm_compute; lia|].
  split; [apply H2; vm_compute; lia|exact H3].
Defined.

(** * Further properties of the accessors and of the filter *)

(** ** Fields by tag *)

Lemma Record_DataField_spec (r : MarcRecord) (tag : list string) :
  Record_DataField r tag =
  flat_map (fun t => data_fields_with t (Fields r)) tag.
Proof.
  unfold Record_DataField, data_fields_with.
  rewrite (fold_left_appending _
             (fun t =>
                flat_map
                  (fun f =>
                     match f with
                     | FData df => if String.eqb (df_Tag df) t then [df] else []
                     | _ => []
                     end)
                  (Fields r))); [reflexivity|].
  intros acc t.
  apply fold_left_appending. intros fields [cf|df|]; try now rewrite app_nil_r.
  destruct (String.eqb (df_Tag df) t); [reflexivity|now rewrite app_nil_r].
Qed.

Lemma in_data_fields_with (t : string) (fields : list Field) (d : DataField) :
  In d (data_fields_with t fields) <-> In (FData d) fields /\ df_Tag d = t.
Proof.
  unfold data_fields_with. rewrite in_flat_map. split.
  - intros ([cf|df|] & Hin & Hd); try contradiction.
    destruct (String.eqb_spec (df_Tag df) t) as [E|E]; [|contradiction].
    destruct Hd as [<-|[]]. now split.
  - intros [Hin <-]. exists (FData d). split; [exact Hin|].
    rewrite String.eqb_refl. now left.
Qed.

Lemma in_control_fields_with (t : string) (fields : list Field)
    (c : ControlField) :
  In c (control_fields_with t fields) <-> In (FControl c) fields /\ cf_Tag c = t.
Proof.
  unfold control_fields_with. rewrite in_flat_map. split.
  - intros ([cf|df|] & Hin & Hd); try contradiction.
    destruct (String.eqb_spec (cf_Tag cf) t) as [E|E]; [|contradiction].
    destruct Hd as [<-|[]]. now split.
  - intros [Hin <-]. exists (FControl c). split; [exact Hin|].
    rewrite String.eqb_refl. now left.
Qed.

(** X11. [r.DataField(tags...)] returns, for each requested tag in the
    order of the request, the data fields of the record with that tag in
    record order: its elements are exactly the data fields of the record
    whose tag is requested, a tag requested twice contributes its fields
    twice, and the result for two lists of tags one after the other is
    the two results one after the other. *)
Theorem Record_DataField_by_tag (r : MarcRecord) (tags : list string) :
  Record_DataField r tags =
  flat_map
    (fun t =>
       flat_map
         (fun f =>
            match f with
            | FData d => if String.eqb (df_Tag d) t then [d] else []
            | _ => []
            end)
         (Fields r))
    tags /\
  (forall d,
      In d (Record_DataField r tags) <->
      In (FData d) (Fields r) /\ In (df_Tag d) tags) /\
  (forall tags',
      Record_DataField r (tags ++ tags') =
      Record_DataField r tags ++ Record_DataField r tags').
Proof.
  split; [apply Record_DataField_spec|]. split.
  - intros d. rewrite Record_DataField_spec, in_flat_map. split.
    + intros (t & Ht & Hd). apply in_data_fields_with in Hd.
      destruct Hd as [Hin <-]. now split.
    + intros [Hin Ht]. exists (df_Tag d). split; [exact Ht|].
      now apply in_data_fields_with.
  - intros tags'. rewrite !Record_DataField_spec. apply flat_map_app.
Qed.

(** X12. [r.ControlField(tags...)] returns, for each requested tag in
    the order of the request, the control fields of the record with that
    tag in record order: its elements are exactly the control fields of
    the record whose tag is requested, and the result for two lists of
    tags one after the other is the two results one after the other. *)
Theorem Record_ControlField_by_tag (r : MarcRecord) (tags : list string) :
  Record_ControlField r tags =
  flat_map
    (fun t =>
       flat_map
         (fun f =>
            match f with
            | FControl c => if String.eqb (cf_Tag c) t then [c] else []
            | _ => []
            end)
         (Fields r))
    tags /\
  (forall c,
      In c (Record_ControlField r tags) <->
      In (FControl c) (Fields r) /\ In (cf_Tag c) tags) /\
  (forall tags',
      Record_ControlField r (tags ++ tags') =
      Record_ControlField r tags ++ Record_ControlField r tags').
Proof.
  split; [apply Record_ControlField_spec|]. split.
  - intros c. rewrite Record_ControlField_spec, in_flat_map. split.
    + intros (t & Ht & Hd). apply in_control_fields_with in Hd.
      destruct Hd as [Hin <-]. now split.
    + intros [Hin Ht]. exists (cf_Tag c). split; [exact Ht|].
      now apply in_control_fields_with.
  - intros tags'. rewrite !Record_ControlField_spec. apply flat_map_app.
Qed.

(** X13. On a record that the decoder has returned, the two accessors
    divide the tags between them: [DataField] finds nothing for a tag
    that begins with [00], and [ControlField] finds nothing for any
    other tag. *)
Theorem decoded_accessors_by_tag (b : bytes) (rec : MarcRecord)
    (e : option error) (t : string) :
  scanIntoRecord b = Returns (rec, e) ->
  (HasPrefix t "00" = true -> Record_DataField rec [t] = []) /\
  (HasPrefix t "00" = false -> Record_ControlField rec [t] = []).
Proof.
  intros H. apply scanIntoRecord_appends in H.
  destruct H as (_ & fs & -> & Hfs & _). rewrite Forall_forall in Hfs.
  split; intros Ht.
  - destruct (Record_DataField _ [t]) as [|d l] eqn:E; [reflexivity|].
    assert (Hd : In d (Record_DataField (mkRecord b fs (leaderOf b)) [t]))
      by (rewrite E; now left).
    rewrite Record_DataField_spec, in_flat_map in Hd.
    destruct Hd as (t' & [<-|[]] & Hd). apply in_data_fields_with in Hd.
    destruct Hd as [Hin Htag]. apply Hfs in Hin. cbn in Hin.
    destruct Hin as (_ & Hp & _). congruence.
  - destruct (Record_ControlField _ [t]) as [|c l] eqn:E; [reflexivity|].
    assert (Hc : In c (Record_ControlField (mkRecord b fs (leaderOf b)) [t]))
      by (rewrite E; now left).
    rewrite Record_ControlField_spec, in_flat_map in Hc.
    destruct Hc as (t' & [<-|[]] & Hc). apply in_control_fields_with in Hc.
    destruct Hc as [Hin Htag]. apply Hfs in Hin. cbn in Hin.
    destruct Hin as [_ Hp]. congruence.
Qed.

Lemma decoded_accessors_by_tag_witness :
  Record_DataField sample_record ["001"] = [] /\
  Record_ControlField sample_record ["245"] = [].
Proof.
  split.
  - apply (decoded_accessors_by_tag sample_buffer sample_record None "001");
      [vm_compute|]; reflexivity.
  - apply (decoded_accessors_by_tag sample_buffer sample_record None "245");
      [vm_compute|]; reflexivity.
Defined.

(** ** The two shapes of a query *)

Lemma IndexByte_not_in (b : bytes) (c : ascii) :
  ~ In c b -> IndexByte b c = -1.
Proof.
  induction b as [|x b IH]; intros H; cbn [IndexByte]; [reflexivity|].
  destruct (Ascii.eqb_spec x c) as [->|Hx]; [exfalso; apply H; now left|].
  rewrite IH by (intros Hin; apply H; now right). reflexivity.
Qed.

Lemma IndexByte_first (a b : bytes) (c : ascii) :
  ~ In c a -> IndexByte (a ++ c :: b) c = len a.
Proof.
  intros H. rewrite IndexByte_app_not_found by now apply IndexByte_not_in.
  cbn [IndexByte]. rewrite Ascii.eqb_refl. cbn. lia.
Qed.

Lemma string_of_bytes_of_string (s : string) :
  string_of_bytes (bytes_of_string s) = s.
Proof. apply string_of_list_ascii_of_string. Qed.

Lemma len_bytes_tag (tag : string) :
  String.length tag = 3%nat -> List.length (bytes_of_string tag) = 3%nat.
Proof.
  intros H.
  now rewrite <- (string_of_bytes_length (bytes_of_string tag)),
    string_of_bytes_of_string.
Qed.

Lemma slen_bytes (s : string) : slen s = len (bytes_of_string s).
Proof. now rewrite len_bytes_of_string. Qed.

Lemma str_slice_tag (tag rest : string) :
  String.length tag = 3%nat -> str_slice (tag ++ rest) 0 3 = Returns tag.
Proof.
  intros H. pose proof (len_bytes_tag tag H) as Hb.
  unfold str_slice. rewrite bytes_of_string_app.
  rewrite slice_in_range by (rewrite ?len_app; unfold len; lia).
  cbn [bind]. change (Z.to_nat (3 - 0)) with 3%nat.
  change (Z.to_nat 0) with 0%nat. cbn [skipn].
  now rewrite (firstn_app_exact _ _ Hb), string_of_bytes_of_string.
Qed.

Lemma str_slice_from_rest (a rest : string) (n : Z) :
  len (bytes_of_string a) = n ->
  str_slice_from (a ++ rest) n = Returns rest.
Proof.
  intros Hn. unfold str_slice_from, str_slice.
  rewrite slen_bytes, bytes_of_string_app.
  pose proof (len_nonneg (bytes_of_string a)).
  pose proof (len_nonneg (bytes_of_string rest)).
  rewrite slice_in_range by (rewrite ?len_app; lia).
  cbn [bind]. rewrite len_app.
  assert (Ha : List.length (bytes_of_string a) = Z.to_nat n)
    by (unfold len in Hn; lia).
  rewrite (skipn_app_exact _ _ Ha).
  rewrite firstn_all2 by (unfold len in *; lia).
  now rewrite string_of_bytes_of_string.
Qed.

Lemma string_app_assoc (a b c : string) :
  (a ++ (b ++ c))%string = ((a ++ b) ++ c)%string.
Proof. induction a as [|x a IH]; cbn; [reflexivity|now rewrite IH]. Qed.

Lemma Filter_parts_plain (tag subs : string) :
  String.length tag = 3%nat ->
  ~ In "|"%char (bytes_of_string (tag ++ subs)) ->
  Filter_parts (tag ++ subs) = Returns ("*", "*", subs).
Proof.
  intros Ht Hno. unfold Filter_parts, strings_Index.
  rewrite (IndexByte_not_in _ _ Hno). cbn [Z.ltb Z.compare].
  rewrite (str_slice_from_rest tag subs 3); [reflexivity|].
  unfold len. now rewrite (len_bytes_tag tag Ht).
Qed.

Lemma Filter_parts_indicators (tag subs : string) (i1 i2 c : ascii) :
  String.length tag = 3%nat ->
  ~ In "|"%char (bytes_of_string tag) ->
  Filter_parts (tag ++ String "|" (String i1 (String i2 (String c subs)))) =
  Returns (string_of_byte i1, string_of_byte i2, subs).
Proof.
  intros Ht Hno. pose proof (len_bytes_tag tag Ht) as Hb.
  unfold Filter_parts, strings_Index.
  rewrite bytes_of_string_app. cbn [bytes_of_string list_ascii_of_string].
  fold (bytes_of_string subs).
  rewrite (IndexByte_first _ _ _ Hno). unfold len at 1 2 3 4. rewrite Hb.
  change (-1 <? Z.of_nat 3) with true. cbv iota.
  unfold str_index_at. rewrite bytes_of_string_app.
  cbn [bytes_of_string list_ascii_of_string]. fold (bytes_of_string subs).
  rewrite !index_at_nth
    by (rewrite len_app; unfold len; cbn [List.length]; lia).
  cbn [bind]. change (Z.to_nat (Z.of_nat 3 + 1)) with 4%nat.
  change (Z.to_nat (Z.of_nat 3 + 2)) with 5%nat.
  rewrite !app_nth2 by lia. rewrite Hb. cbn [Nat.sub nth].
  change (tag ++ String "|" (String i1 (String i2 (String c subs))))%string
    with (tag ++ (String "|" (String i1 (String i2 (String c ""))) ++ subs))%string.
  rewrite string_app_assoc.
  rewrite (str_slice_from_rest _ subs (Z.of_nat 3 + 4)); [reflexivity|].
  rewrite bytes_of_string_app, len_app. unfold len. rewrite Hb. reflexivity.
Qed.

(** ** Loops that append to their result *)

Lemma bind_Returns {A : Type} (m : outcome A) :
  (x <- m ;; Returns x) = m.
Proof. now destruct m. Qed.

Lemma for_range_app {A S : Type} (body : S -> A -> outcome S)
    (l1 l2 : list A) :
  forall acc,
    for_range (l1 ++ l2) acc body =
    acc' <- for_range l1 acc body ;; for_range l2 acc' body.
Proof.
  induction l1 as [|x l1 IH]; intros acc; cbn [app for_range bind];
    [reflexivity|].
  destruct (body acc x) as [acc'|p]; cbn [bind]; [apply IH|reflexivity].
Qed.

Section Appending.

Context {A B : Type} (body : list B -> A -> outcome (list B)).

Hypothesis body_appends :
  forall acc x, body acc x = r <- body [] x ;; Returns (acc ++ r).

Lemma for_range_appends (l : list A) :
  forall acc,
    for_range l acc body = r <- for_range l [] body ;; Returns (acc ++ r).
Proof.
  induction l as [|x l IH]; intros acc; cbn [for_range bind].
  - now rewrite app_nil_r.
  - destruct (body [] x) as [g|p] eqn:E; rewrite (body_appends acc x), E;
      cbn [bind]; [|reflexivity].
    rewrite (IH (acc ++ g)), (IH g).
    destruct (for_range l [] body) as [r|p]; cbn [bind]; [|reflexivity].
    now rewrite app_assoc.
Qed.

Lemma for_range_flat_map (sel : A -> list B) (l : list A) :
  (forall x, In x l -> body [] x = Returns (sel x)) ->
  for_range l [] body = Returns (flat_map sel l).
Proof.
  induction l as [|x l IH]; intros H; cbn [for_range flat_map];
    [reflexivity|].
  rewrite (H x) by now left. cbn [bind].
  rewrite for_range_appends, IH by (intros y Hy; apply H; now right).
  reflexivity.
Qed.

Lemma for_range_each (P : B -> Prop) (n : nat) (l : list A) :
  (forall x g, In x l -> body [] x = Returns g ->
               Forall P g /\ (List.length g <= n)%nat) ->
  forall res,
    for_range l [] body = Returns res ->
    Forall P res /\ (List.length res <= n * List.length l)%nat.
Proof.
  induction l as [|x l IH]; intros H res Hres; cbn [for_range] in Hres.
  - injection Hres as <-. split; [constructor|cbn; lia].
  - destruct (body [] x) as [g|p] eqn:E; [cbn [bind] in Hres|discriminate].
    rewrite for_range_appends in Hres.
    destruct (for_range l [] body) as [r|p] eqn:El; [|discriminate].
    injection Hres as <-.
    destruct (H x g (or_introl eq_refl) E) as [Hg Hn].
    destruct (IH (fun y g' Hy => H y g' (or_intror Hy)) r eq_refl)
      as [Hr Hm].
    split; [now apply Forall_app|].
    rewrite length_app. cbn [List.length]. lia.
Qed.

End Appending.

(** ** The groups of a query *)

Lemma Filter_field_sel (q tag ind1 ind2 subs : string)
    (res : list (list string)) (f : Field) :
  Filter_parts q = Returns (ind1, ind2, subs) ->
  Filter_field q tag res f = Returns (res ++ groups_sel tag ind1 ind2 subs f).
Proof.
  intros Hp. destruct f as [cf|d|]; simpl.
  - destruct (String.eqb (cf_Tag cf) tag); [reflexivity|now rewrite app_nil_r].
  - rewrite Hp. cbn [bind]. unfold DataField_matches. cbv zeta.
    match goal with
    | |- context [if ?c then _ else _] => destruct c
    end; [|now rewrite app_nil_r].
    replace (if negb (slen subs =? 0)
             then append_values [] (DataField_SubField d (explode subs))
             else append_values [] (SubFields d))
      with (selected_values subs d).
    + destruct (selected_values subs d) as [|v vs]; simpl;
        [now rewrite app_nil_r|reflexivity].
    + unfold selected_values.
      now rewrite !append_values_spec, DataField_SubField_spec.
  - now rewrite app_nil_r.
Qed.

Lemma Filter_field_appends (q tag : string) (res : list (list string))
    (f : Field) :
  Filter_field q tag res f =
  r <- Filter_field q tag [] f ;; Returns (res ++ r).
Proof.
  destruct (Filter_parts q) as [[[ind1 ind2] subs]|p] eqn:Hp.
  - now rewrite !(Filter_field_sel q tag ind1 ind2 subs _ f Hp).
  - destruct f as [cf|d|]; simpl.
    + destruct (String.eqb (cf_Tag cf) tag); cbn [bind];
        [reflexivity|now rewrite app_nil_r].
    + now rewrite Hp.
    + now rewrite app_nil_r.
Qed.

Lemma Filter_query_appends (r : MarcRecord) (res : list (list string))
    (q : string) :
  (tag <- str_slice q 0 3 ;; for_range (Fields r) res (Filter_field q tag)) =
  g <- (tag <- str_slice q 0 3 ;; for_range (Fields r) [] (Filter_field q tag)) ;;
  Returns (res ++ g).
Proof.
  destruct (str_slice q 0 3) as [tag|p]; cbn [bind]; [|reflexivity].
  apply for_range_appends. intros acc f. apply Filter_field_appends.
Qed.

Lemma Record_Filter_one (r : MarcRecord) (q : string) :
  Record_Filter r [q] =
  tag <- str_slice q 0 3 ;; for_range (Fields r) [] (Filter_field q tag).
Proof.
  unfold Record_Filter. cbn [for_range]. apply bind_Returns.
Qed.

Lemma group_cases (values : list string) :
  Forall (fun g : list string => g <> []) (group values) /\
  (List.length (group values) <= 1)%nat.
Proof.
  destruct values as [|v vs]; cbn; split; try lia; repeat constructor.
  discriminate.
Qed.

Lemma Filter_field_group (q tag : string) (f : Field) (g : list (list string)) :
  Filter_field q tag [] f = Returns g ->
  Forall (fun g : list string => g <> []) g /\ (List.length g <= 1)%nat.
Proof.
  destruct (Filter_parts q) as [[[ind1 ind2] subs]|p] eqn:Hp.
  - rewrite (Filter_field_sel q tag ind1 ind2 subs _ f Hp). cbn [app].
    intros [= <-]. destruct f as [cf|d|]; cbn.
    + destruct (String.eqb (cf_Tag cf) tag); cbn; split; try lia;
        repeat constructor. discriminate.
    + match goal with
      | |- context [if ?c then _ else _] => destruct c
      end; [apply group_cases|cbn; split; [constructor|lia]].
    + split; [constructor|lia].
  - destruct f as [cf|d|]; simpl.
    + destruct (String.eqb (cf_Tag cf) tag); intros [= <-]; cbn; split;
        try lia; repeat constructor. discriminate.
    + rewrite Hp. discriminate.
    + intros [= <-]. split; [constructor|cbn; lia].
Qed.

(** X14. A query without [|], made of a tag of three bytes and of
    subfield codes [subs]: on every record [Filter] returns, in record
    order, one group for each control field with the tag, holding its
    value, and one group for each data field with the tag that yields a
    value: all the values of its subfields in field order when [subs]
    is empty, else the values of its subfields with the requested codes,
    code by code in the order of the request. *)
Theorem Filter_plain_query (r : MarcRecord) (tag subs : string) :
  String.length tag = 3%nat ->
  ~ In "|"%char (bytes_of_string (tag ++ subs)) ->
  Record_Filter r [(tag ++ subs)%string] =
  Returns
    (flat_map
       (fun f =>
          match f with
          | FControl cf =>
              if String.eqb (cf_Tag cf) tag then [[cf_Value cf]] else []
          | FData d =>
              if String.eqb (df_Tag d) tag
              then
                group
                  (if negb (slen subs =? 0)
                   then
                     map sf_Value
                       (flat_map (fun c => subfields_with c d) (explode subs))
                   else map sf_Value (SubFields d))
              else []
          | FOther => []
          end)
       (Fields r)).
Proof.
  intros Ht Hno. rewrite Record_Filter_one, (str_slice_tag tag subs Ht).
  cbn [bind].
  rewrite (Filter_fields_plain _ tag subs (Fields r)
             (Filter_parts_plain tag subs Ht Hno)).
  reflexivity.
Qed.

Lemma Filter_plain_query_witness :
  Record_Filter sample_record ["650xa"] =
  Returns [["Juvenile poetry."; "Poetry"]; ["Poetry."; "Children"]] /\
  Record_Filter sample_record ["245"] = Returns [["Title /"; "Author."]].
Proof.
  split.
  - apply (Filter_plain_query sample_record "650" "xa"); [reflexivity|].
    vm_compute. intuition discriminate.
  - apply (Filter_plain_query sample_record "245" ""); [reflexivity|].
    vm_compute. intuition discriminate.
Defined.

(** X15. A query with an indicator filter, made of a tag of three bytes,
    a [|], two indicator bytes, one more byte and subfield codes: on
    every record [Filter] returns the groups of the control fields with
    the tag and of the data fields with the tag whose indicators are the
    requested ones, [*] standing for any indicator.  The byte after the
    two indicators is not looked at: it need not be a [|]. *)
Theorem Filter_indicator_query (r : MarcRecord) (tag subs : string)
    (i1 i2 c : ascii) :
  String.length tag = 3%nat ->
  ~ In "|"%char (bytes_of_string tag) ->
  Record_Filter r
    [(tag ++ String "|" (String i1 (String i2 (String c subs))))%string] =
  Returns
    (flat_map
       (groups_sel tag (string_of_byte i1) (string_of_byte i2) subs)
       (Fields r)).
Proof.
  intros Ht Hno. rewrite Record_Filter_one, (str_slice_tag tag _ Ht).
  cbn [bind]. apply for_range_flat_map.
  - intros acc f. apply Filter_field_appends.
  - intros f _.
    now rewrite (Filter_field_sel _ tag _ _ subs [] f
                   (Filter_parts_indicators tag subs i1 i2 c Ht Hno)).
Qed.

Lemma Filter_indicator_query_witness :
  Record_Filter sample_record ["650|*0|x"] = Returns [["Juvenile poetry."]] /\
  Record_Filter sample_record ["650|*0Xx"] = Returns [["Juvenile poetry."]].
Proof.
  split.
  - apply (Filter_indicator_query sample_record "650" "x" "*" "0" "|");
      [reflexivity|]. vm_compute. intuition discriminate.
  - apply (Filter_indicator_query sample_record "650" "x" "*" "0" "X");
      [reflexivity|]. vm_compute. intuition discriminate.
Defined.

(** X16. The result of [Filter] for two lists of queries one after the
    other is the result for the first list followed by the result for
    the second; it panics if one of the two does, the first one first. *)
Theorem Record_Filter_app (r : MarcRecord) (queries queries' : list string) :
  Record_Filter r (queries ++ queries') =
  res <- Record_Filter r queries ;;
  res' <- Record_Filter r queries' ;;
  Returns (res ++ res').
Proof.
  unfold Record_Filter. rewrite for_range_app.
  destruct (for_range queries [] _) as [res|p]; cbn [bind]; [|reflexivity].
  apply for_range_appends. intros acc q. apply Filter_query_appends.
Qed.

(** X17. A result of [Filter] holds no empty group, and at most one
    group for each pair of a query and a field of the record. *)
Theorem Record_Filter_groups (r : MarcRecord) (queries : list string)
    (res : list (list string)) :
  Record_Filter r queries = Returns res ->
  Forall (fun g => g <> []) res /\
  (List.length res <= List.length (Fields r) * List.length queries)%nat.
Proof.
  unfold Record_Filter.
  apply (for_range_each
           (fun res q =>
              tag <- str_slice q 0 3 ;;
              for_range (Fields r) res (Filter_field q tag))).
  - intros acc q. apply Filter_query_appends.
  - intros q g _ Hg.
    destruct (str_slice q 0 3) as [tag|p]; [cbn [bind] in Hg|discriminate].
    rewrite <- (Nat.mul_1_l (List.length (Fields r))).
    apply (for_range_each (Filter_field q tag)) with (l := Fields r).
    + intros acc f. apply Filter_field_appends.
    + intros f g' _. apply Filter_field_group.
    + exact Hg.
Qed.

Lemma Record_Filter_groups_witness :
  Forall (fun g => g <> [])
    [["Title /"]; ["Juvenile poetry."]; ["Poetry."]] /\
  (List.length [["Title /"]; ["Juvenile poetry."]; ["Poetry."]] <=
   List.length (Fields sample_record) *
   List.length ["245a"; "650x"; "100"])%nat.
Proof.
  apply (Record_Filter_groups sample_record ["245a"; "650x"; "100"]).
  vm_compute. reflexivity.
Defined.

Lemma map_flat_map {A B C : Type} (g : B -> C) (sel : A -> list B)
    (l : list A) :
  map g (flat_map sel l) = flat_map (fun x => map g (sel x)) l.
Proof.
  induction l as [|x l IH]; cbn [flat_map map]; [reflexivity|].
  now rewrite map_app, IH.
Qed.

(** X18. On a record without data fields [Filter] reads the first three
    bytes of a query and nothing else of it: whatever follows the tag,
    be it an indicator filter cut short, the result is one group for
    each control field with the tag, holding its value. *)
Theorem Filter_control_fields_only (r : MarcRecord) (tag rest : string) :
  no_data_field r ->
  String.length tag = 3%nat ->
  Record_Filter r [(tag ++ rest)%string] =
  Returns (map (fun cf => [cf_Value cf]) (control_fields_with tag (Fields r))).
Proof.
  intros Hno Ht. rewrite Record_Filter_one, (str_slice_tag tag rest Ht).
  cbn [bind].
  unfold control_fields_with. rewrite map_flat_map.
  apply for_range_flat_map.
  - intros acc f. apply Filter_field_appends.
  - intros [cf|d|] Hin; cbn.
    + now destruct (String.eqb (cf_Tag cf) tag).
    + now apply Hno in Hin.
    + reflexivity.
Qed.

Lemma Filter_control_fields_only_witness :
  Record_Filter control_only_record ["001|"] = Returns [["  92005291"]].
Proof.
  apply (Filter_control_fields_only control_only_record "001" "|").
  - intros d [H|[]]. discriminate H.
  - reflexivity.
Defined.

(** * Further properties of the framer *)

(** ** Arrays that [Value] adds to the store *)

Lemma scanner_inv_alloc (h : store) (s : Scanner) (arr : bytes) :
  scanner_inv h s -> scanner_inv (h ++ [arr]) s.
Proof.
  intros (Hok & H0 & H1 & H2 & H3).
  assert (Hl : buf_len (h ++ [arr]) s = buf_len h s).
  { unfold buf_len. destruct (sc_buf s) as [l|] eqn:E; [|reflexivity].
    now rewrite (alloc_old h arr l (Hok l E)). }
  split.
  - intros l E. rewrite length_app. specialize (Hok l E). lia.
  - rewrite Hl. tauto.
Qed.

Lemma pending_alloc (h : store) (s : Scanner) (arr : bytes) :
  scanner_inv h s -> pending (h ++ [arr]) s = pending h s.
Proof.
  intros (Hok & _). unfold pending. apply load_old.
  unfold buf_slice. destruct (sc_buf s) as [l|] eqn:E; cbn.
  - intros l' [= <-]. now apply Hok.
  - discriminate.
Qed.

Section Stream.

Context {R : Type} {reader : Reader R}.
Variable rest : R -> bytes.
Hypothesis Hreader : eof_apart rest.

Lemma yields_alloc (h : store) (s : Scanner) (r : R) (bufs : list bytes)
    (tail arr : bytes) :
  yields rest h s r bufs tail -> yields rest (h ++ [arr]) s r bufs tail.
Proof.
  intros ((Hinv & Hdone & Herr) & Hmax & Hsmall & Hrem).
  split; [|split; [exact Hmax|split; [exact Hsmall|]]].
  - split; [now apply scanner_inv_alloc|now split].
  - now rewrite pending_alloc.
Qed.

Lemma ended_alloc (h : store) (s : Scanner) (r : R) (arr : bytes) :
  ended rest h s r -> ended rest (h ++ [arr]) s r.
Proof.
  intros (Hinv & H). split; [now apply scanner_inv_alloc|exact H].
Qed.

Lemma IndexByte_stream (b more : bytes) :
  ~ In rt b -> IndexByte ((b ++ [rt]) ++ more) rt = len b.
Proof.
  intros H. rewrite <- app_assoc. cbn [app]. now apply IndexByte_first.
Qed.

Lemma Max_small : MaxScanTokenSize <= maxInt / 2.
Proof. vm_compute. discriminate. Qed.

Lemma yields_record (h : store) (s : Scanner) (r : R) (b : bytes)
    (bufs : list bytes) (tail : bytes) :
  yields rest h s r (b :: bufs) tail ->
  exists h' s' r',
    MarcIterator_Next h s r = Scanned true h' s' r' /\
    load h' (Scanner_Bytes s') = b /\
    yields rest h' s' r' bufs tail.
Proof using Hreader.
  intros (Hlive & Hmax & Hsmall & Hrem).
  destruct (Hsmall b (or_introl eq_refl)) as [Hb Hlen].
  cbn [flat_map] in Hrem. rewrite <- app_assoc in Hrem.
  set (more := flat_map (fun b => b ++ [rt]) bufs ++ tail) in *.
  assert (Hi : IndexByte (pending h s ++ rest r) rt = len b)
    by (rewrite Hrem; now apply IndexByte_stream).
  pose proof (len_nonneg b) as Hb0.
  unfold MarcIterator_Next.
  destruct (Scan_live rest Hreader h s r Hlive)
    as (ok & h' & s' & r' & E & Em & Hres).
  - rewrite Hmax. apply Max_small.
  - intros _. rewrite Hi, Hmax. exact Hlen.
  - intros Hn. rewrite Hi in Hn. lia.
  - rewrite Hi in Hres.
    replace (0 <=? len b) with true in Hres by (symmetry; apply Z.leb_le; lia).
    destruct Hres as (-> & Hlive' & Etok & Erem).
    exists h', s', r'. split; [exact E|]. split.
    + unfold Scanner_Bytes. rewrite Etok, Hrem.
      unfold len. rewrite Nat2Z.id. rewrite <- app_assoc.
      now apply firstn_app_exact.
    + split; [exact Hlive'|]. split; [congruence|]. split.
      * intros b' Hb'. apply Hsmall. now right.
      * rewrite Erem, Hrem. unfold len.
        replace (Z.to_nat (Z.of_nat (List.length b) + 1))
          with (List.length (b ++ [rt]))
          by (rewrite length_app; cbn; lia).
        now apply skipn_app_exact.
Qed.

Lemma yields_end (h : store) (s : Scanner) (r : R) :
  yields rest h s r [] [] ->
  exists h' s' r',
    MarcIterator_Next h s r = Scanned false h' s' r' /\ ended rest h' s' r'.
Proof using Hreader.
  intros (Hlive & Hmax & _ & Hrem). cbn [flat_map app] in Hrem.
  unfold MarcIterator_Next.
  destruct (Scan_live rest Hreader h s r Hlive)
    as (ok & h' & s' & r' & E & Em & Hres).
  - rewrite Hmax. apply Max_small.
  - rewrite Hrem. cbn. lia.
  - intros _. rewrite Hrem, Hmax. vm_compute. reflexivity.
  - rewrite Hrem in Hres. cbn in Hres. destruct Hres as [Hended ->].
    now exists h', s', r'.
Qed.

Lemma yields_trailing (h : store) (s : Scanner) (r : R) (tail : bytes) :
  yields rest h s r [] tail ->
  tail <> [] -> ~ In rt tail -> len tail < MaxScanTokenSize ->
  exists h' s' r',
    MarcIterator_Next h s r = Scanned true h' s' r' /\
    load h' (Scanner_Bytes s') = tail /\ ended rest h' s' r'.
Proof using Hreader.
  intros (Hlive & Hmax & _ & Hrem) Hne Hno Hlen. cbn [flat_map app] in Hrem.
  pose proof (IndexByte_not_in tail rt Hno) as Hi.
  unfold MarcIterator_Next.
  destruct (Scan_live rest Hreader h s r Hlive)
    as (ok & h' & s' & r' & E & Em & Hres).
  - rewrite Hmax. apply Max_small.
  - rewrite Hrem, Hi. lia.
  - intros _. now rewrite Hrem, Hmax.
  - rewrite Hrem, Hi in Hres. change (0 <=? -1) with false in Hres.
    destruct Hres as [Hended Hres].
    destruct tail as [|x xs]; [contradiction|].
    destruct Hres as [-> Etok]. now exists h', s', r'.
Qed.

Lemma ended_Next (h : store) (s : Scanner) (r : R) :
  ended rest h s r ->
  exists s', MarcIterator_Next h s r = Scanned false h s' r /\ ended rest h s' r.
Proof. apply Scan_ended. Qed.

Lemma ended_Err (h : store) (s : Scanner) (r : R) :
  ended rest h s r -> MarcIterator_Err s = None.
Proof.
  intros (_ & _ & Herr & _). unfold MarcIterator_Err, Scanner_Err.
  now rewrite Herr.
Qed.

Lemma yields_Err (h : store) (s : Scanner) (r : R) (bufs : list bytes)
    (tail : bytes) :
  yields rest h s r bufs tail -> MarcIterator_Err s = None.
Proof.
  intros ((_ & _ & Herr) & _). unfold MarcIterator_Err, Scanner_Err.
  now rewrite Herr.
Qed.

Lemma Next_calls_ended (k : nat) :
  forall h s r,
    ended rest h s r -> Next_calls k h s r = Some (repeat false k, None).
Proof.
  induction k as [|k IH]; intros h s r H; cbn [Next_calls repeat].
  - now rewrite (ended_Err h s r H).
  - destruct (ended_Next h s r H) as (s' & -> & H'). now rewrite (IH h s' r H').
Qed.

Lemma Next_calls_yields (bufs : list bytes) :
  forall k h s r tail,
    yields rest h s r bufs tail ->
    ~ In rt tail -> len tail < MaxScanTokenSize ->
    let n := List.length (bufs ++ match tail with [] => [] | _ => [tail] end) in
    Next_calls k h s r =
    Some (repeat true (Nat.min k n) ++ repeat false (k - n), None).
Proof using Hreader.
  induction bufs as [|b bufs IH]; intros k h s r tail H Hno Hlen n.
  - destruct k as [|k]; [cbn; now rewrite (yields_Err h s r [] tail H)|].
    cbn [Next_calls]. destruct tail as [|x xs].
    + destruct (yields_end h s r H) as (h' & s' & r' & -> & H').
      now rewrite (Next_calls_ended k h' s' r' H').
    + destruct (yields_trailing h s r (x :: xs) H ltac:(discriminate) Hno Hlen)
        as (h' & s' & r' & -> & _ & H').
      rewrite (Next_calls_ended k h' s' r' H'). subst n. cbn [app List.length].
      destruct k; cbn; now rewrite ?Nat.sub_0_r.
  - destruct k as [|k];
      [cbn; now rewrite (yields_Err h s r (b :: bufs) tail H)|].
    cbn [Next_calls].
    destruct (yields_record h s r b bufs tail H) as (h' & s' & r' & -> & _ & H').
    now rewrite (IH k h' s' r' tail H' Hno Hlen).
Qed.

Lemma yields_new (r : R) (recs : list bytes) (tail : bytes) :
  rest r = flat_map (fun b => b ++ [rt]) recs ++ tail ->
  (forall b, In b recs -> ~ In rt b /\ len b < MaxScanTokenSize) ->
  yields rest [] NewMarcIterator r recs tail.
Proof.
  intros Hrest Hrecs.
  split; [split; [apply NewMarcIterator_inv|now split]|].
  split; [reflexivity|]. split; [exact Hrecs|exact Hrest].
Qed.

End Stream.

(** ** Calls of [Next] to the end of a stream *)

(** X19. A stream of records shorter than [bufio.MaxScanTokenSize], each
    followed by its terminator, and of trailing bytes, from a reader
    that reports the end of the input by a read of its own: [Next]
    returns true once for each record and once for the trailing bytes
    if there are any, then false at every further call, and [Err] is
    nil after each of the calls. *)
Theorem Next_to_the_end {R : Type} {reader : Reader R}
    (rest : R -> bytes) (r : R) (recs : list bytes) (trailing : bytes)
    (k : nat) :
  eof_apart rest ->
  rest r = flat_map (fun b => b ++ [rt]) recs ++ trailing ->
  (forall b, In b recs -> ~ In rt b /\ len b < MaxScanTokenSize) ->
  ~ In rt trailing -> len trailing < MaxScanTokenSize ->
  let n :=
    List.length (recs ++ match trailing with [] => [] | _ => [trailing] end) in
  Next_calls k [] NewMarcIterator r =
  Some (repeat true (Nat.min k n) ++ repeat false (k - n), None).
Proof.
  intros Hreader Hrest Hrecs Hno Hlen.
  apply (Next_calls_yields rest Hreader recs k [] NewMarcIterator r trailing);
    trivial.
  now apply yields_new.
Qed.

Lemma Next_to_the_end_witness :
  Next_calls 5 [] NewMarcIterator
    (mkPlainReader (two_records ++ bytes_of_string "C")) =
  Some ([true; true; true; false; false], None).
Proof.
  apply (Next_to_the_end plain_rest
           (mkPlainReader (two_records ++ bytes_of_string "C"))
           [bytes_of_string "A"; bytes_of_string "B"]
           (bytes_of_string "C") 5).
  - exact plainReader_eof_apart.
  - reflexivity.
  - intros b [<-|[<-|[]]]; (split; [|reflexivity]);
      intros [H|[]]; discriminate H.
  - intros [H|[]]; discriminate H.
  - reflexivity.
Defined.

(** ** A record that does not fit the buffer of the scanner *)

Lemma app_prefix_no (a b long more : bytes) (c : ascii) :
  a ++ b = long ++ more -> (List.length a <= List.length long)%nat ->
  ~ In c long -> ~ In c a.
Proof.
  intros E Hlen Hno Hin. apply app_eq_app in E.
  destruct E as (l & [[-> _]|[-> _]]).
  - rewrite length_app in Hlen. destruct l as [|x l]; [|cbn in Hlen; lia].
    rewrite app_nil_r in Hin. contradiction.
  - apply Hno. apply in_or_app. now left.
Qed.

Section TooLong.

Context {R : Type} {reader : Reader R}.
Variable rest : R -> bytes.
Hypothesis Hreader : eof_apart rest.

Lemma Scan_grow_full (h : store) (s : Scanner) :
  scanner_inv h s -> sc_end s - sc_start s = sc_maxTokenSize s ->
  Scan_grow h s = None.
Proof.
  intros (_ & H0 & H1 & H2 & H3) Hfull. unfold Scan_grow.
  replace (sc_end s =? buf_len h s) with true
    by (symmetry; apply Z.eqb_eq; lia).
  replace (sc_maxTokenSize s <=? buf_len h s) with true
    by (symmetry; apply Z.leb_le; lia).
  reflexivity.
Qed.

Lemma Scan_loop_too_long (fuel : nat) :
  forall h s r long more,
    live h s -> sc_maxTokenSize s <= maxInt / 2 ->
    (Z.to_nat (sc_maxTokenSize s - (sc_end s - sc_start s)) + 2 <= fuel)%nat ->
    pending h s ++ rest r = long ++ more ->
    ~ In rt long -> len long = sc_maxTokenSize s ->
    exists h' s' r',
      Scan_loop fuel h s r = Scanned false h' s' r' /\
      sc_err s' = Some ErrTooLong.
Proof using Hreader.
  induction fuel as [|fuel IH];
    intros h s r long more Hlive Hmax Hfuel Hrem Hno Hlong; [lia|].
  destruct Hlive as (Hinv & Hdone & Herr).
  pose proof Hinv as (Hok & H0 & H1 & H2 & H3).
  pose proof (len_pending h s Hinv) as Hlen.
  assert (Hp : IndexByte (pending h s) rt = -1).
  { apply IndexByte_not_in.
    apply (app_prefix_no _ (rest r) long more rt Hrem); [|exact Hno].
    unfold len in *. lia. }
  destruct (Scan_split_not_found h s r Hinv Herr Hp)
    as (s1 & Hsplit & Eb1 & Es1 & Ee1 & Em1 & Eerr1 & Ed1).
  cbn [Scan_loop]. rewrite Hsplit, Eerr1.
  assert (Hinv1 : scanner_inv h s1)
    by (apply (scanner_inv_same_buf h s); trivial; rewrite ?Es1, ?Ee1; lia).
  pose proof (pending_same_fields h s s1 Eb1 Es1 Ee1) as Ep1.
  destruct (Scan_shift h s1) as [h2 s2] eqn:E2.
  destruct (Scan_shift_inv h s1 h2 s2 Hinv1 E2) as (Hinv2 & Ed2 & Em2 & Ee2).
  destruct (Scan_shift_pending h s1 h2 s2 Hinv1 E2) as (Ep2 & Edone2 & Hfull2).
  destruct (Z.eq_dec (sc_end s - sc_start s) (sc_maxTokenSize s)) as [Hfull|Hroom0].
  - (* the buffer is full and has its greatest size *)
    rewrite (Scan_grow_full h2 s2 Hinv2) by congruence.
    exists h2, (setErr s2 ErrTooLong), r. split; [reflexivity|].
    apply setErr_sets. congruence.
  - destruct (Scan_grow_some h2 s2 Hinv2 Hfull2) as (h3 & s3 & E3);
      [rewrite Ep2, Ep1, Em2, Em1; lia|rewrite Em2, Em1; exact Hmax|].
    rewrite E3.
    destruct (Scan_grow_inv h2 s2 h3 s3 Hinv2 E3)
      as (Hinv3 & Ed3 & Em3 & Ee3 & Hroom).
    destruct (Scan_grow_pending h2 s2 h3 s3 Hinv2 E3) as (Ep3 & Edone3).
    assert (Herr3 : sc_err s3 = None) by congruence.
    assert (Hrest : rest r <> []).
    { intros Er. rewrite Er, app_nil_r in Hrem.
      assert (El : len (pending h s) = len (long ++ more)) by now rewrite Hrem.
      rewrite len_app in El. pose proof (len_nonneg more). lia. }
    destruct (read_loop_data rest Hreader maxConsecutiveEmptyReads h3 s3 r
                Hinv3 Herr3 Hroom Hrest)
      as (data & h4 & s4 & r4 & -> & Hinv4 & Eerr4 & Edone4 & Em4 & Ep4 &
          Er4 & Hdata & Ed4).
    assert (Em40 : sc_maxTokenSize s4 = sc_maxTokenSize s) by congruence.
    apply (IH h4 s4 r4 long more).
    + split; [exact Hinv4|split; [congruence|exact Eerr4]].
    + now rewrite Em40.
    + rewrite Em40. pose proof Hinv4 as (_ & ? & ? & ? & ?). lia.
    + rewrite Ep4, Ep3, Ep2, Ep1, <- app_assoc, <- Er4. exact Hrem.
    + exact Hno.
    + now rewrite Em40.
Qed.

Lemma yields_too_long (h : store) (s : Scanner) (r : R) (long more : bytes) :
  yields rest h s r [] (long ++ more) ->
  ~ In rt long -> len long = MaxScanTokenSize ->
  exists h' s' r',
    MarcIterator_Next h s r = Scanned false h' s' r' /\
    MarcIterator_Err s' = Some ErrTooLong.
Proof using Hreader.
  intros ((Hinv & Hdone & Herr) & Hmax & _ & Hrem) Hno Hlong.
  cbn [flat_map app] in Hrem.
  pose proof Hinv as (Hok & H0 & H1 & H2 & H3).
  unfold MarcIterator_Next, Scan. rewrite Hdone.
  assert (Hinv' : scanner_inv h (with_scanCalled s))
    by (apply (scanner_inv_same_buf h s); trivial; simpl; lia).
  destruct (Scan_loop_too_long (Z.to_nat (sc_maxTokenSize s) + 2)
              h (with_scanCalled s) r long more)
    as (h' & s' & r' & E & Eerr); trivial.
  - split; [exact Hinv'|]. now split.
  - cbn. rewrite Hmax. apply Max_small.
  - cbn. lia.
  - cbn. congruence.
  - exists h', s', r'. split; [exact E|].
    unfold MarcIterator_Err, Scanner_Err. now rewrite Eerr.
Qed.

Lemma Next_calls_too_long (bufs : list bytes) :
  forall h s r long more,
    yields rest h s r bufs (long ++ more) ->
    ~ In rt long -> len long = MaxScanTokenSize ->
    Next_calls (S (List.length bufs)) h s r =
    Some (repeat true (List.length bufs) ++ [false], Some ErrTooLong) /\
    forall k, frames k h s r = firstn k bufs.
Proof using Hreader.
  induction bufs as [|b bufs IH]; intros h s r long more H Hno Hlong.
  - destruct (yields_too_long h s r long more H Hno Hlong)
      as (h' & s' & r' & E & Eerr).
    split.
    + cbn [Next_calls List.length repeat app]. now rewrite E, Eerr.
    + intros [|k]; [reflexivity|]. cbn [frames]. now rewrite E.
  - destruct (yields_record rest Hreader h s r b bufs _ H)
      as (h' & s' & r' & E & Etok & H').
    destruct (IH h' s' r' long more H' Hno Hlong) as [Hcalls Hframes].
    split.
    + change (Next_calls (S (List.length (b :: bufs))) h s r)
        with (match MarcIterator_Next h s r with
              | Scanned ok h' m' r' =>
                  match Next_calls (S (List.length bufs)) h' m' r' with
                  | Some (oks, e) => Some (ok :: oks, e)
                  | None => None
                  end
              | _ => None
              end).
      now rewrite E, Hcalls.
    + intros [|k]; [reflexivity|]. cbn [frames firstn].
      now rewrite E, Etok, Hframes.
Qed.

End TooLong.

(** X20. A stream that goes on, after some records shorter than
    [bufio.MaxScanTokenSize], with as many bytes as
    [bufio.MaxScanTokenSize] without a record terminator, from a reader
    that reports the end of the input by a read of its own: the framer
    yields the records before these bytes and no other buffer; the call
    of [Next] after them returns false, and [Err] is then
    [bufio.ErrTooLong]. *)
Theorem Next_record_too_long {R : Type} {reader : Reader R}
    (rest : R -> bytes) (r : R) (recs : list bytes) (long more : bytes) :
  eof_apart rest ->
  rest r = flat_map (fun b => b ++ [rt]) recs ++ long ++ more ->
  (forall b, In b recs -> ~ In rt b /\ len b < MaxScanTokenSize) ->
  ~ In rt long -> len long = MaxScanTokenSize ->
  Next_calls (S (List.length recs)) [] NewMarcIterator r =
  Some (repeat true (List.length recs) ++ [false], Some ErrTooLong) /\
  forall k, frames k [] NewMarcIterator r = firstn k recs.
Proof.
  intros Hreader Hrest Hrecs Hno Hlong.
  apply (Next_calls_too_long rest Hreader recs [] NewMarcIterator r long more);
    trivial.
  now apply yields_new.
Qed.

Lemma Next_record_too_long_witness :
  Next_calls 2 [] NewMarcIterator
    (mkPlainReader (bytes_of_string "A" ++ [rt] ++ long_record ++ [rt])) =
  Some ([true; false], Some ErrTooLong) /\
  frames 3 [] NewMarcIterator
    (mkPlainReader (bytes_of_string "A" ++ [rt] ++ long_record ++ [rt])) =
  [bytes_of_string "A"].
Proof.
  destruct (Next_record_too_long plain_rest
              (mkPlainReader
                 (bytes_of_string "A" ++ [rt] ++ long_record ++ [rt]))
              [bytes_of_string "A"] long_record [rt]) as [H1 H2].
  - exact plainReader_eof_apart.
  - reflexivity.
  - intros b [<-|[]]. split; [|reflexivity]. intros [H|[]]; discriminate H.
  - intros H. apply repeat_spec in H. discriminate H.
  - unfold len, long_record. rewrite repeat_length.
    apply Z2Nat.id. vm_compute. discriminate.
  - split; [exact H1|exact (H2 3%nat)].
Defined.

(** ** [splitFunc] and the calls of [Next] *)

Lemma IndexByte_in (b : bytes) (c : ascii) :
  In c b -> 0 <= IndexByte b c.
Proof.
  induction b as [|x b IH]; intros H; [contradiction|]. cbn [IndexByte].
  destruct (Ascii.eqb_spec x c) as [->|Hx]; [lia|].
  destruct H as [H|H]; [contradiction|]. specialize (IH H).
  destruct (IndexByte b c <? 0) eqn:E; [apply Z.ltb_lt in E; lia|lia].
Qed.

(** X21. [splitFunc] on the bytes [data] of a buffer.  It returns no
    error and an advance between 0 and [len(data)].  Before the end of
    the input: if [data] holds a record terminator, the token is the
    bytes before the first one, a slice that is not nil even when it is
    empty, and the advance goes past this terminator; if it holds none,
    the token is nil and the advance is 0, which asks for more data.  At
    the end of the input the token is all of [data], with the record
    terminators that are in it, and the advance is [len(data)]. *)
Theorem splitFunc_contract (h : store) (l : loc) (off n : Z) (atEOF : bool)
    (advance : Z) (token : slice_t) (err : option error) :
  0 <= off -> 0 <= n -> off + n <= len (array_at h l) ->
  splitFunc h (mkSlice (Some l) off n) atEOF = (advance, token, err) ->
  let data := load h (mkSlice (Some l) off n) in
  err = None /\ 0 <= advance <= n /\
  (atEOF = false -> In rt data ->
   advance = IndexByte data rt + 1 /\
   load h token = firstn (Z.to_nat (IndexByte data rt)) data /\
   ~ In rt (load h token) /\ is_nil token = false) /\
  (atEOF = false -> ~ In rt data -> advance = 0 /\ is_nil token = true) /\
  (atEOF = true -> advance = n /\ load h token = data).
Proof.
  intros Hoff Hn Hfit H data.
  pose proof (len_load h l off n Hoff Hn Hfit) as Hlen. fold data in Hlen.
  pose proof (IndexByte_range data rt) as Hr.
  unfold splitFunc in H. cbn [s_len] in H. fold data in H.
  destruct atEOF; cbn [andb] in H.
  - destruct (n =? 0) eqn:E0.
    + apply Z.eqb_eq in E0. injection H as <- <- <-.
      split; [reflexivity|]. split; [lia|].
      split; [discriminate|]. split; [discriminate|]. intros _.
      split; [now rewrite E0|].
      destruct data as [|x xs]; [reflexivity|].
      unfold len in Hlen. cbn in Hlen. lia.
    + injection H as <- <- <-.
      split; [reflexivity|]. split; [lia|].
      split; [discriminate|]. split; [discriminate|]. now intros _.
  - destruct (0 <=? IndexByte data rt) eqn:Ei; injection H as <- <- <-.
    + apply Z.leb_le in Ei.
      assert (Etok : load h (subslice (mkSlice (Some l) off n) 0
                               (IndexByte data rt)) =
                     firstn (Z.to_nat (IndexByte data rt)) data)
        by (apply load_prefix; lia).
      split; [reflexivity|]. split; [lia|]. split.
      * intros _ _. split; [reflexivity|]. split; [exact Etok|].
        split; [|reflexivity].
        rewrite Etok. now apply IndexByte_firstn.
      * split; [|discriminate]. intros _ Hno.
        rewrite (IndexByte_not_in data rt Hno) in Ei. lia.
    + apply Z.leb_gt in Ei.
      split; [reflexivity|]. split; [lia|]. split.
      * intros _ Hin. apply IndexByte_in in Hin. lia.
      * split; [|discriminate]. now intros _ _.
Qed.

Lemma splitFunc_contract_witness :
  load [two_records] (mkSlice (Some 0%nat) 0 (len two_records)) = two_records /\
  load [two_records]
    (subslice (mkSlice (Some 0%nat) 0 (len two_records)) 0 1) =
  bytes_of_string "A".
Proof.
  split.
  - destruct (splitFunc_contract [two_records] 0%nat 0 (len two_records) true
                (len two_records)
                (mkSlice (Some 0%nat) 0 (len two_records)) None)
      as (_ & _ & _ & _ & H);
      [lia|vm_compute; discriminate|vm_compute; discriminate|reflexivity|].
    apply H. reflexivity.
  - destruct (splitFunc_contract [two_records] 0%nat 0 (len two_records) false
                2 (subslice (mkSlice (Some 0%nat) 0 (len two_records)) 0 1)
                None)
      as (_ & _ & H & _);
      [lia|vm_compute; discriminate|vm_compute; discriminate|reflexivity|].
    apply H; [reflexivity|]. right. left. reflexivity.
Defined.

(** X22. Whatever the reader and whatever calls of [Next] and [Value]
    have been made on an iterator that [NewMarcIterator] has returned,
    a further call of [Next] returns true or false: with [splitFunc]
    the scanner does not panic over empty tokens, and its loop comes to
    an end. *)
Theorem Next_always_returns {R : Type} {reader : Reader R}
    (h0 : store) (r0 : R) (h : store) (m : Scanner) (r : R) :
  iterator_steps (h0, NewMarcIterator, r0) (h, m, r) ->
  exists ok h' m' r', MarcIterator_Next h m r = Scanned ok h' m' r'.
Proof.
  intros Hsteps.
  destruct (Next_returns _ _ Hsteps (NewMarcIterator_inv h0)) as [_ H].
  exact H.
Qed.

Lemma Next_always_returns_witness :
  exists ok h' m' r',
    MarcIterator_Next [] NewMarcIterator (mkDataErrReader two_records) =
    Scanned ok h' m' r'.
Proof.
  apply (Next_always_returns [] (mkDataErrReader two_records)
           [] NewMarcIterator (mkDataErrReader two_records)).
  apply steps_refl.
Defined.


(** ** A reader that hands out its last bytes with [io.EOF] *)

Section LastRead.

Context {R : Type} {reader : Reader R}.

Lemma read_loop_error (k : nat) (h : store) (s : Scanner) (r r' : R)
    (data : bytes) (e : error) :
  Read r (buf_len h s - sc_end s) = (data, Some e, r') ->
  len data <= buf_len h s - sc_end s ->
  read_loop k h s r =
  (match sc_buf s with
   | Some l => store_write h l (sc_end s) data
   | None => h
   end,
   setErr (with_buf s (sc_buf s) (sc_start s) (sc_end s + len data)) e, r').
Proof.
  intros HR Hfit. destruct k; cbn [read_loop]; rewrite HR;
    (destruct (buf_len h s - sc_end s <? len data) eqn:E;
       [apply Z.ltb_lt in E; lia|reflexivity]).
Qed.

Lemma Next_last_read (r r' : R) (data : bytes) :
  Read r startBufSize = (data, Some EOF, r') ->
  0 < len data <= startBufSize ->
  exists h' m',
    MarcIterator_Next [] NewMarcIterator r = Scanned true h' m' r' /\
    load h' (Scanner_Bytes m') = data /\
    ended (fun _ : R => []) h' m' r'.
Proof.
  intros HR Hlen.
  set (s0 := with_scanCalled NewMarcIterator).
  set (buf0 := overwrite (repeat zero (Z.to_nat startBufSize)) 0 []).
  set (s1 := with_buf s0 (Some 0%nat) 0 0).
  assert (Ebuf : len buf0 = startBufSize) by (vm_compute; reflexivity).
  unfold MarcIterator_Next, Scan.
  change (sc_done NewMarcIterator) with false. cbv iota.
  assert (Hfuel : exists n,
             (Z.to_nat (sc_maxTokenSize NewMarcIterator) + 2)%nat = S (S n))
    by (exists (Z.to_nat (sc_maxTokenSize NewMarcIterator)); lia).
  destruct Hfuel as [n ->].
  fold s0. cbn [Scan_loop].
  assert (Es : Scan_split [] s0 r = inr s0) by reflexivity.
  assert (E0 : sc_err s0 = None) by reflexivity.
  assert (Esh : Scan_shift [] s0 = ([], s0)) by reflexivity.
  assert (Eg : Scan_grow [] s0 = Some ([buf0], s1)) by reflexivity.
  rewrite Es. cbv iota. rewrite E0, Esh. cbv iota. rewrite Eg. cbv iota.
  assert (Eroom : buf_len [buf0] s1 - sc_end s1 = startBufSize)
    by (unfold buf_len; cbn [sc_buf sc_end s1 with_buf array_at nth]; lia).
  rewrite (read_loop_error maxConsecutiveEmptyReads [buf0] s1 r r' data EOF);
    [|rewrite Eroom; exact HR|rewrite Eroom; lia].
  cbn [sc_buf s1 with_buf sc_start sc_end].
  set (h2 := store_write [buf0] 0%nat 0 data).
  set (s2 := setErr _ EOF).
  assert (Es2 : s2 = mkScanner MaxScanTokenSize nil_slice (Some 0%nat) 0
                       (len data) (Some EOF) 0 true false) by reflexivity.
  assert (Hbuf2 : buf_len h2 s2 = startBufSize).
  { rewrite Es2. unfold buf_len, h2. cbn [sc_buf].
    rewrite store_write_same by (cbn; lia).
    unfold len. rewrite overwrite_length by (cbn; lia).
    exact Ebuf. }
  assert (Hinv2 : scanner_inv h2 s2).
  { split; [|rewrite Hbuf2, Es2; cbn [sc_start sc_end sc_maxTokenSize];
             unfold startBufSize, MaxScanTokenSize in *; lia].
    intros l El. rewrite Es2 in El. injection El as <-.
    unfold h2. rewrite store_write_length. cbn. lia. }
  assert (Hp2 : pending h2 s2 = data).
  { rewrite Es2. unfold pending, buf_slice. cbn [sc_buf sc_start sc_end].
    rewrite Z.sub_0_r. unfold h2. apply load_write_start; [cbn; lia|].
    cbn [array_at nth]. rewrite Ebuf. lia. }
  destruct (Scan_split_at_EOF_rest h2 s2 r' EOF Hinv2)
    as (s3 & -> & Hinv3 & Eerr3 & Ed3 & Em3 & Ese3 & Etok3);
    [now rewrite Es2|rewrite Es2; cbn; lia|].
  exists h2, s3. split; [reflexivity|].
  split; [unfold Scanner_Bytes; now rewrite Etok3|].
  split; [exact Hinv3|]. rewrite Ed3, Es2. now repeat split.
Qed.

End LastRead.

(** X23. A reader that hands out all the bytes of its input, at least
    one and at most 4096, together with [io.EOF] at the first read, as the
    contract of [io.Reader] allows: [splitFunc] is then asked at the end
    of the input only, so the first call of [Next] returns true with
    all these bytes as one buffer, whatever record terminators they
    hold, and the second call returns false. *)
Theorem Next_last_read_with_EOF {R : Type} {reader : Reader R}
    (r r' : R) (data : bytes) :
  Read r startBufSize = (data, Some EOF, r') ->
  0 < len data <= startBufSize ->
  exists h' m',
    MarcIterator_Next [] NewMarcIterator r = Scanned true h' m' r' /\
    load h' (Scanner_Bytes m') = data /\
    exists m'', MarcIterator_Next h' m' r' = Scanned false h' m'' r'.
Proof.
  intros HR Hlen.
  destruct (Next_last_read r r' data HR Hlen) as (h' & m' & E & Etok & Hended).
  exists h', m'. split; [exact E|]. split; [exact Etok|].
  destruct (ended_Next (fun _ : R => []) h' m' r' Hended) as (m'' & E' & _).
  now exists m''.
Qed.

Lemma Next_last_read_with_EOF_witness :
  exists h' m',
    MarcIterator_Next [] NewMarcIterator (mkDataErrReader two_records) =
    Scanned true h' m' (mkDataErrReader []) /\
    load h' (Scanner_Bytes m') = two_records /\
    exists m'',
      MarcIterator_Next h' m' (mkDataErrReader []) =
      Scanned false h' m'' (mkDataErrReader []).
Proof.
  apply (Next_last_read_with_EOF (mkDataErrReader two_records)
           (mkDataErrReader []) two_records).
  - reflexivity.
  - vm_compute. split; [reflexivity|discriminate].
Defined.

(** * The command [fml pick] *)

Section PickStream.

Context {R : Type} {reader : Reader R}.
Variable TrimSpace : string -> string.
Variable rest : R -> bytes.
Hypothesis Hreader : eof_apart rest.

Lemma pick_loop_ended (fuel : nat) (id : string) (h : store) (s : Scanner)
    (r : R) :
  ended rest h s r -> (0 < fuel)%nat ->
  pick_loop TrimSpace fuel id h s r = ActionReturns [] None.
Proof.
  intros H Hfuel. destruct fuel as [|fuel]; [lia|]. cbn [pick_loop].
  now destruct (ended_Next rest h s r H) as (s' & -> & _).
Qed.

Lemma pick_body (fuel : nat) (id : string) (h : store) (s : Scanner) (r : R)
    (b : bytes) (bufs : list bytes) :
  load h (Scanner_Bytes s) = b ->
  (forall arr, pick_loop TrimSpace fuel id (h ++ [arr]) s r =
               pick_in TrimSpace id bufs) ->
  match MarcIterator_Value h s with
  | Panics p => ActionPanics p
  | Returns (h2, data, (record, _)) =>
      match Record_ControlNum TrimSpace record with
      | Panics p => ActionPanics p
      | Returns cn =>
          if String.eqb cn id
          then ActionReturns (load h2 data) None
          else pick_loop TrimSpace fuel id h2 s r
      end
  end = pick_in TrimSpace id (b :: bufs).
Proof.
  intros Eb Hnext. unfold MarcIterator_Value. rewrite Eb. cbn [alloc pick_in].
  destruct (scanIntoRecord b) as [[record e]|p]; cbn [bind]; [|reflexivity].
  destruct (Record_ControlNum TrimSpace record) as [cn|p]; [|reflexivity].
  destruct (String.eqb cn id); [|apply Hnext].
  now rewrite load_alloc.
Qed.

Lemma pick_loop_yields (bufs : list bytes) :
  forall fuel id h s r tail,
    yields rest h s r bufs tail ->
    ~ In rt tail -> len tail < MaxScanTokenSize ->
    let all := bufs ++ match tail with [] => [] | _ => [tail] end in
    (List.length all < fuel)%nat ->
    pick_loop TrimSpace fuel id h s r = pick_in TrimSpace id all.
Proof using Hreader.
  induction bufs as [|b bufs IH]; intros fuel id h s r tail H Hno Hlen all Hfuel;
    (destruct fuel as [|fuel]; [lia|]); cbn [pick_loop].
  - destruct tail as [|x xs].
    + now destruct (yields_end rest Hreader h s r H) as (h' & s' & r' & -> & _).
    + destruct (yields_trailing rest Hreader h s r (x :: xs) H
                  ltac:(discriminate) Hno Hlen)
        as (h' & s' & r' & -> & Etok & H').
      apply (pick_body fuel id h' s' r' (x :: xs) [] Etok).
      intros arr. apply pick_loop_ended; [now apply ended_alloc|].
      subst all. cbn in Hfuel. lia.
  - destruct (yields_record rest Hreader h s r b bufs tail H)
      as (h' & s' & r' & -> & Etok & H').
    apply (pick_body fuel id h' s' r' b _ Etok).
    intros arr. apply IH; trivial; [now apply yields_alloc|].
    subst all. cbn in Hfuel. lia.
Qed.

End PickStream.

Lemma pick_in_first_match (TrimSpace : string -> string) (id : string)
    (before : list bytes) (b : bytes) (after : list bytes)
    (rec : MarcRecord) (e : option error) :
  Forall
    (fun b' =>
       exists rec' e' cn,
         scanIntoRecord b' = Returns (rec', e') /\
         Record_ControlNum TrimSpace rec' = Returns cn /\ cn <> id)
    before ->
  scanIntoRecord b = Returns (rec, e) ->
  Record_ControlNum TrimSpace rec = Returns id ->
  pick_in TrimSpace id (before ++ b :: after) = ActionReturns b None.
Proof.
  intros Hbefore Hb Hid.
  induction Hbefore as [|b' before (rec' & e' & cn & E1 & E2 & Hne) _ IH];
    cbn [app pick_in].
  - now rewrite Hb, Hid, String.eqb_refl.
  - rewrite E1, E2. now destruct (String.eqb_spec cn id).
Qed.

Lemma pick_in_panics (TrimSpace : string -> string) (id : string)
    (before : list bytes) (b : bytes) (after : list bytes) (p : panic) :
  Forall
    (fun b' =>
       exists rec' e' cn,
         scanIntoRecord b' = Returns (rec', e') /\
         Record_ControlNum TrimSpace rec' = Returns cn /\ cn <> id)
    before ->
  scanIntoRecord b = Panics p \/
  (exists rec e,
      scanIntoRecord b = Returns (rec, e) /\
      Record_ControlNum TrimSpace rec = Panics p) ->
  pick_in TrimSpace id (before ++ b :: after) = ActionPanics p.
Proof.
  intros Hbefore Hb.
  induction Hbefore as [|b' before (rec' & e' & cn & E1 & E2 & Hne) _ IH];
    cbn [app pick_in].
  - destruct Hb as [->|(rec & e & -> & ->)]; reflexivity.
  - rewrite E1, E2. now destruct (String.eqb_spec cn id).
Qed.

Lemma ControlNum_without_001 (TrimSpace : string -> string) (r : MarcRecord) :
  (forall cf, In (FControl cf) (Fields r) -> cf_Tag cf <> "001") ->
  Record_ControlNum TrimSpace r = Panics IndexOutOfRange.
Proof.
  intros H. unfold Record_ControlNum.
  rewrite Record_ControlField_spec. cbn [flat_map]. rewrite app_nil_r.
  now rewrite (control_fields_with_none "001" (Fields r) H).
Qed.

(** X24. The command [pick] on a file of records shorter than
    [bufio.MaxScanTokenSize], each followed by its terminator, and of
    trailing bytes: it decodes the records in the order of the file, the
    trailing bytes as a last record if there are any, and stops at the
    first record whose control number is the one asked for, whose bytes
    it writes; it panics if the decoder or [ControlNum] panics for a
    record that it comes to; otherwise it writes nothing.  It returns
    nil whenever it returns. *)
Theorem pick_searches_the_records {R : Type} {reader : Reader R}
    (TrimSpace : string -> string) (rest : R -> bytes) (file : R)
    (recs : list bytes) (trailing : bytes) (id : string) (fuel : nat) :
  eof_apart rest ->
  rest file = flat_map (fun b => b ++ [rt]) recs ++ trailing ->
  (forall b, In b recs -> ~ In rt b /\ len b < MaxScanTokenSize) ->
  ~ In rt trailing -> len trailing < MaxScanTokenSize ->
  let bufs := recs ++ match trailing with [] => [] | _ => [trailing] end in
  (List.length bufs < fuel)%nat ->
  pick_Action TrimSpace fuel id (inl file) = pick_in TrimSpace id bufs.
Proof.
  intros Hreader Hrest Hrecs Hno Hlen bufs Hfuel. cbn [pick_Action].
  apply (pick_loop_yields TrimSpace rest Hreader recs); trivial.
  now apply yields_new.
Qed.

Lemma pick_searches_the_records_witness :
  pick_Action asciiTrimSpace 4 "92005291" (inl sample_file) =
  pick_in asciiTrimSpace "92005291"
    [small_buffer; sample_buffer; ["010"%char]].
Proof.
  apply (pick_searches_the_records asciiTrimSpace plain_rest sample_file
           [small_buffer; sample_buffer] ["010"%char] "92005291" 4).
  - exact plainReader_eof_apart.
  - reflexivity.
  - intros b [<-|[<-|[]]]; (split; [|reflexivity]); vm_compute;
      intuition discriminate.
  - intros [H|[]]; discriminate H.
  - reflexivity.
  - cbn. lia.
Defined.

(** X25. On such a file, if the decoder and [ControlNum] return for a
    record and for every record before it, with the control number asked
    for in this record and in none before it, then [pick] writes the
    bytes of this record as they are in the file, without the record
    terminator that follows them, and returns nil; the record may be one
    that the decoder returns with an error. *)
Theorem pick_writes_the_first_match {R : Type} {reader : Reader R}
    (TrimSpace : string -> string) (rest : R -> bytes) (file : R)
    (recs : list bytes) (trailing : bytes) (id : string) (fuel : nat)
    (before : list bytes) (b : bytes) (after : list bytes)
    (rec : MarcRecord) (e : option error) :
  eof_apart rest ->
  rest file = flat_map (fun b => b ++ [rt]) recs ++ trailing ->
  (forall b, In b recs -> ~ In rt b /\ len b < MaxScanTokenSize) ->
  ~ In rt trailing -> len trailing < MaxScanTokenSize ->
  recs ++ match trailing with [] => [] | _ => [trailing] end =
  before ++ b :: after ->
  Forall
    (fun b' =>
       exists rec' e' cn,
         scanIntoRecord b' = Returns (rec', e') /\
         Record_ControlNum TrimSpace rec' = Returns cn /\ cn <> id)
    before ->
  scanIntoRecord b = Returns (rec, e) ->
  Record_ControlNum TrimSpace rec = Returns id ->
  (List.length (before ++ b :: after) < fuel)%nat ->
  pick_Action TrimSpace fuel id (inl file) = ActionReturns b None /\
  ~ In rt b.
Proof.
  intros Hreader Hrest Hrecs Hno Hlen Hbufs Hbefore Hb Hid Hfuel.
  split.
  - cbn [pick_Action].
    rewrite (pick_loop_yields TrimSpace rest Hreader recs fuel id []
               NewMarcIterator file trailing); trivial.
    + rewrite Hbufs. now apply (pick_in_first_match _ _ _ _ _ rec e).
    + now apply yields_new.
    + now rewrite Hbufs.
  - assert (Hin : In b (recs ++ match trailing with [] => [] | _ => [trailing] end))
      by (rewrite Hbufs; apply in_or_app; right; now left).
    apply in_app_or in Hin. destruct Hin as [Hin|Hin]; [now apply Hrecs|].
    destruct trailing as [|x xs]; [contradiction|].
    destruct Hin as [<-|[]]. exact Hno.
Qed.

Lemma pick_writes_the_first_match_witness :
  pick_Action asciiTrimSpace 4 "92005291" (inl sample_file) =
  ActionReturns sample_buffer None /\
  ~ In rt sample_buffer.
Proof.
  apply (pick_writes_the_first_match asciiTrimSpace plain_rest sample_file
           [small_buffer; sample_buffer] ["010"%char] "92005291" 4
           [small_buffer] sample_buffer [["010"%char]] sample_record None).
  - exact plainReader_eof_apart.
  - reflexivity.
  - intros b [<-|[<-|[]]]; (split; [|reflexivity]); vm_compute;
      intuition discriminate.
  - intros [H|[]]; discriminate H.
  - reflexivity.
  - reflexivity.
  - apply Forall_cons; [|apply Forall_nil].
    eexists _, _, _. split; [vm_compute; reflexivity|].
    split; [vm_compute; reflexivity|discriminate].
  - vm_compute. reflexivity.
  - vm_compute. reflexivity.
  - cbn. lia.
Defined.

(** X26. On such a file, if [pick] comes to a record of fewer than 20
    bytes, such as a line feed that follows the last record terminator,
    or to a record without a control field [001], before it has found
    the control number asked for, it panics with an index out of range:
    it neither reports that the control number is not in the file nor
    returns an error. *)
Theorem pick_panics_before_a_match {R : Type} {reader : Reader R}
    (TrimSpace : string -> string) (rest : R -> bytes) (file : R)
    (recs : list bytes) (trailing : bytes) (id : string) (fuel : nat)
    (before : list bytes) (b : bytes) (after : list bytes) :
  eof_apart rest ->
  rest file = flat_map (fun b => b ++ [rt]) recs ++ trailing ->
  (forall b, In b recs -> ~ In rt b /\ len b < MaxScanTokenSize) ->
  ~ In rt trailing -> len trailing < MaxScanTokenSize ->
  recs ++ match trailing with [] => [] | _ => [trailing] end =
  before ++ b :: after ->
  Forall
    (fun b' =>
       exists rec' e' cn,
         scanIntoRecord b' = Returns (rec', e') /\
         Record_ControlNum TrimSpace rec' = Returns cn /\ cn <> id)
    before ->
  len b < 20 \/
  (exists rec e,
      scanIntoRecord b = Returns (rec, e) /\
      forall cf, In (FControl cf) (Fields rec) -> cf_Tag cf <> "001") ->
  (List.length (before ++ b :: after) < fuel)%nat ->
  pick_Action TrimSpace fuel id (inl file) = ActionPanics IndexOutOfRange.
Proof.
  intros Hreader Hrest Hrecs Hno Hlen Hbufs Hbefore Hb Hfuel.
  cbn [pick_Action].
  rewrite (pick_loop_yields TrimSpace rest Hreader recs fuel id []
             NewMarcIterator file trailing); trivial.
  - rewrite Hbufs. apply pick_in_panics; [exact Hbefore|].
    destruct Hb as [Hshort|(rec & e & Hrec & H001)].
    + left. now apply scanIntoRecord_short.
    + right. exists rec, e. split; [exact Hrec|].
      now apply ControlNum_without_001.
  - now apply yields_new.
  - now rewrite Hbufs.
Qed.

Lemma pick_panics_before_a_match_witness :
  pick_Action asciiTrimSpace 4 "no such number" (inl sample_file) =
  ActionPanics IndexOutOfRange.
Proof.
  apply (pick_panics_before_a_match asciiTrimSpace plain_rest sample_file
           [small_buffer; sample_buffer] ["010"%char] "no such number" 4
           [small_buffer; sample_buffer] ["010"%char] []).
  - exact plainReader_eof_apart.
  - reflexivity.
  - intros b [<-|[<-|[]]]; (split; [|reflexivity]); vm_compute;
      intuition discriminate.
  - intros [H|[]]; discriminate H.
  - reflexivity.
  - reflexivity.
  - repeat apply Forall_cons; [| |apply Forall_nil];
      (eexists _, _, _; split; [vm_compute; reflexivity|];
       split; [vm_compute; reflexivity|discriminate]).
  - left. vm_compute. reflexivity.
  - cbn. lia.
Defined.
(** * The map-based revision *)

(** ** The helpers [subfields] and [splitQuery] *)

Lemma existsb_same_elements {A : Type} (p : A -> A -> bool) (x : A)
    (l l' : list A) :
  (forall c, In c l <-> In c l') ->
  existsb (p x) l = existsb (p x) l'.
Proof.
  intros H. apply eq_true_iff_eq. rewrite !existsb_exists.
  split; intros (c & Hc & Hp); exists c; (split; [now apply H|exact Hp]).
Qed.

(** X27. The helper [subfields] of the map-based revision returns the
    subfields of the chunks of [data] in the order of the chunks, each
    chunk at most once: all the chunks that are not empty when no code
    is given, else those whose first byte is one of the codes.  An empty
    chunk is skipped without an error, and neither the order of the
    codes nor a code given twice changes the result. *)
Theorem subfields_in_chunk_order (data : bytes) (codes : list string) :
  let chunks :=
    filter (fun chunk => negb (Nat.eqb (List.length chunk) 0))
      (bytes_Split data st) in
  subfields data [] = map subfield_of_chunk chunks /\
  (codes <> [] ->
   subfields data codes =
   filter (fun sf => existsb (fun code => String.eqb (sf_Code sf) code) codes)
     (map subfield_of_chunk chunks)) /\
  (forall codes',
      codes <> [] -> codes' <> [] ->
      (forall c, In c codes <-> In c codes') ->
      subfields data codes = subfields data codes').
Proof.
  intros chunks. split; [|split].
  - unfold subfields. subst chunks.
    rewrite fold_left_appending with
      (sel := fun sf =>
                match sf with
                | [] => []
                | c :: v => [mkSubField (string_of_byte c) (string_of_bytes v)]
                end).
    + cbn [app].
      induction (bytes_Split data st) as [|chunk l IH]; [reflexivity|].
      destruct chunk as [|c v]; cbn; [exact IH|now rewrite IH].
    + intros acc [|c v]; cbn; [now rewrite app_nil_r|reflexivity].
  - apply subfields_in_field_order.
  - intros codes' Hc Hc' Hsame.
    rewrite !subfields_in_field_order by assumption.
    apply filter_ext. intros sf.
    apply (existsb_same_elements String.eqb (sf_Code sf) codes codes' Hsame).
Qed.

Lemma subfields_in_chunk_order_witness :
  subfields (skipn 3 content_empty_chunk) [] =
  [mkSubField "a" "Poetry"; mkSubField "x" "Poetry."] /\
  subfields (skipn 3 content_empty_chunk) ["x"; "a"] =
  [mkSubField "a" "Poetry"; mkSubField "x" "Poetry."] /\
  subfields (skipn 3 content_empty_chunk) ["x"; "a"] =
  subfields (skipn 3 content_empty_chunk) ["a"; "x"; "a"].
Proof.
  destruct (subfields_in_chunk_order (skipn 3 content_empty_chunk) ["x"; "a"])
    as (H1 & H2 & H3).
  split; [exact H1|]. split.
  - rewrite H2 by discriminate. reflexivity.
  - apply H3; try discriminate. intros c. cbn. tauto.
Defined.

Lemma string_of_bytes_app (a b : bytes) :
  string_of_bytes (a ++ b) = (string_of_bytes a ++ string_of_bytes b)%string.
Proof.
  unfold string_of_bytes.
  induction a as [|x a IH]; cbn; [reflexivity|now rewrite IH].
Qed.

(** X28. [splitQuery] of the map-based revision and the statements
    that [Filter] has in its place in the later revision read a query
    alike: whenever [splitQuery] returns a tag, two indicator bytes and
    subfield codes, the later [Filter] takes the same tag, the strings
    of these two bytes as indicators and the same codes.  For a query
    without [|] the indicators are both [*] and the codes are what
    follows the three bytes of the tag. *)
Theorem splitQuery_and_Filter_agree (q tag subs : string) (ind1 ind2 : ascii) :
  splitQuery q = Returns (tag, ind1, ind2, subs) ->
  str_slice q 0 3 = Returns tag /\
  Filter_parts q = Returns (string_of_byte ind1, string_of_byte ind2, subs) /\
  (strings_Index q "|" = -1 ->
   ind1 = "*"%char /\ ind2 = "*"%char /\ q = (tag ++ subs)%string).
Proof.
  unfold splitQuery, Filter_parts. intros H.
  destruct (str_slice q 0 3) as [t|] eqn:Et; [cbn [bind] in H|discriminate].
  destruct (-1 <? strings_Index q "|") eqn:E.
  - destruct (str_index_at q (strings_Index q "|" + 1)) as [c1|];
      [cbn [bind] in H|discriminate].
    destruct (str_index_at q (strings_Index q "|" + 2)) as [c2|];
      [cbn [bind] in H|discriminate].
    destruct (str_slice_from q (strings_Index q "|" + 4)) as [s|];
      [cbn [bind] in H|discriminate].
    injection H as -> -> -> ->. split; [reflexivity|].
    split; [reflexivity|]. apply Z.ltb_lt in E. lia.
  - destruct (str_slice_from q 3) as [s|] eqn:Es;
      [cbn [bind] in H|discriminate].
    injection H as -> <- <- ->. split; [reflexivity|].
    split; [reflexivity|]. intros _. split; [reflexivity|].
    split; [reflexivity|].
    destruct (Z_lt_le_dec (slen q) 3) as [Hlt|H3];
      [rewrite str_slice_out_of_range in Et by lia; discriminate|].
    rewrite slen_bytes in H3.
    unfold str_slice_from, str_slice in Es, Et. rewrite slen_bytes in Es.
    rewrite slice_in_range in Et by lia.
    fold (slice_from (bytes_of_string q) 3) in Es.
    rewrite slice_from_in_range in Es by lia.
    cbn [bind] in Et, Es.
    change (Z.to_nat (3 - 0)) with 3%nat in Et.
    change (Z.to_nat 0) with 0%nat in Et. change (Z.to_nat 3) with 3%nat in Es.
    cbn [skipn] in Et.
    assert (Etag : tag = string_of_bytes (firstn 3 (bytes_of_string q)))
      by congruence.
    assert (Esubs : subs = string_of_bytes (skipn 3 (bytes_of_string q)))
      by congruence.
    rewrite Etag, Esubs, <- string_of_bytes_app, firstn_skipn.
    now rewrite string_of_bytes_of_string.
Qed.

Lemma splitQuery_and_Filter_agree_witness :
  str_slice "650|*0|x" 0 3 = Returns "650" /\
  Filter_parts "650|*0|x" = Returns ("*", "0", "x") /\
  str_slice "245ac" 0 3 = Returns "245" /\
  Filter_parts "245ac" = Returns ("*", "*", "ac").
Proof.
  destruct (splitQuery_and_Filter_agree "650|*0|x" "650" "x" "*" "0" eq_refl)
    as (H1 & H2 & _).
  destruct (splitQuery_and_Filter_agree "245ac" "245" "ac" "*" "*" eq_refl)
    as (H3 & H4 & _).
  repeat split; assumption.
Defined.

(** ** [Filter] of the map-based revision *)

Lemma MapFilter_field_appends (tag : string) (ind1 ind2 : ascii)
    (subs : string) (res : list (list string)) (field : bytes) :
  MapFilter_field tag ind1 ind2 subs res field =
  g <- MapFilter_field tag ind1 ind2 subs [] field ;; Returns (res ++ g).
Proof.
  unfold MapFilter_field.
  match goal with
  | |- bind ?m _ = _ => destruct m as [values|p]
  end; cbn [bind]; [|reflexivity].
  destruct (0 <? Z.of_nat (List.length values)); cbn [bind app];
    [reflexivity|now rewrite app_nil_r].
Qed.




(** X30. [Filter] of the map-based revision on a query that
    [splitQuery] reads as a tag, two indicator bytes and subfield codes,
    and a record whose fields under a tag that does not begin with [00]
    have at least three bytes each: it returns, for the fields stored
    under the tag in the order of their storage, the value of a control
    field, or else the values of the subfields with the requested codes
    (all of them when no code is given) of a field whose first two bytes
    are the requested indicators, [*] standing for any byte; the values
    come in the order of the field.  A field of fewer than three bytes
    under such a tag, first of its tag and asked for with the indicators
    [*], makes it panic. *)
Theorem MapRecord_Filter_groups (r : MapRecord) (q tag subs : string)
    (ind1 ind2 : ascii) :
  splitQuery q = Returns (tag, ind1, ind2, subs) ->
  ((forall f, In f (fields r tag) -> HasPrefix tag "00" = false -> 3 <= len f) ->
   MapRecord_Filter r [q] =
   Returns
     (flat_map
        (fun f =>
           if HasPrefix tag "00" then [[string_of_bytes f]]
           else if (Ascii.eqb ind1 "*" || Ascii.eqb (nth 0 f zero) ind1) &&
                   (Ascii.eqb ind2 "*" || Ascii.eqb (nth 1 f zero) ind2)
           then group (map sf_Value (subfields (skipn 3 f) (explode subs)))
           else [])
        (fields r tag))) /\
  (forall f others,
      fields r tag = f :: others -> HasPrefix tag "00" = false ->
      ind1 = "*"%char -> ind2 = "*"%char -> len f < 3 ->
      MapRecord_Filter r [q] = Panics SliceBoundsOutOfRange).
Proof.
  intros Hq. split.
  - intros Hlen. unfold MapRecord_Filter. cbn [for_range].
    rewrite Hq. cbn [bind]. rewrite bind_Returns.
    apply for_range_flat_map.
    + intros acc f. apply MapFilter_field_appends.
    + intros f Hf. unfold MapFilter_field.
      destruct (HasPrefix tag "00") eqn:Ep; [reflexivity|].
      specialize (Hlen f Hf eq_refl). unfold matches.
      rewrite !index_at_nth by lia.
      change (Z.to_nat 0) with 0%nat. change (Z.to_nat 1) with 1%nat.
      replace (if Ascii.eqb ind1 "*" then Returns true
               else d0 <- Returns (nth 0 f zero) ;; Returns (Ascii.eqb d0 ind1))
        with (Returns (Ascii.eqb ind1 "*" || Ascii.eqb (nth 0 f zero) ind1))
        by now destruct (Ascii.eqb ind1 "*").
      replace (if Ascii.eqb ind2 "*" then Returns true
               else d1 <- Returns (nth 1 f zero) ;; Returns (Ascii.eqb d1 ind2))
        with (Returns (Ascii.eqb ind2 "*" || Ascii.eqb (nth 1 f zero) ind2))
        by now destruct (Ascii.eqb ind2 "*").
      cbn [bind].
      destruct ((Ascii.eqb ind1 "*" || Ascii.eqb (nth 0 f zero) ind1) &&
                (Ascii.eqb ind2 "*" || Ascii.eqb (nth 1 f zero) ind2));
        cbn [bind]; [|reflexivity].
      rewrite slice_from_in_range by lia. cbn [bind].
      change (Z.to_nat 3) with 3%nat.
      rewrite append_values_spec. cbn [app].
      now destruct (map sf_Value (subfields (skipn 3 f) (explode subs))).
  - intros f others Hf Hp -> -> Hshort.
    unfold MapRecord_Filter. cbn [for_range].
    rewrite Hq. cbn [bind]. rewrite Hf. cbn [for_range].
    unfold MapFilter_field, matches. rewrite Hp. cbn [Ascii.eqb bind].
    change (Ascii.eqb "*" "*") with true. cbn [bind andb].
    unfold slice_from. now rewrite slice_out_of_range by lia.
Qed.

Lemma MapRecord_Filter_groups_witness :
  MapRecord_Filter sample_map_record ["650|*0|xa"] =
  Returns [["Poetry"; "Juvenile poetry."]] /\
  MapRecord_Filter short_map_record ["650"] = Panics SliceBoundsOutOfRange.
Proof.
  split.
  - destruct (MapRecord_Filter_groups sample_map_record "650|*0|xa" "650" "xa"
                "*" "0" eq_refl) as [H _].
    apply H. intros f [<-|[<-|[]]] _; vm_compute; discriminate.
  - destruct (MapRecord_Filter_groups short_map_record "650" "650" ""
                "*" "*" eq_refl) as [_ H].
    apply (H (bytes_of_string " 0") []); try reflexivity.
Defined.
